(** * LSP framing proxy (lsp-proxy.mjs): shallow embedding and verified properties

    The two proxy scripts of the repository (the csharp-ls variant and the
    typescript-language-server variant) share one design: a per-direction
    message parser that reassembles [Content-Length] framed JSON-RPC
    messages from byte chunks, a URI normalizer applied on the
    client-to-server direction, an interception policy on the
    server-to-client direction (csharp variant only) and a handful of
    process lifecycle handlers.

    Node buffers are lists of bytes, JavaScript strings are lists of
    UTF-16 code units, and the side effects of the handlers (writes to the
    child's stdin, to the proxy's stdout, to the log stream, exit calls)
    are returned as an explicit list of effects in program order.  A log
    write carries the message; the text of the entry, with the reading of
    the clock as a parameter, is a function of its own.  A session is a
    list of events handled one after the other.

    The functions of the platform that the scripts call are modelled from
    their specifications: [Buffer] and its encodings from the Node
    documentation, [JSON.parse], [JSON.stringify], [Number::toString] and
    the property order of objects from ECMA-262, the regular expressions
    by the matchers they denote. *)

From Stdlib Require Import ZArith List Bool Lia Permutation.
From Stdlib Require Strings.Ascii Strings.String.
From Stdlib Require Import Strings.Byte.
Import ListNotations String.StringSyntax.

Local Open Scope Z_scope.

(** ** Bytes and strings *)

(** A Node [Buffer]. *)
Definition buffer := list byte.

(** A JavaScript string: a sequence of UTF-16 code units. *)
Definition jsstring := list Z.

Definition b2z (b : byte) : Z := Z.of_N (Byte.to_N b).

(** Storing a number into a buffer keeps its low eight bits. *)
Definition z2b (z : Z) : byte :=
  match Byte.of_N (Z.to_N (z mod 256)) with
  | Some b => b
  | None => x00
  end.

(** Literals: the code units (resp. bytes) of an ASCII string. *)
Definition str (s : String.string) : jsstring :=
  map (fun a => Z.of_N (Ascii.N_of_ascii a)) (String.list_ascii_of_string s).

Definition bytes (s : String.string) : buffer := String.list_byte_of_string s.

Arguments str s%_string_scope.
Arguments bytes s%_string_scope.
Arguments String.append (s1 s2)%_string_scope.
Delimit Scope string_scope with string.

Definition CRLFCRLF : buffer := [x0d; x0a; x0d; x0a].

Fixpoint jsstring_eqb (a b : jsstring) : bool :=
  match a, b with
  | [], [] => true
  | x :: a', y :: b' => Z.eqb x y && jsstring_eqb a' b'
  | _, _ => false
  end.

(** [strip_prefix p s] is [Some r] when [s = p ++ r]. *)
Fixpoint strip_prefix (p s : jsstring) : option jsstring :=
  match p with
  | [] => Some s
  | c :: p' =>
      match s with
      | [] => None
      | d :: s' => if Z.eqb c d then strip_prefix p' s' else None
      end
  end.

(** [String.prototype.startsWith]. *)
Definition startsWith (s p : jsstring) : bool :=
  match strip_prefix p s with Some _ => true | None => false end.

(** ** URI normalization (client to server only) *)

Definition SLASH : Z := 47.
Definition BACKSLASH : Z := 92.

(** [uri.replace(/^file:\/{2,3}/, "")]: the pattern is anchored at the
    start and its quantifier is greedy, so three slashes are consumed when
    they are there, two otherwise; without a match the string is returned
    as it is. *)
Definition replace_file_prefix (uri : jsstring) : jsstring :=
  match strip_prefix (str "file:") uri with
  | Some (47 :: 47 :: 47 :: r) => r
  | Some (47 :: 47 :: r) => r
  | _ => uri
  end.

(** [path.replace(/\\/g, "/")]. *)
Definition replace_backslashes (path : jsstring) : jsstring :=
  map (fun c => if Z.eqb c BACKSLASH then SLASH else c) path.

Definition all_slashes (s : jsstring) : bool :=
  forallb (fun c => Z.eqb c SLASH) s.

(** [path.replace(/\/+$/, "")]: the regular expression engine tries the
    start positions from left to right; [\/+$] matches at a position
    exactly when a slash stands there and only slashes follow up to the
    end of the string.  The first (and only) match is replaced by the
    empty string. *)
Fixpoint replace_trailing_slashes (path : jsstring) : jsstring :=
  match path with
  | [] => []
  | c :: t =>
      if Z.eqb c SLASH && all_slashes t then []
      else c :: replace_trailing_slashes t
  end.

Definition normalizeFileUri (uri : jsstring) : jsstring :=
  if negb (startsWith uri (str "file://")) then uri
  else
    let path := replace_file_prefix uri in
    let path := replace_backslashes path in
    let path :=
      if (1 <? Z.of_nat (length path)) then replace_trailing_slashes path
      else path in
    str "file:///" ++ path.

(** ** Buffers *)

Fixpoint buffer_prefixb (p b : buffer) : bool :=
  match p with
  | [] => true
  | x :: p' =>
      match b with
      | [] => false
      | y :: b' => Byte.eqb x y && buffer_prefixb p' b'
      end
  end.

(** [buffer.indexOf(needle)]: offset of the first occurrence, [None] for
    the [-1] of the source. *)
Fixpoint indexOf (buf needle : buffer) : option nat :=
  if buffer_prefixb needle buf then Some 0%nat
  else
    match buf with
    | [] => None
    | _ :: t => option_map S (indexOf t needle)
    end.

(** [buffer.subarray(start, end)] and [buffer.subarray(start)], for
    offsets within the buffer (all the calls of the source are). *)
Definition subarray (buf : buffer) (start stop : nat) : buffer :=
  firstn (stop - start) (skipn start buf).

Definition subarray_from (buf : buffer) (start : nat) : buffer :=
  skipn start buf.

(** [buf.toString("ascii")]: Node clears the high bit of every byte. *)
Definition toString_ascii (buf : buffer) : jsstring :=
  map (fun b => b2z b mod 128) buf.

(** *** UTF-8

    [buf.toString("utf-8")] never throws: every ill-formed sequence is
    replaced by U+FFFD (the decoder of the Encoding standard, maximal
    subparts), and a leading byte order mark is kept. *)

Definition REPLACEMENT : Z := 65533.

Record utf8_pending := mk_pending
  { u_cp : Z; u_needed : nat; u_lower : Z; u_upper : Z }.

(** A byte read while no sequence is pending. *)
Definition utf8_lead (b : Z) : list Z * option utf8_pending :=
  if b <=? 127 then ([b], None)
  else if (194 <=? b) && (b <=? 223) then
    ([], Some (mk_pending (b - 192) 1 128 191))
  else if (224 <=? b) && (b <=? 239) then
    ([], Some (mk_pending (b - 224) 2
                 (if b =? 224 then 160 else 128)
                 (if b =? 237 then 159 else 191)))
  else if (240 <=? b) && (b <=? 244) then
    ([], Some (mk_pending (b - 240) 3
                 (if b =? 240 then 144 else 128)
                 (if b =? 244 then 143 else 191)))
  else ([REPLACEMENT], None).

(** The decoder proper, from bytes to code points.  A byte that cannot
    continue the pending sequence ends it with U+FFFD and is then read
    again as a first byte. *)
Fixpoint utf8_decode (st : option utf8_pending) (l : buffer) : list Z :=
  match l with
  | [] => match st with None => [] | Some _ => [REPLACEMENT] end
  | b :: t =>
      let z := b2z b in
      match st with
      | None =>
          let '(out, st') := utf8_lead z in out ++ utf8_decode st' t
      | Some p =>
          if (u_lower p <=? z) && (z <=? u_upper p) then
            let cp := u_cp p * 64 + (z - 128) in
            match u_needed p with
            | S (S n) => utf8_decode (Some (mk_pending cp (S n) 128 191)) t
            | _ => cp :: utf8_decode None t
            end
          else
            let '(out, st') := utf8_lead z in
            REPLACEMENT :: out ++ utf8_decode st' t
      end
  end.

(** A code point as UTF-16 code units. *)
Definition utf16_of_code_point (cp : Z) : jsstring :=
  if cp <? 65536 then [cp]
  else [55296 + (cp - 65536) / 1024; 56320 + (cp - 65536) mod 1024].

Definition toString_utf8 (buf : buffer) : jsstring :=
  flat_map utf16_of_code_point (utf8_decode None buf).

Definition is_high_surrogate (c : Z) : bool := (55296 <=? c) && (c <=? 56319).
Definition is_low_surrogate (c : Z) : bool := (56320 <=? c) && (c <=? 57343).

Definition utf8_of_code_point (cp : Z) : buffer :=
  if cp <? 128 then [z2b cp]
  else if cp <? 2048 then [z2b (192 + cp / 64); z2b (128 + cp mod 64)]
  else if cp <? 65536 then
    [z2b (224 + cp / 4096); z2b (128 + (cp / 64) mod 64); z2b (128 + cp mod 64)]
  else
    [z2b (240 + cp / 262144); z2b (128 + (cp / 4096) mod 64);
     z2b (128 + (cp / 64) mod 64); z2b (128 + cp mod 64)].

(** [Buffer.from(s, "utf-8")]: surrogate pairs are combined, a lone
    surrogate is written as U+FFFD. *)
Fixpoint Buffer_from_utf8 (s : jsstring) : buffer :=
  match s with
  | [] => []
  | c :: t =>
      if is_high_surrogate c then
        match t with
        | d :: t' =>
            if is_low_surrogate d then
              utf8_of_code_point (65536 + (c - 55296) * 1024 + (d - 56320))
                ++ Buffer_from_utf8 t'
            else utf8_of_code_point REPLACEMENT ++ Buffer_from_utf8 t
        | [] => utf8_of_code_point REPLACEMENT
        end
      else if is_low_surrogate c then
        utf8_of_code_point REPLACEMENT ++ Buffer_from_utf8 t
      else utf8_of_code_point c ++ Buffer_from_utf8 t
  end.

(** ** Decimal numerals *)

Definition is_digit (c : Z) : bool := (48 <=? c) && (c <=? 57).

(** The value of a run of decimal digits, most significant first. *)
Definition digits_value (ds : jsstring) : Z :=
  fold_left (fun acc d => acc * 10 + (d - 48)) ds 0.

Fixpoint decimal_loop (fuel : nat) (n : Z) (acc : jsstring) : jsstring :=
  match fuel with
  | O => acc
  | S f =>
      let acc' := (48 + n mod 10) :: acc in
      if n <? 10 then acc' else decimal_loop f (n / 10) acc'
  end.

(** The decimal numeral of a non-negative integer, as template literals
    and [Number.prototype.toString] print it. *)
Definition decimal (n : Z) : jsstring :=
  decimal_loop (S (Z.to_nat (Z.log2 n))) n [].

(** [span p s]: the longest prefix of [s] whose units satisfy [p], and
    what follows it. *)
Fixpoint span (p : Z -> bool) (s : jsstring) : jsstring * jsstring :=
  match s with
  | [] => ([], [])
  | c :: t =>
      if p c then let '(a, b) := span p t in (c :: a, b)
      else ([], s)
  end.

(** ** The header pattern [/Content-Length:\s*(\d+)/i] *)

(** Case folding of the [i] flag on ASCII text. *)
Definition fold_case (c : Z) : Z :=
  if (97 <=? c) && (c <=? 122) then c - 32 else c.

Fixpoint strip_prefix_ci (p s : jsstring) : option jsstring :=
  match p with
  | [] => Some s
  | c :: p' =>
      match s with
      | [] => None
      | d :: s' =>
          if Z.eqb (fold_case c) (fold_case d) then strip_prefix_ci p' s'
          else None
      end
  end.

(** [\s] on text whose units are below 128. *)
Definition is_space (c : Z) : bool :=
  ((9 <=? c) && (c <=? 13)) || (c =? 32).

(** The pattern tried at the start of [s].  [\s*] and [\d+] are greedy and
    their classes are disjoint, so giving back white space never helps:
    the match succeeds exactly when a digit follows the white space run.
    The result is the capture group, the whole run of digits. *)
Definition content_length_here (s : jsstring) : option jsstring :=
  match strip_prefix_ci (str "Content-Length:") s with
  | None => None
  | Some r =>
      let '(_, r') := span is_space r in
      match span is_digit r' with
      | ([], _) => None
      | (ds, _) => Some ds
      end
  end.

(** [headerText.match(...)]: the leftmost start position that matches. *)
Fixpoint content_length_match (s : jsstring) : option jsstring :=
  match content_length_here s with
  | Some ds => Some ds
  | None =>
      match s with
      | [] => None
      | _ :: t => content_length_match t
      end
  end.

(** [parseInt(digits, 10)] on a run of decimal digits.  The source holds
    the result in a double; the model keeps the exact integer, which
    decides [buffer.length < messageEnd] the same way: a double at or
    above 2^53 exceeds the length of any buffer, and below it the value
    and the sum are exact. *)
Definition parseInt (ds : jsstring) : Z := digits_value ds.

(** ** JavaScript numbers

    JSON text only produces finite doubles and, by overflow, the two
    infinities.  A finite double is [(-1)^neg * m * 2^e] in canonical
    form: [2^52 <= m < 2^53] and [-1074 <= e <= 971], or [m < 2^52] and
    [e = -1074] (subnormals and the two zeros). *)

Inductive number :=
  | NFinite (neg : bool) (m e : Z)
  | NInfinity (neg : bool).

Definition number_eqb (x y : number) : bool :=
  match x, y with
  | NFinite s m e, NFinite s' m' e' =>
      Bool.eqb s s' && Z.eqb m m' && Z.eqb e e'
  | NInfinity s, NInfinity s' => Bool.eqb s s'
  | _, _ => false
  end.

(** Number of fraction bits kept when a ratio is turned into binary. *)
Definition ROUND_SCALE : Z := 1200.

(** The Number value of the non-negative rational [p / q] ([q > 0]):
    round to nearest, ties to even, overflow to infinity.  [t] holds the
    integer part of [p / q * 2^1200] and [sticky] tells whether anything
    was cut off; the quantum exponent is that of a 53 bit significand,
    and not below that of the subnormals. *)
Definition round_ratio (neg : bool) (p q : Z) : number :=
  let a := p * 2 ^ ROUND_SCALE in
  let t := a / q in
  let sticky := negb (a mod q =? 0) in
  let shift := Z.max (Z.log2 t - 52) 126 in
  let m0 := t / 2 ^ shift in
  let r := t mod 2 ^ shift in
  let half := 2 ^ (shift - 1) in
  let up := (half <? r) || ((r =? half) && (sticky || Z.odd m0)) in
  let m := if up then m0 + 1 else m0 in
  let e := shift - ROUND_SCALE in
  let '(m, e) := if m =? 2 ^ 53 then (2 ^ 52, e + 1) else (m, e) in
  if 971 <? e then NInfinity neg else NFinite neg m e.

(** The rational [d * 10^x] as a fraction. *)
Definition decimal_ratio (d x : Z) : Z * Z :=
  if 0 <=? x then (d * 10 ^ x, 1) else (d, 10 ^ (- x)).

(** The Number value of the decimal [d * 10^x]. *)
Definition number_of_decimal (neg : bool) (d x : Z) : number :=
  let '(p, q) := decimal_ratio d x in round_ratio neg p q.

(** *** [Number::toString]

    For a finite non-zero [x] the digits are those of the integers [s],
    [k], [n] with [k] as small as possible such that [s * 10^(n-k)] has
    [k] digits and converts back to [x]; among several [s] the one closest
    to [x] is taken (an even one on a tie). *)

(** [p / q < 10^n]. *)
Definition below_pow10 (p q n : Z) : bool :=
  if 0 <=? n then p <? q * 10 ^ n else p * 10 ^ (- n) <? q.

(** The least [n] from [n0] on with [p / q < 10^n]. *)
Fixpoint decimal_exponent (fuel : nat) (p q n0 : Z) : Z :=
  match fuel with
  | O => n0
  | S f => if below_pow10 p q n0 then n0 else decimal_exponent f p q (n0 + 1)
  end.

(** The candidate with [k] digits, as [(s, n - k)], if one converts back
    to the double [(m, e)] of value [p / q]. *)
Definition shortest_try (m e p q n k : Z) : option (Z * Z) :=
  let x := n - k in
  let '(num, den) := if 0 <=? x then (p, q * 10 ^ x) else (p * 10 ^ (- x), q) in
  let lo := num / den in
  let rm := num mod den in
  let hi := lo + 1 in
  let ok s := number_eqb (number_of_decimal false s x) (NFinite false m e) in
  let lo_closer := (2 * rm <? den) || ((2 * rm =? den) && Z.even lo) in
  match ok lo, ok hi with
  | true, true => Some (if lo_closer then lo else hi, x)
  | true, false => Some (lo, x)
  | false, true => Some (hi, x)
  | false, false => None
  end.

(** The exact decimal expansion of [m * 2^e]. *)
Definition exact_decimal (m e : Z) : Z * Z :=
  if 0 <=? e then (m * 2 ^ e, 0) else (m * 5 ^ (- e), e).

(** The search for the shortest digits.  Seventeen digits tell any two
    doubles apart, so on a double the search ends in [shortest_try]; the
    exact expansion closes the recursion, and what is proved below about
    the result holds for it as well. *)
Fixpoint shortest_search (fuel : nat) (m e p q n k : Z) : Z * Z :=
  match fuel with
  | O => exact_decimal m e
  | S f =>
      match shortest_try m e p q n k with
      | Some r => r
      | None => shortest_search f m e p q n (k + 1)
      end
  end.

(** Trailing zeros of [s] move into the exponent. *)
Fixpoint strip_zeros (fuel : nat) (s x : Z) : Z * Z :=
  match fuel with
  | O => (s, x)
  | S f =>
      if (s mod 10 =? 0) && negb (s =? 0) then strip_zeros f (s / 10) (x + 1)
      else (s, x)
  end.

Definition shortest_decimal (m e : Z) : Z * Z :=
  let '(p, q) := if 0 <=? e then (m * 2 ^ e, 1) else (m, 2 ^ (- e)) in
  let n := decimal_exponent 700 p q (-330) in
  let '(s, x) := shortest_search 17 m e p q n 1 in
  strip_zeros (S (Z.to_nat (Z.log2 s))) s x.

Definition zeros (n : Z) : jsstring := repeat 48 (Z.to_nat n).

(** The notation chosen by [Number::toString] for the digits of [s] and
    the exponent [n] of the first digit. *)
Definition format_decimal (s x : Z) : jsstring :=
  let ds := decimal s in
  let k := Z.of_nat (length ds) in
  let n := x + k in
  if (k <=? n) && (n <=? 21) then ds ++ zeros (n - k)
  else if (0 <? n) && (n <=? 21) then
    firstn (Z.to_nat n) ds ++ 46 :: skipn (Z.to_nat n) ds
  else if (-6 <? n) && (n <=? 0) then
    48 :: 46 :: zeros (- n) ++ ds
  else
    let ex := n - 1 in
    let sign := if ex <? 0 then 45 else 43 in
    match ds with
    | [d] => d :: 101 :: sign :: decimal (Z.abs ex)
    | d :: rest => d :: 46 :: rest ++ 101 :: sign :: decimal (Z.abs ex)
    | [] => []
    end.

(** [Number::toString] on finite numbers; both zeros print as ["0"]. *)
Definition number_toString (neg : bool) (m e : Z) : jsstring :=
  if m =? 0 then str "0"
  else
    let '(s, x) := shortest_decimal m e in
    (if neg then [45] else []) ++ format_decimal s x.

(** ** JSON values

    The values [JSON.parse] returns.  An object is the list of its own
    properties in property order (array-index keys in ascending order
    first, then the other keys in creation order), each key once. *)

#[warnings="-register-all"]
Inductive json :=
  | JNull
  | JBool (b : bool)
  | JNum (n : number)
  | JStr (s : jsstring)
  | JArr (xs : list json)
  | JObj (props : list (jsstring * json)).

Fixpoint has_key (k : jsstring) (ps : list (jsstring * json)) : bool :=
  match ps with
  | [] => false
  | (k', _) :: t => jsstring_eqb k k' || has_key k t
  end.

Fixpoint lookup (k : jsstring) (ps : list (jsstring * json)) : option json :=
  match ps with
  | [] => None
  | (k', v) :: t => if jsstring_eqb k k' then Some v else lookup k t
  end.

Fixpoint replace_value (k : jsstring) (v : json) (ps : list (jsstring * json))
  : list (jsstring * json) :=
  match ps with
  | [] => []
  | (k', v') :: t =>
      if jsstring_eqb k k' then (k', v) :: t
      else (k', v') :: replace_value k v t
  end.

(** An array index is a canonical numeral below 2^32 - 1. *)
Definition array_index (k : jsstring) : option Z :=
  match k with
  | [] => None
  | c :: t =>
      if forallb is_digit k && (negb (c =? 48) || match t with [] => true | _ => false end)
      then
        let i := digits_value k in
        if i <? 4294967295 then Some i else None
      else None
  end.

Fixpoint insert_index (i : Z) (k : jsstring) (v : json)
  (ps : list (jsstring * json)) : list (jsstring * json) :=
  match ps with
  | [] => [(k, v)]
  | (k', v') :: t =>
      match array_index k' with
      | Some j => if j <? i then (k', v') :: insert_index i k v t
                  else (k, v) :: ps
      | None => (k, v) :: ps
      end
  end.

(** [CreateDataProperty] on an ordinary object: an existing key keeps its
    place and takes the new value, a new key is created. *)
Definition obj_define (ps : list (jsstring * json)) (k : jsstring) (v : json)
  : list (jsstring * json) :=
  if has_key k ps then replace_value k v ps
  else
    match array_index k with
    | Some i => insert_index i k v ps
    | None => ps ++ [(k, v)]
    end.

(** *** [JSON.parse] *)

Inductive presult (A : Type) :=
  | POk (a : A) (rest : jsstring)
  | PErr
  | PFuel.

Arguments POk {A} a rest.
Arguments PErr {A}.
Arguments PFuel {A}.

Definition is_ws (c : Z) : bool :=
  (c =? 32) || (c =? 9) || (c =? 10) || (c =? 13).

Fixpoint skip_ws (s : jsstring) : jsstring :=
  match s with
  | c :: t => if is_ws c then skip_ws t else s
  | [] => []
  end.

Definition hex_value (c : Z) : option Z :=
  if (48 <=? c) && (c <=? 57) then Some (c - 48)
  else if (97 <=? c) && (c <=? 102) then Some (c - 87)
  else if (65 <=? c) && (c <=? 70) then Some (c - 55)
  else None.

Definition hex4 (a b c d : Z) : option Z :=
  match hex_value a, hex_value b, hex_value c, hex_value d with
  | Some x, Some y, Some z, Some w => Some (((x * 16 + y) * 16 + z) * 16 + w)
  | _, _, _, _ => None
  end.

Definition escape_value (c : Z) : option Z :=
  if c =? 34 then Some 34
  else if c =? 92 then Some 92
  else if c =? 47 then Some 47
  else if c =? 98 then Some 8
  else if c =? 102 then Some 12
  else if c =? 110 then Some 10
  else if c =? 114 then Some 13
  else if c =? 116 then Some 9
  else None.

(** The characters of a string literal after its opening quote. *)
Fixpoint parse_string_body (s : jsstring) : presult jsstring :=
  match s with
  | [] => PErr
  | c :: t =>
      if c =? 34 then POk [] t
      else if c =? 92 then
        match t with
        | x :: t' =>
            if x =? 117 then
              match t' with
              | h1 :: h2 :: h3 :: h4 :: t'' =>
                  match hex4 h1 h2 h3 h4 with
                  | Some u =>
                      match parse_string_body t'' with
                      | POk r rest => POk (u :: r) rest
                      | e => e
                      end
                  | None => PErr
                  end
              | _ => PErr
              end
            else
              match escape_value x with
              | Some u =>
                  match parse_string_body t' with
                  | POk r rest => POk (u :: r) rest
                  | e => e
                  end
              | None => PErr
              end
        | [] => PErr
        end
      else if c <? 32 then PErr
      else
        match parse_string_body t with
        | POk r rest => POk (c :: r) rest
        | e => e
        end
  end.

(** An optional fraction: [.] and at least one digit. *)
Definition parse_fraction (s : jsstring) : option (jsstring * jsstring) :=
  match s with
  | c :: t =>
      if c =? 46 then
        match span is_digit t with
        | ([], _) => None
        | (fs, r) => Some (fs, r)
        end
      else Some ([], s)
  | [] => Some ([], s)
  end.

(** An optional sign of an exponent. *)
Definition parse_sign (s : jsstring) : Z * jsstring :=
  match s with
  | c :: t =>
      if c =? 45 then (-1, t) else if c =? 43 then (1, t) else (1, s)
  | [] => (1, s)
  end.

(** An optional exponent: [e] or [E], an optional sign and at least one
    digit. *)
Definition parse_exponent (s : jsstring) : option (Z * jsstring) :=
  match s with
  | c :: t =>
      if (c =? 101) || (c =? 69) then
        let '(sg, t') := parse_sign t in
        match span is_digit t' with
        | ([], _) => None
        | (es, r) => Some (sg * digits_value es, r)
        end
      else Some (0, s)
  | [] => Some (0, s)
  end.

(** The integer part: [0], or a run of digits that does not start with
    [0]. *)
Definition parse_integer (s : jsstring) : jsstring * jsstring :=
  match s with
  | c :: t => if c =? 48 then ([48], t) else span is_digit s
  | [] => ([], [])
  end.

(** A number literal: an optional minus sign, the integer part, an
    optional fraction and an optional exponent. *)
Definition parse_number (s : jsstring) : presult number :=
  let '(neg, s1) :=
    match s with
    | c :: t => if c =? 45 then (true, t) else (false, s)
    | [] => (false, s)
    end in
  let '(ip, s2) := parse_integer s1 in
  match ip with
  | [] => PErr
  | _ =>
      match parse_fraction s2 with
      | None => PErr
      | Some (fs, s3) =>
          match parse_exponent s3 with
          | None => PErr
          | Some (ex, s4) =>
              POk (number_of_decimal neg (digits_value (ip ++ fs))
                     (ex - Z.of_nat (length fs))) s4
          end
      end
  end.

(** The object a list of members in source order denotes: a later member
    overwrites an earlier one of the same name. *)
Definition object_of_members (ms : list (jsstring * json)) : json :=
  JObj (fold_left (fun o kv => obj_define o (fst kv) (snd kv)) ms []).

(** The unit [c] stands next, after optional white space. *)
Definition expect (c : Z) (s : jsstring) : option jsstring :=
  match skip_ws s with
  | d :: r => if d =? c then Some r else None
  | [] => None
  end.

Fixpoint parse_value (fuel : nat) (s : jsstring) : presult json :=
  match fuel with
  | O => PFuel
  | S f =>
      match skip_ws s with
      | [] => PErr
      | c :: r =>
          if c =? 110 then
            match strip_prefix (str "ull") r with
            | Some r' => POk JNull r'
            | None => PErr
            end
          else if c =? 116 then
            match strip_prefix (str "rue") r with
            | Some r' => POk (JBool true) r'
            | None => PErr
            end
          else if c =? 102 then
            match strip_prefix (str "alse") r with
            | Some r' => POk (JBool false) r'
            | None => PErr
            end
          else if c =? 34 then
            match parse_string_body r with
            | POk k rest => POk (JStr k) rest
            | PErr => PErr
            | PFuel => PFuel
            end
          else if c =? 91 then
            match expect 93 r with
            | Some r' => POk (JArr []) r'
            | None =>
                match parse_elements f r with
                | POk xs rest => POk (JArr xs) rest
                | PErr => PErr
                | PFuel => PFuel
                end
            end
          else if c =? 123 then
            match expect 125 r with
            | Some r' => POk (JObj []) r'
            | None =>
                match parse_members f r with
                | POk ms rest => POk (object_of_members ms) rest
                | PErr => PErr
                | PFuel => PFuel
                end
            end
          else if (c =? 45) || is_digit c then
            match parse_number (c :: r) with
            | POk n rest => POk (JNum n) rest
            | PErr => PErr
            | PFuel => PFuel
            end
          else PErr
      end
  end

with parse_elements (fuel : nat) (s : jsstring) : presult (list json) :=
  match fuel with
  | O => PFuel
  | S f =>
      match parse_value f s with
      | POk v r =>
          match expect 44 r with
          | Some r' =>
              match parse_elements f r' with
              | POk vs rest => POk (v :: vs) rest
              | e => e
              end
          | None =>
              match expect 93 r with
              | Some r' => POk [v] r'
              | None => PErr
              end
          end
      | PErr => PErr
      | PFuel => PFuel
      end
  end

with parse_members (fuel : nat) (s : jsstring)
  : presult (list (jsstring * json)) :=
  match fuel with
  | O => PFuel
  | S f =>
      match expect 34 s with
      | Some r =>
          match parse_string_body r with
          | POk k r1 =>
              match expect 58 r1 with
              | Some r2 =>
                  match parse_value f r2 with
                  | POk v r3 =>
                      match expect 44 r3 with
                      | Some r4 =>
                          match parse_members f r4 with
                          | POk ms rest => POk ((k, v) :: ms) rest
                          | e => e
                          end
                      | None =>
                          match expect 125 r3 with
                          | Some r4 => POk [(k, v)] r4
                          | None => PErr
                          end
                      end
                  | PErr => PErr
                  | PFuel => PFuel
                  end
              | None => PErr
              end
          | PErr => PErr
          | PFuel => PFuel
          end
      | None => PErr
      end
  end.

(** [JSON.parse(text)]: [None] stands for the [SyntaxError] it throws.
    Every call of the parser consumes a unit within two levels of
    recursion, so the fuel given here is never used up. *)
Definition JSON_parse (text : jsstring) : option json :=
  match parse_value (2 * length text + 2) text with
  | POk v rest =>
      match skip_ws rest with
      | [] => Some v
      | _ => None
      end
  | _ => None
  end.

(** *** [JSON.stringify] *)

Definition hex_digit (n : Z) : Z := if n <? 10 then 48 + n else 87 + n.

Definition unicode_escape (c : Z) : jsstring :=
  [92; 117; hex_digit (c / 4096); hex_digit ((c / 256) mod 16);
   hex_digit ((c / 16) mod 16); hex_digit (c mod 16)].

(** [QuoteJSONString] without the enclosing quotes: short escapes, [\u]
    escapes for the other control characters and for lone surrogates,
    everything else as it is. *)
Fixpoint quote_body (s : jsstring) : jsstring :=
  match s with
  | [] => []
  | c :: t =>
      if c =? 8 then 92 :: 98 :: quote_body t
      else if c =? 9 then 92 :: 116 :: quote_body t
      else if c =? 10 then 92 :: 110 :: quote_body t
      else if c =? 12 then 92 :: 102 :: quote_body t
      else if c =? 13 then 92 :: 114 :: quote_body t
      else if c =? 34 then 92 :: 34 :: quote_body t
      else if c =? 92 then 92 :: 92 :: quote_body t
      else if c <? 32 then unicode_escape c ++ quote_body t
      else if is_high_surrogate c then
        match t with
        | d :: t' =>
            if is_low_surrogate d then c :: d :: quote_body t'
            else unicode_escape c ++ quote_body t
        | [] => unicode_escape c
        end
      else if is_low_surrogate c then unicode_escape c ++ quote_body t
      else c :: quote_body t
  end.

Definition JSON_quote (s : jsstring) : jsstring := 34 :: quote_body s ++ [34].

Fixpoint join_comma (l : list jsstring) : jsstring :=
  match l with
  | [] => []
  | [x] => x
  | x :: t => x ++ 44 :: join_comma t
  end.

(** [JSON.stringify(value)] without indentation, on the values
    [JSON.parse] returns; an infinite number is written [null]. *)
Fixpoint JSON_stringify (v : json) : jsstring :=
  match v with
  | JNull => str "null"
  | JBool true => str "true"
  | JBool false => str "false"
  | JNum (NFinite neg m e) => number_toString neg m e
  | JNum (NInfinity _) => str "null"
  | JStr s => JSON_quote s
  | JArr xs => 91 :: join_comma (map JSON_stringify xs) ++ [93]
  | JObj ps =>
      123 :: join_comma
               (map (fun kv => JSON_quote (fst kv) ++ 58 :: JSON_stringify (snd kv)) ps)
          ++ [125]
  end.

(** ** [normalizeUris] *)

(** [out[k] = v] on an object created by [{}]: the key [__proto__] goes
    to the setter inherited from [Object.prototype] and creates no own
    property; any other key is defined on the object. *)
Definition obj_assign (out : list (jsstring * json)) (k : jsstring) (v : json)
  : list (jsstring * json) :=
  if jsstring_eqb k (str "__proto__") then out else obj_define out k v.

Fixpoint normalizeUris (obj : json) : json :=
  match obj with
  | JStr s =>
      JStr (if startsWith s (str "file://") then normalizeFileUri s else s)
  | JArr xs => JArr (map normalizeUris xs)
  | JObj ps =>
      JObj (fold_left (fun out kv => obj_assign out (fst kv) (snd kv))
              (map (fun kv => (fst kv, normalizeUris (snd kv))) ps) [])
  | _ => obj
  end.

(** ** Effects *)

Inductive direction := ClientToServer | ServerToClient | ProxyToServer.

(** The signals the proxy installs a handler for. *)
Inductive handled_signal := SIGTERM | SIGINT.

(** What the child's [exit] event reports: the name of any signal. *)
Definition signal_name := String.string.

Inductive effect :=
  | WriteChildStdin (data : buffer)            (* child.stdin.write(data) *)
  | WriteStdout (data : buffer)                (* stdout.write(data) *)
  | LogWrite (d : direction) (message : json)  (* logStream.write(entry) *)
  | LogEnd                                     (* logStream.end(done) *)
  | ChildStdinEnd                              (* child.stdin.end() *)
  | ChildKill (sig : option handled_signal)    (* child.kill(sig), child.kill() *)
  | WriteStderr (text : String.string)         (* stderr.write(text) *)
  | Exit (code : Z)                            (* exit(code) *)
  | KillSelf (sig : signal_name).              (* process.kill(process.pid, sig) *)

(** The two scripts.  The csharp one opens the log stream only when
    [DEBUG] is set; the typescript one always logs. *)
Inductive variant := Csharp (debug : bool) | Typescript.

Definition logStream (v : variant) : bool :=
  match v with Csharp debug => debug | Typescript => true end.

(** [log(direction, message)].  The entry also carries the time of the
    call, which the model leaves out. *)
Definition log (v : variant) (d : direction) (message : json) : list effect :=
  if logStream v then [LogWrite d message] else [].

(** ** The message parser *)

(** [Buffer.concat([frame, body])] with the freshly computed header. *)
Definition encode_frame (body : buffer) : buffer :=
  Buffer_from_utf8
    (str "Content-Length: " ++ decimal (Z.of_nat (length body)) ++ [13; 10; 13; 10])
  ++ body.

(** The first half of the loop body: where the next frame ends. *)
Inductive located :=
  | NeedMore
  | Malformed (raw rest : buffer)
  | Framed (raw body rest : buffer).

Definition locate (buf : buffer) : located :=
  match indexOf buf CRLFCRLF with
  | None => NeedMore
  | Some sep =>
      let headerText := toString_ascii (subarray buf 0 sep) in
      match content_length_match headerText with
      | None =>
          Malformed (subarray buf 0 (sep + 4)) (subarray_from buf (sep + 4))
      | Some digits =>
          let contentLength := parseInt digits in
          let bodyStart := (sep + 4)%nat in
          let messageEnd := Z.of_nat bodyStart + contentLength in
          if Z.of_nat (length buf) <? messageEnd then NeedMore
          else
            Framed (subarray buf 0 (Z.to_nat messageEnd))
                   (subarray buf bodyStart (Z.to_nat messageEnd))
                   (subarray_from buf (Z.to_nat messageEnd))
      end
  end.

Section createMessageParser.

Variable v : variant.
Variable dir : direction.
Variable forward : buffer -> list effect.
Variable transform : option (json -> json).
(** The effects of the call and its result, [None] when it throws. *)
Variable intercept : option (json -> list effect * option bool).

(** The [catch] block. *)
Definition raw_fallback (raw body : buffer) : list effect :=
  log v dir (JObj [(str "_raw", JStr (toString_utf8 body))]) ++ forward raw.

Definition reencode (parsed : json) : list effect :=
  forward (encode_frame (Buffer_from_utf8 (JSON_stringify parsed))).

(** The [try] statement on a complete frame. *)
Definition handle_frame (raw body : buffer) : list effect :=
  match JSON_parse (toString_utf8 body) with
  | None => raw_fallback raw body
  | Some parsed0 =>
      let parsed :=
        match transform with Some f => f parsed0 | None => parsed0 end in
      log v dir parsed ++
      match intercept with
      | Some icpt =>
          match icpt parsed with
          | (eff, Some true) => eff
          | (eff, Some false) => eff ++ reencode parsed
          | (eff, None) => eff ++ raw_fallback raw body
          end
      | None => reencode parsed
      end
  end.

(** One turn of the [while (true)] loop: [None] is [break]. *)
Definition step (buf : buffer) : option (list effect * buffer) :=
  match locate buf with
  | NeedMore => None
  | Malformed raw rest => Some (forward raw, rest)
  | Framed raw body rest => Some (handle_frame raw body, rest)
  end.

(** The loop.  Every turn removes at least the four bytes of a
    separator from the buffer, so [length buf] turns are enough. *)
Fixpoint drain (fuel : nat) (buf : buffer) : list effect * buffer :=
  match fuel with
  | O => ([], buf)
  | S f =>
      match step buf with
      | None => ([], buf)
      | Some (eff, buf') =>
          let '(effs, buf'') := drain f buf' in (eff ++ effs, buf'')
      end
  end.

(** The function [createMessageParser] returns, with the buffer it
    closes over passed in and out. *)
Definition parser (buf chunk : buffer) : list effect * buffer :=
  let buf := buf ++ chunk in
  drain (length buf) buf.

(** The stream's [data] events: one call of the parser per chunk, in
    arrival order. *)
Fixpoint feed_chunks (buf : buffer) (chunks : list buffer)
  : list effect * buffer :=
  match chunks with
  | [] => ([], buf)
  | c :: cs =>
      let '(eff, buf') := parser buf c in
      let '(effs, buf'') := feed_chunks buf' cs in
      (eff ++ effs, buf'')
  end.

End createMessageParser.

(** ** Server to client method interception (csharp variant) *)

Definition INTERCEPTED_METHODS : list jsstring :=
  [str "client/registerCapability";
   str "window/workDoneProgress/create";
   str "window/workDoneProgress/cancel"].

Definition sendToServer (message : json) : list effect :=
  [WriteChildStdin (encode_frame (Buffer_from_utf8 (JSON_stringify message)))].

(** [msg.id] and [msg.method]: reading a property of [null] throws
    ([None]); the outcome is [undefined] ([Some None]) on a missing key and
    on every value that is not an object, since no prototype defines
    either name. *)
Definition get_member (msg : json) (k : jsstring) : option (option json) :=
  match msg with
  | JNull => None
  | JObj ps => Some (lookup k ps)
  | _ => Some None
  end.

(** [INTERCEPTED_METHODS.has(x)]. *)
Definition set_has (set : list jsstring) (x : option json) : bool :=
  match x with
  | Some (JStr s) => existsb (jsstring_eqb s) set
  | _ => false
  end.

Definition intercept (v : variant) (msg : json) : list effect * option bool :=
  match get_member msg (str "id") with
  | None => ([], None)
  | Some None => ([], Some false)
  | Some (Some id) =>
      match get_member msg (str "method") with
      | None => ([], None)
      | Some method =>
          if set_has INTERCEPTED_METHODS method then
            (log v ProxyToServer
               (JObj [(str "id", id);
                      (str "intercepted", match method with Some m => m | None => JNull end)])
             ++ sendToServer
                  (JObj [(str "jsonrpc", JStr (str "2.0")); (str "id", id);
                         (str "result", JNull)]),
             Some true)
          else ([], Some false)
      end
  end.

(** ** The proxy *)

Definition parseFromClient (v : variant) : buffer -> buffer -> list effect * buffer :=
  parser v ClientToServer (fun data => [WriteChildStdin data])
         (Some normalizeUris) None.

Definition parseFromServer (v : variant) : buffer -> buffer -> list effect * buffer :=
  parser v ServerToClient (fun data => [WriteStdout data]) None
         (match v with
          | Csharp _ => Some (intercept v)
          | Typescript => None
          end).

Record proxy := mk_proxy
  { from_client : buffer;   (* the buffer of [parseFromClient] *)
    from_server : buffer }. (* the buffer of [parseFromServer] *)

Inductive event :=
  | StdinData (chunk : buffer)
  | StdinEnd
  | ChildStdoutData (chunk : buffer)
  | ChildExit (code : option Z) (signal : option signal_name)
  | ChildError (message : String.string)
  | Signal (sig : handled_signal)
  | StdinError
  | StdoutError.

Arguments ChildError message%_string_scope.
Arguments WriteStderr text%_string_scope.

(** [done] of the child's [exit] handler. *)
Definition done (code : option Z) (signal : option signal_name) : list effect :=
  match signal with
  | Some sig => [KillSelf sig]
  | None => [Exit (match code with Some c => c | None => 1 end)]
  end.

(** The event handlers the scripts register. *)
Definition handle (v : variant) (p : proxy) (ev : event) : list effect * proxy :=
  match ev with
  | StdinData chunk =>
      let '(eff, b) := parseFromClient v (from_client p) chunk in
      (eff, mk_proxy b (from_server p))
  | StdinEnd => ([ChildStdinEnd], p)
  | ChildStdoutData chunk =>
      let '(eff, b) := parseFromServer v (from_server p) chunk in
      (eff, mk_proxy (from_client p) b)
  | ChildExit code signal =>
      ((if logStream v then [LogEnd] else []) ++ done code signal, p)
  | ChildError message =>
      ([WriteStderr (String.append "lsp-proxy: failed to start child: "
                       (String.append message (String.String (Ascii.ascii_of_nat 10) String.EmptyString)));
        Exit 1], p)
  | Signal sig => ([ChildKill (Some sig)], p)
  | StdinError => ([ChildKill None], p)
  | StdoutError => ([ChildKill None], p)
  end.

(** ** The log entry *)

(** The direction strings of the scripts; the arrow is U+2192. *)
Definition direction_text (d : direction) : jsstring :=
  match d with
  | ClientToServer => str "client" ++ [8594] ++ str "server"
  | ServerToClient => str "server" ++ [8594] ++ str "client"
  | ProxyToServer => str "proxy" ++ [8594] ++ str "server"
  end.

(** The string [log] passes to [logStream.write] for a message:
    [JSON.stringify({timestamp, direction, message}) + "\n"], with the
    reading of the clock, [new Date().toISOString()], as a parameter. *)
Definition log_entry (timestamp : jsstring) (d : direction) (message : json)
  : jsstring :=
  JSON_stringify
    (JObj [(str "timestamp", JStr timestamp);
           (str "direction", JStr (direction_text d));
           (str "message", message)])
  ++ [10].

(** The bytes that reach the log file: the stream encodes as UTF-8. *)
Definition log_bytes (timestamp : jsstring) (d : direction) (message : json)
  : buffer :=
  Buffer_from_utf8 (log_entry timestamp d message).

(** ** A session *)

(** The handlers run one event at a time, in the order of the events,
    for as long as the process lives. *)
Fixpoint run (v : variant) (p : proxy) (evs : list event) : list effect * proxy :=
  match evs with
  | [] => ([], p)
  | ev :: evs' =>
      let '(eff, p') := handle v p ev in
      let '(effs, p'') := run v p' evs' in
      (eff ++ effs, p'')
  end.

(** The bytes the [data] events of the two input streams deliver. *)
Definition stdin_bytes (evs : list event) : buffer :=
  flat_map (fun ev => match ev with StdinData chunk => chunk | _ => [] end) evs.

Definition child_stdout_bytes (evs : list event) : buffer :=
  flat_map (fun ev => match ev with ChildStdoutData chunk => chunk | _ => [] end) evs.

(** ** Notions of the specification used in the statements *)

(** A path ends with a slash. *)
Definition ends_with_slash (p : jsstring) : bool :=
  match p with
  | [] => false
  | _ => last p 0 =? SLASH
  end.

(** A unit of the normalized path against the unit it comes from. *)
Definition slashed (a b : Z) : Prop :=
  b = if a =? BACKSLASH then SLASH else a.

(** The backslash and trailing slash steps of [normalizeFileUri], on the
    path that is left once the prefix is gone. *)
Definition path_steps (path : jsstring) : jsstring :=
  let path := replace_backslashes path in
  if 1 <? Z.of_nat (length path) then replace_trailing_slashes path else path.

(** An effect that ends the proxy process. *)
Definition ends_proxy (e : effect) : bool :=
  match e with
  | Exit _ | KillSelf _ => true
  | _ => false
  end.

(** A request the proxy answers itself: a message with a defined [id]
    and a [method] of the intercepted set, as the pair of both. *)
Definition intercepted_request (msg : json) : option (json * jsstring) :=
  match msg with
  | JObj ps =>
      match lookup (str "id") ps, lookup (str "method") ps with
      | Some id, Some (JStr m) =>
          if existsb (jsstring_eqb m) INTERCEPTED_METHODS then Some (id, m)
          else None
      | _, _ => None
      end
  | _ => None
  end.

(** The frames written to the client and to the server. *)
Definition to_client (effs : list effect) : list buffer :=
  flat_map (fun e => match e with WriteStdout d => [d] | _ => [] end) effs.

Definition to_server (effs : list effect) : list buffer :=
  flat_map (fun e => match e with WriteChildStdin d => [d] | _ => [] end) effs.

Fixpoint buffer_eqb (a b : buffer) : bool :=
  match a, b with
  | [], [] => true
  | x :: a', y :: b' => Byte.eqb x y && buffer_eqb a' b'
  | _, _ => false
  end.

(** Well-formed UTF-8: decoding replaces nothing, that is, encoding the
    decoded text gives the bytes back. *)
Definition valid_utf8 (b : buffer) : bool :=
  buffer_eqb (Buffer_from_utf8 (toString_utf8 b)) b.

(** The canonical form of a finite double, and the numbers of a value. *)
Definition number_canonical (x : number) : Prop :=
  match x with
  | NFinite _ m e =>
      0 <= m < 2 ^ 53 /\ -1074 <= e <= 971 /\ (m < 2 ^ 52 -> e = -1074)
  | NInfinity _ => True
  end.

Definition number_finite (x : number) : bool :=
  match x with NFinite _ _ _ => true | NInfinity _ => false end.

(** Negative zero read as zero, which is all [===] sees of it. *)
Definition number_unsigned_zero (x : number) : number :=
  match x with
  | NFinite neg m e => if m =? 0 then NFinite false m e else x
  | _ => x
  end.

(** The units of a string are 16 bit numbers. *)
Definition unit_valid (c : Z) : Prop := 0 <= c < 65536.

Definition string_valid (s : jsstring) : Prop := Forall unit_valid s.

(** No surrogate stands alone. *)
Fixpoint well_formed_utf16 (s : jsstring) : bool :=
  match s with
  | [] => true
  | c :: t =>
      if is_high_surrogate c then
        match t with
        | d :: t' => is_low_surrogate d && well_formed_utf16 t'
        | [] => false
        end
      else
        negb (is_low_surrogate c) && (0 <=? c) && (c <? 65536)
        && well_formed_utf16 t
  end.

(** Property order: array indices in ascending order come first. *)
Definition key_before (k1 k2 : jsstring) : Prop :=
  match array_index k1, array_index k2 with
  | Some i, Some j => i < j
  | Some _, None => True
  | None, Some _ => False
  | None, None => True
  end.

(** The keys of an object: each once, in property order. *)
Fixpoint keys_ordered (ks : list jsstring) : Prop :=
  match ks with
  | [] => True
  | k :: t => Forall (key_before k) t /\ ~ In k t /\ keys_ordered t
  end.

(** The values [JSON.parse] can return. *)
Fixpoint json_valid (v : json) : Prop :=
  match v with
  | JNull | JBool _ => True
  | JNum n => number_canonical n
  | JStr s => string_valid s
  | JArr xs =>
      (fix all (l : list json) : Prop :=
         match l with
         | [] => True
         | x :: t => json_valid x /\ all t
         end) xs
  | JObj ps =>
      keys_ordered (map fst ps) /\
      (fix all (l : list (jsstring * json)) : Prop :=
         match l with
         | [] => True
         | kv :: t => (string_valid (fst kv) /\ json_valid (snd kv)) /\ all t
         end) ps
  end.

(** No number of the value is infinite. *)
Fixpoint json_finite (v : json) : bool :=
  match v with
  | JNum n => number_finite n
  | JArr xs => forallb json_finite xs
  | JObj ps => forallb (fun kv => json_finite (snd kv)) ps
  | _ => true
  end.

Fixpoint json_unsigned_zero (v : json) : json :=
  match v with
  | JNum n => JNum (number_unsigned_zero n)
  | JArr xs => JArr (map json_unsigned_zero xs)
  | JObj ps => JObj (map (fun kv => (fst kv, json_unsigned_zero (snd kv))) ps)
  | _ => v
  end.

(** Deep equality: the same structure, the same keys in the same order
    and the same scalars, the two zeros being equal as under [===]. *)
Definition deep_equal (a b : json) : Prop :=
  json_unsigned_zero a = json_unsigned_zero b.

(** The depth of recursion [JSON.parse] needs for the text of a value. *)
Fixpoint json_size (v : json) : nat :=
  match v with
  | JArr xs => S (list_sum (map (fun x => S (json_size x)) xs))
  | JObj ps => S (list_sum (map (fun kv => S (json_size (snd kv))) ps))
  | _ => 1
  end.

(** A call of [exit]. *)
Definition is_exit (e : effect) : bool :=
  match e with
  | Exit _ => true
  | _ => false
  end.

(** A string literal between double quotes, for the examples. *)
Definition quoted (s : String.string) : jsstring := 34 :: str s ++ [34].

Arguments quoted s%_string_scope.

(** ** Further notions of the statements and proofs *)

(** The reply the proxy writes to the server: the frame of
    [{jsonrpc: "2.0", id, result: null}]. *)
Definition reply_frame (id : json) : buffer :=
  encode_frame
    (Buffer_from_utf8
       (JSON_stringify
          (JObj [(str "jsonrpc", JStr (str "2.0")); (str "id", id);
                 (str "result", JNull)]))).

(** What the loop of [decimal] computes, whatever its accumulator. *)
Definition decimal_digits (n : Z) (ds : jsstring) : Prop :=
  digits_value ds = n /\
  forallb is_digit ds = true /\
  ds <> [] /\
  (0 < n -> hd 0 ds <> 48).

(** A string does not go on with a unit of the class [p]. *)
Definition stops (p : Z -> bool) (rest : jsstring) : Prop :=
  match rest with
  | [] => True
  | c :: _ => p c = false
  end.

Definition with_sign (neg : bool) (x : number) : number :=
  match x with
  | NFinite _ m e => NFinite neg m e
  | NInfinity _ => NInfinity neg
  end.

(** The decimal that [Number::toString] prints converts back. *)
Definition converts_back (m e : Z) (r : Z * Z) : Prop :=
  0 < fst r /\ number_of_decimal false (fst r) (snd r) = NFinite false m e.

(** A unit that can continue a number literal. *)
Definition number_char (c : Z) : bool :=
  is_digit c || (c =? 46) || (c =? 101) || (c =? 69).

(** A Unicode scalar value: a code point that is not a surrogate. *)
Definition scalar (cp : Z) : Prop :=
  0 <= cp < 55296 \/ 57344 <= cp < 1114112.

(** A canonical numeral: digits without a superfluous leading zero. *)
Definition numeral (k : jsstring) : Prop :=
  forallb is_digit k = true /\ k <> [] /\ (hd 0 k = 48 -> k = [48]).

(** A unit a JSON value can start with. *)
Definition value_head (c : Z) : bool :=
  (c =? 110) || (c =? 116) || (c =? 102) || (c =? 34) || (c =? 91)
  || (c =? 123) || (c =? 45) || is_digit c.

(** What the main statement says of one value. *)
Definition reads_back (v : json) : Prop :=
  json_valid v -> json_finite v = true ->
  forall fuel rest, (json_size v <= fuel)%nat -> stops number_char rest ->
  parse_value fuel (JSON_stringify v ++ rest) = POk (json_unsigned_zero v) rest.

Definition members_text (ps : list (jsstring * json)) : jsstring :=
  join_comma (map (fun kv => JSON_quote (fst kv) ++ 58 :: JSON_stringify (snd kv)) ps).

Definition is_ascii (c : Z) : bool := (0 <=? c) && (c <? 128).

(** The header line of a re-encoded frame. *)
Definition header_line (n : Z) : jsstring := str "Content-Length: " ++ decimal n.

Definition pending_ok (st : option utf8_pending) : Prop :=
  match st with
  | None => True
  | Some p =>
      0 <= u_cp p /\ 128 <= u_lower p /\ u_upper p <= 191 /\
      match u_needed p with
      | 1%nat => u_cp p < 2 ^ 15
      | 2%nat => u_cp p < 2 ^ 9
      | 3%nat => u_cp p < 2 ^ 3
      | _ => False
      end
  end.

Definition code_point_ok (cp : Z) : Prop := 0 <= cp < 2 ^ 21.

Definition member_valid (kv : jsstring * json) : Prop :=
  string_valid (fst kv) /\ json_valid (snd kv).

Definition object_ok (ps : list (jsstring * json)) : Prop :=
  keys_ordered (map fst ps) /\ Forall member_valid ps.

Definition value_ok (fuel : nat) : Prop :=
  forall s v rest, string_valid s -> parse_value fuel s = POk v rest ->
                   json_valid v /\ string_valid rest.

Definition elements_ok (fuel : nat) : Prop :=
  forall s vs rest, string_valid s -> parse_elements fuel s = POk vs rest ->
                    Forall json_valid vs /\ string_valid rest.

Definition members_ok (fuel : nat) : Prop :=
  forall s ms rest, string_valid s -> parse_members fuel s = POk ms rest ->
                    Forall member_valid ms /\ string_valid rest.

(** The members of an object other than one named [__proto__]. *)
Definition own_members (ps : list (jsstring * json)) : list (jsstring * json) :=
  filter (fun kv => negb (jsstring_eqb (fst kv) (str "__proto__"))) ps.

(** No string of the value starts with [file://] and no member of an
    object in it is named [__proto__]. *)
Fixpoint uri_free (v : json) : bool :=
  match v with
  | JStr s => negb (startsWith s (str "file://"))
  | JArr xs => forallb uri_free xs
  | JObj ps =>
      forallb (fun kv => negb (jsstring_eqb (fst kv) (str "__proto__"))
                         && uri_free (snd kv)) ps
  | _ => true
  end.

(** Every string of the value is a fixed point of [normalizeFileUri] and
    no member of an object in it is named [__proto__]. *)
Fixpoint uris_normal (v : json) : Prop :=
  match v with
  | JStr s => normalizeFileUri s = s
  | JArr xs =>
      (fix all (l : list json) : Prop :=
         match l with
         | [] => True
         | x :: t => uris_normal x /\ all t
         end) xs
  | JObj ps =>
      (fix all (l : list (jsstring * json)) : Prop :=
         match l with
         | [] => True
         | kv :: t => (fst kv <> str "__proto__" /\ uris_normal (snd kv)) /\ all t
         end) ps
  | _ => True
  end.

(** A write to the log stream, or its end. *)
Definition is_log (e : effect) : bool :=
  match e with
  | LogWrite _ _ | LogEnd => true
  | _ => false
  end.

(** The buffers an effect list writes, to either side. *)
Definition writes (effs : list effect) : nat :=
  (length (to_client effs) + length (to_server effs))%nat.

(** The frame the parser writes for a value. *)
Definition frame_of (v : json) : buffer :=
  encode_frame (Buffer_from_utf8 (JSON_stringify v)).

(** The value after the [transform] option of the parser. *)
Definition transformed (transform : option (json -> json)) (x : json) : json :=
  match transform with Some f => f x | None => x end.

(** Not a control character: no line feed, no carriage return. *)
Definition no_control (c : Z) : bool := 32 <=? c.

(** The messages of the log writes are values [JSON.stringify] takes. *)
Definition logs_valid (e : effect) : Prop :=
  match e with
  | LogWrite _ m => json_valid m
  | _ => True
  end.

(** The record of a log entry, as [JSON.parse] reads it. *)
Definition log_record (timestamp : jsstring) (d : direction) (message : json) : json :=
  JObj [(str "timestamp", JStr timestamp);
        (str "direction", JStr (direction_text d));
        (str "message", json_unsigned_zero message)].

(** Both parsers have taken every complete frame off their buffers. *)
Definition drained (p : proxy) : Prop :=
  locate (from_client p) = NeedMore /\ locate (from_server p) = NeedMore.

(** The effects other than those on the log stream. *)
Definition unlogged (effs : list effect) : list effect :=
  filter (fun e => negb (is_log e)) effs.

(** ** Frames used as examples *)

Definition registerCapability_frame : buffer :=
  bytes "Content-Length: 48" ++ CRLFCRLF
  ++ bytes "{" ++ [x22] ++ bytes "id" ++ [x22] ++ bytes ":" ++ [x22] ++ bytes "r1" ++ [x22]
  ++ bytes "," ++ [x22] ++ bytes "method" ++ [x22] ++ bytes ":"
  ++ [x22] ++ bytes "client/registerCapability" ++ [x22] ++ bytes "}".

Definition two_broken_frames : buffer :=
  bytes "Content-Length: 3" ++ CRLFCRLF ++ bytes "{x}"
  ++ bytes "content-length:1" ++ CRLFCRLF ++ bytes "?".

Definition number_frame : buffer :=
  bytes "Content-Length: 10" ++ CRLFCRLF
  ++ bytes "{" ++ [x22] ++ bytes "n" ++ [x22] ++ bytes ":1.50}".

Definition spaced_frame : buffer :=
  bytes "content-length: 12" ++ CRLFCRLF ++ bytes "[true, null]".


(** * Verified properties *)

(** ** The model against known behaviour of the platform *)

Example number_examples :
  number_of_decimal false 1 0 = NFinite false (2 ^ 52) (-52) /\
  number_of_decimal false 1 400 = NInfinity false /\
  number_of_decimal false 5 (-324) = NFinite false 1 (-1074) /\
  number_of_decimal false 9007199254740993 0 = NFinite false (2 ^ 52) 1 /\
  number_of_decimal false 9007199254740995 0 = NFinite false (2 ^ 52 + 2) 1 /\
  number_of_decimal false 17976931348623158 292 = NFinite false (2 ^ 53 - 1) 971 /\
  number_of_decimal false 17976931348623159 292 = NInfinity false /\
  number_of_decimal true 24703282292062327 (-340) = NFinite true 0 (-1074) /\
  number_of_decimal false 24703282292062328 (-340) = NFinite false 1 (-1074) /\
  number_toString false 1 (-1074) = str "5e-324" /\
  number_toString false 5960464477539062 24 = str "1e+23" /\
  number_toString true (2 ^ 53 - 1) 971 = str "-1.7976931348623157e+308" /\
  number_toString false 7205759403792794 (-56) = str "0.1" /\
  number_toString false (2 ^ 52) 17 = str "590295810358705700000" /\
  number_toString false (2 ^ 52) 18 = str "1.1805916207174113e+21" /\
  number_toString false (2 ^ 52) (-72) = str "9.5367431640625e-7".
Proof. vm_compute. repeat split; reflexivity. Qed.

Example JSON_parse_examples :
  JSON_parse (str " { " ++ quoted "b" ++ str " : [1, true,null ], " ++ quoted "1"
              ++ str ":" ++ quoted "x" ++ str ", " ++ quoted "b" ++ str ":{} } ")
  = Some (JObj [(str "1", JStr (str "x")); (str "b", JObj [])]) /\
  JSON_parse (str "[1,]") = None /\
  JSON_parse (str "01") = None /\
  JSON_stringify (JObj [(str "a", JArr [JNum (NFinite true 0 (-1074)); JStr [10; 55357]])])
  = str "{" ++ quoted "a" ++ str ":[0," ++ quoted "\n\ud83d" ++ str "]}".
Proof. vm_compute. repeat split; reflexivity. Qed.

Example normalizeUris_example :
  normalizeUris
    (JObj [(str "uri", JStr (str "file://C:\a\"));
           (str "__proto__", JNull);
           (str "n", JArr [JStr (str "http://x/")])])
  = JObj [(str "uri", JStr (str "file:///C:/a"));
          (str "n", JArr [JStr (str "http://x/")])].
Proof. vm_compute. reflexivity. Qed.

(** ** Buffers and the loop of the message parser *)

Lemma buffer_prefixb_app (p b c : buffer) :
  (length p <= length b)%nat ->
  buffer_prefixb p (b ++ c) = buffer_prefixb p b.
Proof.
  revert b; induction p as [|x p IH]; intros [|y b] Hl; simpl in *; try reflexivity; try lia.
  rewrite IH by lia. reflexivity.
Qed.

Lemma buffer_prefixb_length (p b : buffer) :
  buffer_prefixb p b = true -> (length p <= length b)%nat.
Proof.
  revert b; induction p as [|x p IH]; intros [|y b] H; simpl in *; try lia; try discriminate.
  apply andb_true_iff in H as [_ H]. apply IH in H. lia.
Qed.

Lemma buffer_prefixb_true_app (p b c : buffer) :
  buffer_prefixb p b = true -> buffer_prefixb p (b ++ c) = true.
Proof.
  intros H. rewrite buffer_prefixb_app; auto using buffer_prefixb_length.
Qed.

Lemma indexOf_bound (buf needle : buffer) (i : nat) :
  indexOf buf needle = Some i -> (i + length needle <= length buf)%nat.
Proof.
  revert i; induction buf as [|b buf IH]; intros i; simpl.
  - destruct (buffer_prefixb needle []) eqn:E; [|discriminate].
    intros [= <-]. apply buffer_prefixb_length in E. simpl in *. lia.
  - destruct (buffer_prefixb needle (b :: buf)) eqn:E.
    + intros [= <-]. apply buffer_prefixb_length in E. simpl in *. lia.
    + destruct (indexOf buf needle) as [j|] eqn:Ej; simpl; [|discriminate].
      intros [= <-]. specialize (IH j eq_refl). lia.
Qed.

Lemma indexOf_app (buf needle c : buffer) (i : nat) :
  indexOf buf needle = Some i -> indexOf (buf ++ c) needle = Some i.
Proof.
  revert i; induction buf as [|b buf IH]; intros i; simpl.
  - destruct (buffer_prefixb needle []) eqn:E; [|discriminate].
    intros [= <-]. destruct needle; [|discriminate].
    destruct c; reflexivity.
  - destruct (buffer_prefixb needle (b :: buf)) eqn:E.
    + intros [= <-].
      change (b :: buf ++ c) with ((b :: buf) ++ c).
      rewrite buffer_prefixb_true_app; auto.
    + destruct (indexOf buf needle) as [j|] eqn:Ej; simpl; [|discriminate].
      intros [= <-].
      change (b :: buf ++ c) with ((b :: buf) ++ c).
      rewrite buffer_prefixb_app, E.
      * rewrite (IH j eq_refl). reflexivity.
      * apply indexOf_bound in Ej. simpl. lia.
Qed.

Lemma subarray_app (buf c : buffer) (a b : nat) :
  (b <= length buf)%nat -> subarray (buf ++ c) a b = subarray buf a b.
Proof.
  intros H. unfold subarray.
  rewrite skipn_app, firstn_app.
  rewrite length_skipn.
  replace (b - a - (length buf - a))%nat with 0%nat by lia.
  simpl. rewrite app_nil_r. reflexivity.
Qed.

Lemma subarray_from_app (buf c : buffer) (a : nat) :
  (a <= length buf)%nat -> subarray_from (buf ++ c) a = subarray_from buf a ++ c.
Proof.
  intros H. unfold subarray_from. rewrite skipn_app.
  replace (a - length buf)%nat with 0%nat by lia. reflexivity.
Qed.

Lemma digits_value_acc_nonneg (ds : jsstring) (acc : Z) :
  0 <= acc -> forallb is_digit ds = true ->
  0 <= fold_left (fun a d => a * 10 + (d - 48)) ds acc.
Proof.
  revert acc; induction ds as [|d ds IH]; intros acc Ha H; simpl in *; auto.
  apply andb_true_iff in H as [Hd H]. unfold is_digit in Hd.
  apply IH; auto. lia.
Qed.

Lemma span_fst_forallb (p : Z -> bool) (s : jsstring) :
  forallb p (fst (span p s)) = true.
Proof.
  induction s as [|c t IH]; simpl; auto.
  destruct (p c) eqn:E; simpl; auto.
  destruct (span p t); simpl in *. rewrite E; auto.
Qed.

Lemma content_length_here_digits (s ds : jsstring) :
  content_length_here s = Some ds -> forallb is_digit ds = true.
Proof.
  unfold content_length_here.
  destruct (strip_prefix_ci _ s) as [r|]; [|discriminate].
  destruct (span is_space r) as [w r'].
  pose proof (span_fst_forallb is_digit r') as H.
  destruct (span is_digit r') as [[|d l] r'']; [discriminate|].
  intros [= <-]. exact H.
Qed.

Lemma content_length_match_digits (s ds : jsstring) :
  content_length_match s = Some ds -> forallb is_digit ds = true.
Proof.
  induction s as [|c t IH].
  - intros H; discriminate H.
  - simpl. destruct (content_length_here (c :: t)) eqn:E.
    + intros [= <-]. eauto using content_length_here_digits.
    + exact IH.
Qed.

Lemma parseInt_nonneg (s ds : jsstring) :
  content_length_match s = Some ds -> 0 <= parseInt ds.
Proof.
  intros H. apply content_length_match_digits in H.
  unfold parseInt, digits_value. apply digits_value_acc_nonneg; auto. lia.
Qed.

(** What [locate] returns, spelled out. *)
Lemma locate_Malformed (buf raw rest : buffer) :
  locate buf = Malformed raw rest ->
  exists sep,
    indexOf buf CRLFCRLF = Some sep /\
    content_length_match (toString_ascii (subarray buf 0 sep)) = None /\
    raw = subarray buf 0 (sep + 4) /\ rest = subarray_from buf (sep + 4).
Proof.
  unfold locate.
  destruct (indexOf buf CRLFCRLF) as [sep|] eqn:E; [|discriminate].
  destruct (content_length_match _) as [ds|] eqn:Em.
  - destruct (_ <? _); discriminate.
  - intros [= <- <-]. exists sep. auto.
Qed.

Lemma locate_Framed (buf raw body rest : buffer) :
  locate buf = Framed raw body rest ->
  exists sep ds,
    indexOf buf CRLFCRLF = Some sep /\
    content_length_match (toString_ascii (subarray buf 0 sep)) = Some ds /\
    let messageEnd := Z.to_nat (Z.of_nat (sep + 4) + parseInt ds) in
    (sep + 4 <= messageEnd <= length buf)%nat /\
    raw = subarray buf 0 messageEnd /\
    body = subarray buf (sep + 4) messageEnd /\
    rest = subarray_from buf messageEnd.
Proof.
  unfold locate.
  destruct (indexOf buf CRLFCRLF) as [sep|] eqn:E; [|discriminate].
  destruct (content_length_match _) as [ds|] eqn:Em; [|discriminate].
  destruct (_ <? _) eqn:El; [discriminate|].
  intros [= <- <- <-]. exists sep, ds. repeat split; auto.
  - apply parseInt_nonneg in Em. lia.
  - apply Z.ltb_ge in El. apply parseInt_nonneg in Em. lia.
Qed.

Lemma locate_app_Malformed (buf c raw rest : buffer) :
  locate buf = Malformed raw rest ->
  locate (buf ++ c) = Malformed raw (rest ++ c).
Proof.
  intros H. apply locate_Malformed in H as (sep & Hi & Hm & -> & ->).
  pose proof (indexOf_bound _ _ _ Hi) as Hb. simpl in Hb.
  unfold locate. rewrite (indexOf_app _ _ c _ Hi).
  rewrite subarray_app by lia. rewrite Hm.
  rewrite subarray_app, subarray_from_app by lia. reflexivity.
Qed.

Lemma locate_app_Framed (buf c raw body rest : buffer) :
  locate buf = Framed raw body rest ->
  locate (buf ++ c) = Framed raw body (rest ++ c).
Proof.
  intros H. apply locate_Framed in H as (sep & ds & Hi & Hm & Hb & -> & -> & ->).
  pose proof (indexOf_bound _ _ _ Hi) as Hs. simpl in Hs.
  pose proof (parseInt_nonneg _ _ Hm) as Hn.
  unfold locate. rewrite (indexOf_app _ _ c _ Hi).
  rewrite subarray_app by lia. rewrite Hm.
  rewrite length_app.
  destruct (_ <? _) eqn:El.
  - apply Z.ltb_lt in El. lia.
  - rewrite !subarray_app, subarray_from_app by lia. reflexivity.
Qed.

Lemma locate_shrinks (buf : buffer) :
  match locate buf with
  | NeedMore => True
  | Malformed raw rest => buf = raw ++ rest /\ (4 <= length raw)%nat
  | Framed raw body rest => buf = raw ++ rest /\ (4 <= length raw)%nat
  end.
Proof.
  destruct (locate buf) as [|raw rest|raw body rest] eqn:E; auto.
  - apply locate_Malformed in E as (sep & Hi & Hm & -> & ->).
    apply indexOf_bound in Hi. simpl in Hi.
    unfold subarray, subarray_from. simpl.
    rewrite Nat.sub_0_r, firstn_skipn, length_firstn. split; auto. lia.
  - apply locate_Framed in E as (sep & ds & Hi & Hm & Hb & -> & -> & ->).
    unfold subarray, subarray_from. simpl.
    rewrite Nat.sub_0_r, firstn_skipn, length_firstn. split; auto. lia.
Qed.

Section parser_facts.

Variable v : variant.
Variable dir : direction.
Variable forward : buffer -> list effect.
Variable transform : option (json -> json).
Variable intercept : option (json -> list effect * option bool).

Abbreviation pstep := (step v dir forward transform intercept).
Abbreviation pdrain := (drain v dir forward transform intercept).
Abbreviation pparser := (parser v dir forward transform intercept).

Lemma step_shrinks (buf buf' : buffer) (eff : list effect) :
  pstep buf = Some (eff, buf') -> (length buf' < length buf)%nat.
Proof.
  unfold step. pose proof (locate_shrinks buf) as H.
  destruct (locate buf) as [|raw rest|raw body rest]; [discriminate| |];
    intros [= <- <-]; destruct H as [-> H]; rewrite length_app; lia.
Qed.

Lemma step_app (buf buf' c : buffer) (eff : list effect) :
  pstep buf = Some (eff, buf') -> pstep (buf ++ c) = Some (eff, buf' ++ c).
Proof.
  unfold step.
  destruct (locate buf) as [|raw rest|raw body rest] eqn:E; [discriminate| |];
    intros [= <- <-].
  - rewrite (locate_app_Malformed _ c _ _ E). reflexivity.
  - rewrite (locate_app_Framed _ c _ _ _ E). reflexivity.
Qed.

(** The loop ends by [break], not by the bound on its turns. *)
Lemma drain_fuel (n m : nat) (buf : buffer) :
  (length buf <= n)%nat -> (length buf <= m)%nat -> pdrain n buf = pdrain m buf.
Proof.
  revert m buf; induction n as [|n IH]; intros m buf Hn Hm.
  - destruct buf; [|simpl in Hn; lia].
    destruct m; reflexivity.
  - destruct m as [|m].
    + destruct buf; [|simpl in Hm; lia]. reflexivity.
    + simpl. destruct (pstep buf) as [[eff b]|] eqn:E; auto.
      apply step_shrinks in E.
      rewrite (IH m b) by lia. reflexivity.
Qed.

Lemma drain_drained (n : nat) (buf : buffer) :
  (length buf <= n)%nat -> pstep (snd (pdrain n buf)) = None.
Proof.
  revert buf; induction n as [|n IH]; intros buf Hn.
  - destruct buf; [|simpl in Hn; lia]. reflexivity.
  - simpl. destruct (pstep buf) as [[eff b]|] eqn:E; auto.
    apply step_shrinks in E as Hs.
    specialize (IH b ltac:(lia)).
    destruct (pdrain n b) as [effs b']. exact IH.
Qed.

(** Bytes that arrive later do not change what the loop does with the
    frames that are already complete. *)
Lemma drain_app (n : nat) (buf c : buffer) :
  (length buf <= n)%nat ->
  forall m, (length (snd (pdrain n buf) ++ c) <= m)%nat ->
  forall k, (length (buf ++ c) <= k)%nat ->
  pdrain k (buf ++ c) =
    (fst (pdrain n buf) ++ fst (pdrain m (snd (pdrain n buf) ++ c)),
     snd (pdrain m (snd (pdrain n buf) ++ c))).
Proof.
  revert buf; induction n as [|n IH]; intros buf Hn m Hm k Hk.
  - destruct buf; [|simpl in Hn; lia]. simpl in *.
    rewrite (drain_fuel k m) by auto.
    destruct (pdrain m c); reflexivity.
  - simpl in *. destruct (pstep buf) as [[eff b]|] eqn:E.
    + pose proof (step_shrinks _ _ _ E) as Hs.
      pose proof (step_app _ _ c _ E) as Ea.
      destruct (pdrain n b) as [effs b'] eqn:Ed. simpl in *.
      destruct k as [|k].
      { rewrite length_app in Hk. lia. }
      simpl. rewrite Ea.
      assert (Hk' : (length (b ++ c) <= k)%nat).
      { rewrite length_app in *. lia. }
      specialize (IH b ltac:(lia) m).
      rewrite Ed in IH. simpl in IH.
      rewrite (IH Hm k Hk').
      destruct (pdrain m (b' ++ c)) as [e2 b2]. simpl.
      rewrite app_assoc. reflexivity.
    + simpl in *. rewrite (drain_fuel k m) by auto.
      destruct (pdrain m (buf ++ c)); reflexivity.
Qed.

Lemma parser_app (buf c1 c2 : buffer) :
  pparser buf (c1 ++ c2) =
    (fst (pparser buf c1) ++ fst (pparser (snd (pparser buf c1)) c2),
     snd (pparser (snd (pparser buf c1)) c2)).
Proof.
  unfold parser. rewrite app_assoc.
  apply drain_app; auto.
Qed.

End parser_facts.

Lemma indexOf_firstn (buf needle : buffer) (i : nat) :
  indexOf buf needle = Some i ->
  firstn (i + length needle) buf = firstn i buf ++ needle.
Proof.
  assert (Hp : forall p b, buffer_prefixb p b = true -> firstn (length p) b = p).
  { induction p as [|x p IH]; intros [|y b] H; simpl in *; try reflexivity; try discriminate.
    apply andb_true_iff in H as [Hx H]. apply Byte.byte_dec_bl in Hx. subst.
    rewrite IH; auto. }
  revert i; induction buf as [|b buf IH]; intros i; simpl.
  - destruct (buffer_prefixb needle []) eqn:E; [|discriminate].
    intros [= <-]. destruct needle; [reflexivity|discriminate].
  - destruct (buffer_prefixb needle (b :: buf)) eqn:E.
    + intros [= <-]. simpl. apply Hp in E. exact E.
    + destruct (indexOf buf needle) as [j|] eqn:Ej; simpl; [|discriminate].
      intros [= <-]. simpl. rewrite (IH j eq_refl). reflexivity.
Qed.

Section parser_claims.

Variable v : variant.
Variable dir : direction.
Variable forward : buffer -> list effect.
Variable transform : option (json -> json).
Variable intercept : option (json -> list effect * option bool).

Abbreviation pstep := (step v dir forward transform intercept).
Abbreviation pdrain := (drain v dir forward transform intercept).
Abbreviation pparser := (parser v dir forward transform intercept).
Abbreviation pfeed := (feed_chunks v dir forward transform intercept).

Lemma parser_drained (buf chunk : buffer) :
  pstep (snd (pparser buf chunk)) = None.
Proof. unfold parser. apply drain_drained. auto. Qed.

Lemma parser_nil (buf : buffer) :
  pstep buf = None -> pparser buf [] = ([], buf).
Proof.
  intros H. unfold parser. rewrite app_nil_r.
  destruct (length buf); simpl; auto. rewrite H. reflexivity.
Qed.

Lemma feed_chunks_concat (chunks : list buffer) (buf : buffer) :
  pstep buf = None ->
  pfeed buf chunks = pparser buf (concat chunks).
Proof.
  revert buf; induction chunks as [|c cs IH]; intros buf Hb; simpl.
  - rewrite parser_nil; auto.
  - rewrite parser_app.
    pose proof (parser_drained buf c) as Hd.
    destruct (pparser buf c) as [eff b]. simpl in *.
    rewrite (IH b Hd).
    destruct (pparser b (concat cs)); reflexivity.
Qed.

(** C2: chunk boundaries are invisible.  Feeding the chunks of any
    split of a byte sequence one at a time, to a parser of any direction
    and configuration that starts with its empty buffer, produces the
    same effects in the same order (every log entry of a decoded
    message, every forwarded or synthesized frame) and leaves the same
    pending buffer as feeding the whole sequence as one chunk; this
    holds in particular for one byte per chunk; and when the parser
    returns, its buffer holds no further complete frame or malformed
    segment. *)
Theorem C2_chunking_invariance :
  (forall chunks : list buffer,
      pfeed [] chunks = pparser [] (concat chunks)) /\
  (forall data : buffer,
      pfeed [] (map (fun b => [b]) data) = pparser [] data) /\
  (forall buf chunk : buffer, pstep (snd (pparser buf chunk)) = None).
Proof.
  split; [|split].
  - intros chunks. apply feed_chunks_concat. reflexivity.
  - intros data. rewrite feed_chunks_concat by reflexivity.
    f_equal. induction data as [|b data IH]; simpl; congruence.
  - apply parser_drained.
Qed.

Lemma parser_step (buf0 chunk buf' : buffer) (eff : list effect) :
  pstep (buf0 ++ chunk) = Some (eff, buf') ->
  pparser buf0 chunk =
    (eff ++ fst (pparser buf' []), snd (pparser buf' [])).
Proof.
  intros H. unfold parser. rewrite app_nil_r.
  pose proof (step_shrinks _ _ _ _ _ _ _ _ H) as Hs.
  destruct (length (buf0 ++ chunk)) as [|n] eqn:El; [lia|].
  simpl. rewrite H.
  rewrite (drain_fuel _ _ _ _ _ n (length buf')) by lia.
  destruct (pdrain (length buf') buf'); reflexivity.
Qed.

(** C6: a segment without [Content-Length].  When the first separator
    of the buffer stands at offset [sep] and the header pattern does not
    match the bytes before it, the parser forwards exactly these bytes
    and the four bytes of the separator, unchanged, and goes on with the
    bytes after the separator as if they had arrived alone; the parser
    is a total function, so the stream does not fail. *)
Theorem C6_missing_content_length (buf0 chunk : buffer) (sep : nat) :
  let buf := buf0 ++ chunk in
  let header := firstn sep buf in
  let rest := skipn (sep + 4) buf in
  indexOf buf CRLFCRLF = Some sep ->
  content_length_match (toString_ascii header) = None ->
  buf = header ++ CRLFCRLF ++ rest /\
  pparser buf0 chunk =
    (forward (header ++ CRLFCRLF) ++ fst (pparser rest []),
     snd (pparser rest [])).
Proof.
  intros buf header rest Hi Hm.
  pose proof (indexOf_firstn _ _ _ Hi) as Hf. simpl in Hf.
  split.
  - rewrite app_assoc. fold header in Hf. rewrite <- Hf.
    unfold rest. rewrite firstn_skipn. reflexivity.
  - apply parser_step. unfold step, locate. fold buf. rewrite Hi.
    unfold subarray. simpl. rewrite !Nat.sub_0_r. fold header. rewrite Hm.
    rewrite Hf. reflexivity.
Qed.

End parser_claims.

Lemma C6_missing_content_length_witness :
  let buf := bytes "X-Header: 1" ++ CRLFCRLF ++ bytes "Content-Le" in
  parser Typescript ServerToClient (fun d => [WriteStdout d]) None None
         (bytes "X-Head") (bytes "er: 1" ++ CRLFCRLF ++ bytes "Content-Le")
  = ([WriteStdout (bytes "X-Header: 1" ++ CRLFCRLF)], bytes "Content-Le").
Proof.
  intros buf.
  destruct (C6_missing_content_length Typescript ServerToClient
              (fun d => [WriteStdout d]) None None
              (bytes "X-Head") (bytes "er: 1" ++ CRLFCRLF ++ bytes "Content-Le") 11
              eq_refl eq_refl) as [_ H].
  exact H.
Defined.

(** ** URI normalization *)

Lemma all_slashes_repeat (t : jsstring) :
  all_slashes t = true -> t = repeat SLASH (length t).
Proof.
  induction t as [|c t IH]; simpl; auto.
  intros H. apply andb_true_iff in H as [Hc H].
  apply Z.eqb_eq in Hc. subst c. f_equal. auto.
Qed.

Lemma all_slashes_repeat_true (n : nat) : all_slashes (repeat SLASH n) = true.
Proof. induction n; simpl; auto. Qed.

(** The trailing-slash replacement removes the whole final run of
    slashes and nothing else. *)
Lemma replace_trailing_slashes_spec (p : jsstring) :
  exists n,
    p = replace_trailing_slashes p ++ repeat SLASH n /\
    ends_with_slash (replace_trailing_slashes p) = false.
Proof.
  induction p as [|c t (n & Ht & He)]; simpl.
  - exists 0%nat. auto.
  - destruct ((c =? SLASH) && all_slashes t) eqn:E.
    + apply andb_true_iff in E as [Hc Ha]. apply Z.eqb_eq in Hc. subst c.
      exists (S (length t)). simpl. split; auto.
      f_equal. apply all_slashes_repeat; auto.
    + exists n. split.
      * simpl. f_equal. exact Ht.
      * destruct (replace_trailing_slashes t) as [|d r] eqn:Er.
        -- simpl in Ht. rewrite Ht, all_slashes_repeat_true in E.
           rewrite andb_true_r in E. simpl. exact E.
        -- exact He.
Qed.

Lemma replace_backslashes_slashed (p : jsstring) :
  Forall2 slashed p (replace_backslashes p).
Proof.
  induction p as [|c t IH]; simpl; constructor; auto. reflexivity.
Qed.

(** C3: [normalizeFileUri] on the three inputs of the specification, and
    in general: for a string that starts with [file://], the path left
    after the prefix is removed has every backslash turned into a slash
    and every other unit kept, and the result is [file:///] followed by
    that path, without its whole trailing run of slashes exactly when the
    path is longer than one unit. *)
Theorem C3_normalizeFileUri :
  normalizeFileUri (str "file://C:\foo\bar\") = str "file:///C:/foo/bar" /\
  normalizeFileUri (str "file:///") = str "file:///" /\
  normalizeFileUri (str "file:///a/b") = str "file:///a/b" /\
  forall uri,
    startsWith uri (str "file://") = true ->
    exists path kept,
      Forall2 slashed (replace_file_prefix uri) path /\
      normalizeFileUri uri = str "file:///" ++ kept /\
      if 1 <? Z.of_nat (length path)
      then (exists n, path = kept ++ repeat SLASH n) /\ ends_with_slash kept = false
      else kept = path.
Proof.
  repeat split; try reflexivity.
  intros uri H. unfold normalizeFileUri. rewrite H. simpl negb. cbv iota.
  pose proof (replace_backslashes_slashed (replace_file_prefix uri)) as Hs.
  remember (replace_backslashes (replace_file_prefix uri)) as path eqn:Ep.
  exists path.
  destruct (1 <? Z.of_nat (length path)) eqn:El.
  - exists (replace_trailing_slashes path).
    split; [exact Hs|]. split; [reflexivity|].
    destruct (replace_trailing_slashes_spec path) as (n & Hn & He).
    split; eauto.
  - exists path. split; [exact Hs|]. split; reflexivity.
Qed.

Lemma C3_normalizeFileUri_witness :
  exists path kept,
    Forall2 slashed (replace_file_prefix (str "file:///D:\src\app\\")) path /\
    normalizeFileUri (str "file:///D:\src\app\\") = str "file:///" ++ kept /\
    kept = str "D:/src/app".
Proof.
  destruct C3_normalizeFileUri as (_ & _ & _ & H).
  destruct (H (str "file:///D:\src\app\\") eq_refl) as (path & kept & H1 & H2 & H3).
  exists path, kept. split; [exact H1|]. split; [exact H2|].
  apply (app_inv_head (str "file:///")). rewrite <- H2. reflexivity.
Defined.

Lemma strip_prefix_app (p s r : jsstring) :
  strip_prefix p s = Some r -> s = p ++ r.
Proof.
  revert s; induction p as [|c p IH]; intros s; simpl.
  - intros [= ->]. reflexivity.
  - destruct s as [|d s]; [discriminate|].
    destruct (c =? d) eqn:E; [|discriminate].
    apply Z.eqb_eq in E. subst d. intros H. f_equal. auto.
Qed.

(** C4, as the code has it: for a string that starts with [file://], the
    first step removes [file://] and at most one further slash (the
    pattern is [file:] followed by two or three slashes, the third one
    taken whenever it is there); the backslash and trailing slash steps
    run on what is left, and the result is that path behind [file:///]. *)
Theorem C4_prefix_two_or_three_slashes (uri : jsstring) :
  startsWith uri (str "file://") = true ->
  exists (k : nat) (rest : jsstring),
    (k = 0 \/ k = 1)%nat /\
    uri = str "file://" ++ repeat SLASH k ++ rest /\
    (k = 0%nat -> forall r, rest <> SLASH :: r) /\
    replace_file_prefix uri = rest /\
    normalizeFileUri uri = str "file:///" ++ path_steps rest.
Proof.
  intros H. unfold normalizeFileUri. rewrite H. simpl negb. cbv iota.
  unfold startsWith in H.
  destruct (strip_prefix (str "file://") uri) as [r|] eqn:E; [|discriminate].
  apply strip_prefix_app in E. subst uri.
  destruct r as [|c r].
  - exists 0%nat, []. repeat split; auto. intros _ r; discriminate.
  - destruct (Z.eq_dec c 47) as [->|Hc].
    + exists 1%nat, r. repeat split; auto. intros; discriminate.
    + exists 0%nat, (c :: r). repeat split; auto.
      * intros _ r' [= -> _]. apply Hc. reflexivity.
      * unfold replace_file_prefix. simpl.
        destruct c as [|p|p]; try reflexivity.
        do 6 (destruct p as [p|p|]; try reflexivity). exfalso; apply Hc; reflexivity.
      * unfold replace_file_prefix. simpl.
        destruct c as [|p|p]; try reflexivity.
        do 6 (destruct p as [p|p|]; try reflexivity). exfalso; apply Hc; reflexivity.
Qed.

Lemma C4_prefix_two_or_three_slashes_witness :
  exists (k : nat) (rest : jsstring),
    (k = 0 \/ k = 1)%nat /\
    str "file:////srv/x/" = str "file://" ++ repeat SLASH k ++ rest /\
    normalizeFileUri (str "file:////srv/x/") = str "file:///" ++ path_steps rest.
Proof.
  destruct (C4_prefix_two_or_three_slashes (str "file:////srv/x/") eq_refl)
    as (k & rest & Hk & Hu & _ & _ & Hn).
  exists k, rest. auto.
Defined.

(** C4 as the specification words it, with one or two slashes removed
    after [file://], fails on a URI with an authority-less drive path:
    [file://a] has no slash after [file://] at all. *)
Lemma C4_counterexample :
  startsWith (str "file://a") (str "file://") = true /\
  normalizeFileUri (str "file://a") = str "file:///a" /\
  ~ (exists (k : nat) (rest : jsstring),
        (k = 1 \/ k = 2)%nat /\
        str "file://a" = str "file://" ++ repeat SLASH k ++ rest).
Proof.
  split; [reflexivity|]. split; [reflexivity|].
  intros (k & rest & [-> | ->] & H); discriminate H.
Qed.

(** ** Lifecycle *)

(** C8: the exit status.  A failed spawn is reported on standard error
    and ends the proxy with status 1.  A child that exits without a
    signal ends the proxy, once the log stream (if there is one) has been
    ended, with the child's code, and with 1 when the code is absent.  A
    child that was killed by a signal makes the proxy send that signal to
    itself after the log stream has been ended, and [exit] is not
    called. *)
Theorem C8_exit_status (v : variant) (p : proxy) :
  (forall message, exists text,
      fst (handle v p (ChildError message)) = [WriteStderr text; Exit 1]) /\
  (forall code,
      fst (handle v p (ChildExit (Some code) None))
      = (if logStream v then [LogEnd] else []) ++ [Exit code]) /\
  fst (handle v p (ChildExit None None))
  = (if logStream v then [LogEnd] else []) ++ [Exit 1] /\
  (forall code sig,
      fst (handle v p (ChildExit code (Some sig)))
      = (if logStream v then [LogEnd] else []) ++ [KillSelf sig] /\
      existsb is_exit (fst (handle v p (ChildExit code (Some sig)))) = false).
Proof.
  repeat split; try reflexivity.
  - intros message. eexists. reflexivity.
  - cbn [handle fst done]. destruct (logStream v); reflexivity.
Qed.

Section parser_effects.

Variable P : effect -> Prop.
Variable v : variant.
Variable dir : direction.
Variable forward : buffer -> list effect.
Variable transform : option (json -> json).
Variable intercept : option (json -> list effect * option bool).

Hypothesis P_log : forall d m, P (LogWrite d m).
Hypothesis P_forward : forall data, Forall P (forward data).
Hypothesis P_intercept :
  forall icpt msg, intercept = Some icpt -> Forall P (fst (icpt msg)).

Lemma log_Forall d m : Forall P (log v d m).
Proof. unfold log. destruct (logStream v); auto. Qed.

Lemma handle_frame_Forall raw body :
  Forall P (handle_frame v dir forward transform intercept raw body).
Proof.
  unfold handle_frame, raw_fallback, reencode.
  destruct (JSON_parse _) as [parsed|].
  - apply Forall_app. split; [apply log_Forall|].
    destruct intercept as [icpt|] eqn:Ei; [|apply P_forward].
    pose proof (P_intercept icpt
                  (match transform with Some f => f parsed | None => parsed end)
                  eq_refl) as Hi.
    destruct (icpt _) as [eff [[|]|]]; simpl in Hi; auto;
      repeat (apply Forall_app; split); auto using log_Forall.
  - apply Forall_app. split; auto using log_Forall.
Qed.

Lemma drain_Forall n buf :
  Forall P (fst (drain v dir forward transform intercept n buf)).
Proof.
  revert buf; induction n as [|n IH]; intros buf; simpl; auto.
  unfold step.
  destruct (locate buf) as [|raw rest|raw body rest]; simpl; auto.
  - specialize (IH rest). destruct (drain _ _ _ _ _ n rest). simpl in *.
    apply Forall_app. split; auto.
  - specialize (IH rest). destruct (drain _ _ _ _ _ n rest). simpl in *.
    apply Forall_app. split; auto using handle_frame_Forall.
Qed.

End parser_effects.

Lemma intercept_effects (v : variant) (msg : json) :
  Forall (fun e => ends_proxy e = false) (fst (intercept v msg)).
Proof.
  unfold intercept.
  destruct (get_member msg (str "id")) as [[id|]|]; simpl; auto.
  destruct (get_member msg (str "method")) as [method|]; simpl; auto.
  destruct (set_has _ _); simpl; auto.
  apply Forall_app. split.
  - unfold log. destruct (logStream v); auto.
  - repeat constructor.
Qed.

Lemma parser_never_ends_proxy (v : variant) (buf chunk : buffer) :
  existsb ends_proxy (fst (parseFromClient v buf chunk)) = false /\
  existsb ends_proxy (fst (parseFromServer v buf chunk)) = false.
Proof.
  assert (HF : forall l, Forall (fun e => ends_proxy e = false) l ->
                         existsb ends_proxy l = false).
  { induction 1; simpl; auto. rewrite H; auto. }
  split; apply HF; unfold parseFromClient, parseFromServer, parser;
    apply drain_Forall; auto; try (intros; repeat constructor; fail);
    try discriminate.
  intros icpt msg Hi. destruct v; [|discriminate].
  injection Hi as <-. apply intercept_effects.
Qed.

(** C9, as the code has it: the handler of SIGTERM and SIGINT does
    nothing but send the same signal to the child and leaves the proxy
    running; the handlers that end the proxy are those of the child's
    [exit] event and of the child's [error] event, the latter with
    status 1. *)
Theorem C9_signal_forwarding (v : variant) (p : proxy) :
  (forall sig, handle v p (Signal sig) = ([ChildKill (Some sig)], p)) /\
  (forall ev,
      existsb ends_proxy (fst (handle v p ev)) = true ->
      (exists code signal, ev = ChildExit code signal) \/
      (exists message, ev = ChildError message /\
                       In (Exit 1) (fst (handle v p ev)))).
Proof.
  split; [reflexivity|].
  intros ev H. destruct ev; simpl in *; try discriminate; eauto.
  - destruct (parser_never_ends_proxy v (from_client p) chunk) as [Hc _].
    destruct (parseFromClient v (from_client p) chunk) as [eff b].
    simpl in *. congruence.
  - destruct (parser_never_ends_proxy v (from_server p) chunk) as [_ Hc].
    destruct (parseFromServer v (from_server p) chunk) as [eff b].
    simpl in *. congruence.
  - right. eexists. split; [reflexivity|]. right. left. reflexivity.
Qed.

Lemma C9_signal_forwarding_witness :
  exists code signal, ChildExit (Some 0) None = ChildExit code signal.
Proof.
  destruct (C9_signal_forwarding Typescript (mk_proxy [] [])) as [_ H].
  destruct (H (ChildExit (Some 0) None) eq_refl) as [H1 | (m & H1 & _)].
  - exact H1.
  - discriminate H1.
Defined.

(** C9 as the specification words it, with the child's [exit] handler as
    the only place where the proxy ends, fails: the handler of the child's
    [error] event calls [exit(1)], whether or not the child has exited. *)
Lemma C9_counterexample :
  existsb ends_proxy
    (fst (handle Typescript (mk_proxy [] []) (ChildError "kill EPERM"))) = true /\
  ~ (exists code signal, ChildError "kill EPERM" = ChildExit code signal).
Proof.
  split; [reflexivity|]. intros (code & signal & H). discriminate H.
Qed.

(** ** Interception *)

Lemma to_client_app a b : to_client (a ++ b) = to_client a ++ to_client b.
Proof. apply flat_map_app. Qed.

Lemma to_server_app a b : to_server (a ++ b) = to_server a ++ to_server b.
Proof. apply flat_map_app. Qed.

Lemma to_client_log v d m : to_client (log v d m) = [].
Proof. unfold log. destruct (logStream v); reflexivity. Qed.

Lemma to_server_log v d m : to_server (log v d m) = [].
Proof. unfold log. destruct (logStream v); reflexivity. Qed.



(** ** Unparseable bodies *)

Lemma firstn_split (A : Type) (l : list A) (a b : nat) :
  (a <= b)%nat -> firstn b l = firstn a l ++ firstn (b - a) (skipn a l).
Proof.
  intros H. rewrite <- (firstn_skipn a l) at 1.
  rewrite firstn_app, firstn_firstn, length_firstn.
  replace (Nat.min b a) with a by lia.
  destruct (Nat.le_gt_cases a (length l)) as [Hl|Hl].
  - replace (Nat.min a (length l)) with a by lia. reflexivity.
  - rewrite (skipn_all2 l) by lia. rewrite !firstn_nil. reflexivity.
Qed.

(** A complete frame is its header block, the separator and its body. *)
Lemma locate_Framed_parts (buf raw body rest : buffer) :
  locate buf = Framed raw body rest ->
  exists sep,
    indexOf buf CRLFCRLF = Some sep /\
    raw = firstn sep buf ++ CRLFCRLF ++ body /\
    buf = raw ++ rest.
Proof.
  intros H. pose proof (locate_shrinks buf) as Hs. rewrite H in Hs.
  destruct Hs as [Hs _].
  apply locate_Framed in H as (sep & ds & Hi & Hm & Hb & Hr & Hbody & Hrest).
  exists sep. split; [exact Hi|]. split; [|exact Hs].
  rewrite Hr, Hbody. unfold subarray. simpl. rewrite Nat.sub_0_r.
  rewrite (firstn_split _ buf (sep + 4)) by lia.
  pose proof (indexOf_firstn _ _ _ Hi) as Hf. simpl in Hf.
  rewrite Hf. rewrite <- app_assoc. reflexivity.
Qed.

Section unparseable.

Variable v : variant.
Variable dir : direction.
Variable forward : buffer -> list effect.
Variable transform : option (json -> json).
Variable intercept : option (json -> list effect * option bool).

Abbreviation ustep := (step v dir forward transform intercept).
Abbreviation uparser := (parser v dir forward transform intercept).

(** C5, as the code has it: let the parser (of any direction and
    configuration) reach a complete frame whose body, decoded as UTF-8
    with U+FFFD in place of every ill-formed sequence, is not a JSON
    text.  Then the log receives the record [{_raw: text}] with the
    decoded text of the body, the frame is forwarded with its original
    bytes (the header block as received, the separator, the body, so
    also the original [Content-Length]), and the parser goes on with the
    bytes after the frame. *)
Theorem C5_unparseable_body (buf0 chunk raw body rest : buffer) :
  locate (buf0 ++ chunk) = Framed raw body rest ->
  JSON_parse (toString_utf8 body) = None ->
  let fallback :=
    log v dir (JObj [(str "_raw", JStr (toString_utf8 body))]) ++ forward raw in
  (exists sep,
      indexOf (buf0 ++ chunk) CRLFCRLF = Some sep /\
      raw = firstn sep (buf0 ++ chunk) ++ CRLFCRLF ++ body /\
      buf0 ++ chunk = raw ++ rest) /\
  ustep (buf0 ++ chunk) = Some (fallback, rest) /\
  uparser buf0 chunk =
    (fallback ++ fst (uparser rest []), snd (uparser rest [])).
Proof.
  intros Hl Hp fallback.
  assert (Hs : ustep (buf0 ++ chunk) = Some (fallback, rest)).
  { unfold step. rewrite Hl. unfold handle_frame. rewrite Hp. reflexivity. }
  split; [apply locate_Framed_parts; exact Hl|].
  split; [exact Hs|]. apply parser_step. exact Hs.
Qed.

End unparseable.

Lemma C5_unparseable_body_witness :
  parser Typescript ClientToServer (fun d => [WriteChildStdin d])
         (Some normalizeUris) None [] two_broken_frames
  = ([LogWrite ClientToServer (JObj [(str "_raw", JStr (str "{x}"))]);
      WriteChildStdin (bytes "Content-Length: 3" ++ CRLFCRLF ++ bytes "{x}");
      LogWrite ClientToServer (JObj [(str "_raw", JStr (str "?"))]);
      WriteChildStdin (bytes "content-length:1" ++ CRLFCRLF ++ bytes "?")],
     []).
Proof.
  assert (Hl : locate ([] ++ two_broken_frames)
               = Framed (bytes "Content-Length: 3" ++ CRLFCRLF ++ bytes "{x}")
                        (bytes "{x}")
                        (bytes "content-length:1" ++ CRLFCRLF ++ bytes "?"))
    by (vm_compute; reflexivity).
  assert (Hp : JSON_parse (toString_utf8 (bytes "{x}")) = None)
    by (vm_compute; reflexivity).
  destruct (C5_unparseable_body Typescript ClientToServer
              (fun d => [WriteChildStdin d]) (Some normalizeUris) None
              _ _ _ _ _ Hl Hp) as (_ & _ & H).
  rewrite H. vm_compute. reflexivity.
Defined.

(** C5 as the specification words it covers bodies that are not valid
    UTF-8.  The decoder never fails, so a body whose ill-formed bytes
    stand inside a JSON string literal parses: the frame below carries the
    three bytes [22 FF 22], and the parser forwards a re-encoded frame of
    five body bytes, not the bytes it received. *)
Lemma C5_counterexample :
  let body := [x22; xff; x22] in
  let frame := bytes "Content-Length: 3" ++ CRLFCRLF ++ body in
  locate frame = Framed frame body [] /\
  valid_utf8 body = false /\
  step Typescript ServerToClient (fun d => [WriteStdout d]) None None frame
  = Some ([LogWrite ServerToClient (JStr [65533]);
           WriteStdout (bytes "Content-Length: 5" ++ CRLFCRLF
                        ++ [x22; xef; xbf; xbd; x22])], []) /\
  bytes "Content-Length: 5" ++ CRLFCRLF ++ [x22; xef; xbf; xbd; x22] <> frame.
Proof.
  repeat split; try (vm_compute; reflexivity). discriminate.
Qed.

(** ** Decimal numerals *)

Lemma digits_value_app (a b : jsstring) :
  digits_value (a ++ b) = digits_value a * 10 ^ Z.of_nat (length b) + digits_value b.
Proof.
  unfold digits_value.
  assert (H : forall b acc,
             fold_left (fun a d => a * 10 + (d - 48)) b acc
             = acc * 10 ^ Z.of_nat (length b)
               + fold_left (fun a d => a * 10 + (d - 48)) b 0).
  { clear. induction b as [|d b IH]; intros acc.
    - simpl. lia.
    - cbn [fold_left length]. rewrite IH, (IH (0 * 10 + (d - 48))).
      rewrite Nat2Z.inj_succ, Z.pow_succ_r by lia. ring. }
  rewrite fold_left_app. rewrite H. reflexivity.
Qed.

Lemma digits_value_snoc (a : jsstring) (d : Z) :
  digits_value (a ++ [d]) = digits_value a * 10 + (d - 48).
Proof.
  rewrite digits_value_app. cbn [length]. change (Z.of_nat 1) with 1.
  rewrite Z.pow_1_r. unfold digits_value. cbn [fold_left]. lia.
Qed.

Lemma digits_value_zeros (n : Z) : digits_value (zeros n) = 0.
Proof.
  unfold zeros. induction (Z.to_nat n) as [|k IH]; [reflexivity|].
  change (repeat 48 (S k)) with ([48] ++ repeat 48 k).
  rewrite digits_value_app, IH. reflexivity.
Qed.

Lemma zeros_digits (n : Z) : forallb is_digit (zeros n) = true.
Proof. unfold zeros. induction (Z.to_nat n); simpl; auto. Qed.

Lemma length_zeros (n : Z) : 0 <= n -> Z.of_nat (length (zeros n)) = n.
Proof. intros H. unfold zeros. rewrite repeat_length. lia. Qed.

Lemma digits_value_nonneg (ds : jsstring) :
  forallb is_digit ds = true -> 0 <= digits_value ds.
Proof. intros H. apply digits_value_acc_nonneg; auto. lia. Qed.

Lemma decimal_digits_small (n : Z) :
  0 <= n < 10 -> decimal_digits n [48 + n mod 10].
Proof.
  intros H. rewrite Z.mod_small by lia.
  unfold decimal_digits, digits_value, is_digit. cbn [fold_left forallb hd].
  split; [lia|]. split; [|split; [discriminate|lia]].
  apply andb_true_iff. split; [apply andb_true_iff; split; lia | reflexivity].
Qed.

Lemma decimal_digits_snoc (n : Z) (ds : jsstring) :
  10 <= n -> decimal_digits (n / 10) ds ->
  decimal_digits n (ds ++ [48 + n mod 10]).
Proof.
  intros Hn (H2 & H3 & H4 & H5). split; [|split; [|split]].
  - rewrite digits_value_snoc, H2. pose proof (Z.div_mod n 10). lia.
  - rewrite forallb_app, H3. cbn [forallb andb]. unfold is_digit.
    pose proof (Z.mod_pos_bound n 10).
    apply andb_true_iff. split; [apply andb_true_iff; split; lia | reflexivity].
  - destruct ds; discriminate.
  - intros _. destruct ds as [|d ds]; [congruence|]. cbn [app hd] in *.
    apply H5. apply Z.div_str_pos. lia.
Qed.

Lemma decimal_loop_S (f : nat) (n : Z) (acc : jsstring) :
  decimal_loop (S f) n acc
  = if n <? 10 then (48 + n mod 10) :: acc
    else decimal_loop f (n / 10) ((48 + n mod 10) :: acc).
Proof. reflexivity. Qed.

Lemma decimal_loop_spec (f : nat) :
  forall n acc, 0 <= n < 2 ^ Z.of_nat (S f) ->
  exists ds, decimal_loop (S f) n acc = ds ++ acc /\ decimal_digits n ds.
Proof.
  induction f as [|f IH]; intros n acc Hn; rewrite decimal_loop_S;
    destruct (n <? 10) eqn:E.
  - apply Z.ltb_lt in E. exists [48 + n mod 10].
    split; [reflexivity|]. apply decimal_digits_small. lia.
  - apply Z.ltb_ge in E. change (2 ^ Z.of_nat 1) with 2 in Hn. lia.
  - apply Z.ltb_lt in E. exists [48 + n mod 10].
    split; [reflexivity|]. apply decimal_digits_small. lia.
  - apply Z.ltb_ge in E.
    assert (Hd : 0 <= n / 10 < 2 ^ Z.of_nat (S f)).
    { rewrite (Nat2Z.inj_succ (S f)), Z.pow_succ_r in Hn by lia.
      split; [apply Z.div_pos; lia|].
      apply Z.div_lt_upper_bound; lia. }
    destruct (IH (n / 10) ((48 + n mod 10) :: acc) Hd) as (ds & H1 & H2).
    exists (ds ++ [48 + n mod 10]). split.
    + rewrite H1, <- app_assoc. reflexivity.
    + apply decimal_digits_snoc; auto.
Qed.

Lemma decimal_spec (n : Z) : 0 <= n -> decimal_digits n (decimal n).
Proof.
  intros Hn. unfold decimal.
  assert (Hb : 0 <= n < 2 ^ Z.of_nat (S (Z.to_nat (Z.log2 n)))).
  { split; auto. rewrite Nat2Z.inj_succ, Z2Nat.id by apply Z.log2_nonneg.
    destruct (Z.eq_dec n 0) as [->|Hz]; [simpl; lia|].
    apply Z.log2_spec. lia. }
  destruct (decimal_loop_spec _ n [] Hb) as (ds & H1 & H2).
  rewrite app_nil_r in H1. rewrite H1. exact H2.
Qed.

Lemma parseInt_decimal (n : Z) : 0 <= n -> parseInt (decimal n) = n.
Proof. intros H. apply decimal_spec. exact H. Qed.

(** ** Spans *)

Lemma span_app (p : Z -> bool) (a rest : jsstring) :
  forallb p a = true -> stops p rest -> span p (a ++ rest) = (a, rest).
Proof.
  intros Ha Hr. induction a as [|c a IH]; simpl in *.
  - destruct rest as [|d rest]; simpl in *; auto. rewrite Hr. reflexivity.
  - apply andb_true_iff in Ha as [Hc Ha]. rewrite Hc, (IH Ha). reflexivity.
Qed.

Lemma forallb_firstn (p : Z -> bool) (n : nat) (l : jsstring) :
  forallb p l = true -> forallb p (firstn n l) = true.
Proof.
  revert n; induction l as [|c l IH]; intros [|n] H; simpl in *; auto.
  apply andb_true_iff in H as [Hc H]. rewrite Hc. simpl. auto.
Qed.

Lemma forallb_skipn (p : Z -> bool) (n : nat) (l : jsstring) :
  forallb p l = true -> forallb p (skipn n l) = true.
Proof.
  revert n; induction l as [|c l IH]; intros [|n] H; simpl in *; auto.
  apply andb_true_iff in H as [Hc H]. auto.
Qed.

(** ** Conversion between decimals and doubles *)

Lemma div_cross (a q a' q' : Z) :
  0 < q -> 0 < q' -> a * q' = a' * q -> a / q = a' / q'.
Proof.
  intros Hq Hq' H.
  rewrite <- (Z.div_mul_cancel_r a q q') by lia.
  rewrite H. rewrite (Z.mul_comm q q').
  apply Z.div_mul_cancel_r; lia.
Qed.

Lemma mod_cross (a q a' q' : Z) :
  0 < q -> 0 < q' -> a * q' = a' * q ->
  (a mod q =? 0) = (a' mod q' =? 0).
Proof.
  intros Hq Hq' H.
  pose proof (div_cross a q a' q' Hq Hq' H) as Hd.
  pose proof (Z.div_mod a q ltac:(lia)) as Ha.
  pose proof (Z.div_mod a' q' ltac:(lia)) as Ha'.
  rewrite <- Hd in Ha'.
  destruct (Z.eqb_spec (a mod q) 0) as [E|E];
    destruct (Z.eqb_spec (a' mod q') 0) as [E'|E']; auto; exfalso.
  - apply E'. rewrite E in Ha. nia.
  - apply E. rewrite E' in Ha'. nia.
Qed.

(** The Number value depends on the rational only, not on the fraction
    that stands for it. *)
Lemma round_ratio_ext (neg : bool) (p q p' q' : Z) :
  0 < q -> 0 < q' -> p * q' = p' * q ->
  round_ratio neg p q = round_ratio neg p' q'.
Proof.
  intros Hq Hq' H. unfold round_ratio.
  assert (Ha : p * 2 ^ ROUND_SCALE * q' = p' * 2 ^ ROUND_SCALE * q) by nia.
  rewrite (div_cross _ _ _ _ Hq Hq' Ha), (mod_cross _ _ _ _ Hq Hq' Ha).
  reflexivity.
Qed.

Lemma round_ratio_sign (neg : bool) (p q : Z) :
  round_ratio neg p q = with_sign neg (round_ratio false p q).
Proof.
  unfold round_ratio.
  repeat match goal with
         | |- context [if ?b then _ else _] => destruct b
         end; reflexivity.
Qed.

Lemma number_of_decimal_sign (neg : bool) (d x : Z) :
  number_of_decimal neg d x = with_sign neg (number_of_decimal false d x).
Proof.
  unfold number_of_decimal. destruct (decimal_ratio d x).
  apply round_ratio_sign.
Qed.

Lemma shift_bounds (t : Z) :
  0 <= t ->
  let shift := Z.max (Z.log2 t - 52) 126 in
  126 <= shift /\
  0 <= t / 2 ^ shift < 2 ^ 53 /\
  (t / 2 ^ shift < 2 ^ 52 -> shift = 126) /\
  (126 < shift -> 2 ^ 52 <= t / 2 ^ shift).
Proof.
  intros Ht shift.
  assert (Hs : 126 <= shift) by (unfold shift; lia).
  assert (Hp : 0 < 2 ^ shift) by (apply Z.pow_pos_nonneg; lia).
  split; [exact Hs|].
  destruct (Z.eq_dec t 0) as [->|Hz].
  { rewrite Z.div_0_l by lia. unfold shift. simpl Z.log2.
    repeat split; try lia. }
  assert (Ht' : 0 < t) by lia.
  pose proof (Z.log2_spec t Ht') as [Hlo Hhi].
  pose proof (Z.log2_nonneg t) as Hl.
  assert (Hup : t < 2 ^ shift * 2 ^ 53).
  { rewrite <- Z.pow_add_r by lia.
    eapply Z.lt_le_trans; [exact Hhi|].
    apply Z.pow_le_mono_r; unfold shift; lia. }
  split; [|split].
  - split; [apply Z.div_pos; lia|].
    apply Z.div_lt_upper_bound; lia.
  - intros Hsmall. unfold shift in *.
    destruct (Z.max_spec (Z.log2 t - 52) 126) as [[H1 H2]|[H1 H2]]; [exact H2|].
    rewrite H2 in *. exfalso.
    assert (2 ^ (Z.log2 t - 52) * 2 ^ 52 <= t).
    { rewrite <- Z.pow_add_r by lia.
      replace (Z.log2 t - 52 + 52) with (Z.log2 t) by lia. exact Hlo. }
    assert (2 ^ 52 <= t / 2 ^ (Z.log2 t - 52)).
    { apply Z.div_le_lower_bound; lia. }
    lia.
  - intros Hbig. unfold shift in *.
    destruct (Z.max_spec (Z.log2 t - 52) 126) as [[H1 H2]|[H1 H2]]; [lia|].
    rewrite H2 in *.
    assert (2 ^ (Z.log2 t - 52) * 2 ^ 52 <= t).
    { rewrite <- Z.pow_add_r by lia.
      replace (Z.log2 t - 52 + 52) with (Z.log2 t) by lia. exact Hlo. }
    apply Z.div_le_lower_bound; lia.
Qed.

(** Rounding yields doubles in canonical form. *)
Lemma round_ratio_canonical (neg : bool) (p q : Z) :
  0 <= p -> 0 < q -> number_canonical (round_ratio neg p q).
Proof.
  intros Hp Hq. unfold round_ratio.
  set (t := p * 2 ^ ROUND_SCALE / q).
  assert (Ht : 0 <= t).
  { apply Z.div_pos; auto. apply Z.mul_nonneg_nonneg; auto.
    apply Z.pow_nonneg. lia. }
  destruct (shift_bounds t Ht) as (Hs & Hm & Hsub & Hnorm).
  set (shift := Z.max (Z.log2 t - 52) 126) in *.
  set (m0 := t / 2 ^ shift) in *.
  set (up := _ || _). clearbody up.
  unfold ROUND_SCALE.
  assert (P52 : 2 ^ 53 = 2 * 2 ^ 52) by reflexivity.
  assert (Q52 : 0 < 2 ^ 52) by reflexivity.
  destruct up.
  - destruct (m0 + 1 =? 2 ^ 53) eqn:E.
    + destruct (971 <? shift - 1200 + 1) eqn:E2; simpl; auto.
      apply Z.ltb_ge in E2. repeat split; try lia.
    + apply Z.eqb_neq in E.
      destruct (971 <? shift - 1200) eqn:E2; simpl; auto.
      apply Z.ltb_ge in E2. repeat split; try lia.
  - destruct (m0 =? 2 ^ 53) eqn:E.
    + apply Z.eqb_eq in E. lia.
    + destruct (971 <? shift - 1200) eqn:E2; simpl; auto.
      apply Z.ltb_ge in E2. repeat split; try lia.
Qed.

(** A double is the Number value of its own value. *)
Lemma round_ratio_exact (neg : bool) (p q m e : Z) :
  number_canonical (NFinite neg m e) -> 0 < m -> 0 < q ->
  p * 2 ^ ROUND_SCALE = m * 2 ^ (e + ROUND_SCALE) * q ->
  round_ratio neg p q = NFinite neg m e.
Proof.
  intros (Hm & He & Hsub) Hpos Hq H. unfold round_ratio. rewrite H.
  assert (HK : 126 <= e + ROUND_SCALE) by (unfold ROUND_SCALE; lia).
  assert (Hp2 : 0 < 2 ^ (e + ROUND_SCALE)) by (apply Z.pow_pos_nonneg; lia).
  rewrite Z.div_mul, Z.mod_mul by lia.
  assert (Hlog : Z.log2 (m * 2 ^ (e + ROUND_SCALE)) = e + ROUND_SCALE + Z.log2 m).
  { apply Z.log2_mul_pow2; lia. }
  rewrite Hlog.
  assert (Hshift : Z.max (e + ROUND_SCALE + Z.log2 m - 52) 126 = e + ROUND_SCALE).
  { destruct (Z_lt_le_dec m (2 ^ 52)) as [Hs|Hn].
    - specialize (Hsub Hs).
      assert (Z.log2 m < 52) by (apply Z.log2_lt_pow2; lia).
      unfold ROUND_SCALE in *. lia.
    - assert (Z.log2 m = 52).
      { apply Z.log2_unique; [lia|]. change (2 ^ (52 + 1)) with (2 ^ 53). lia. }
      lia. }
  rewrite Hshift.
  rewrite Z.div_mul, Z.mod_mul by lia.
  assert (Hhalf : 0 < 2 ^ (e + ROUND_SCALE - 1)) by (apply Z.pow_pos_nonneg; lia).
  assert (E1 : (2 ^ (e + ROUND_SCALE - 1) <? 0) = false) by (apply Z.ltb_ge; lia).
  assert (E2 : (0 =? 2 ^ (e + ROUND_SCALE - 1)) = false) by (apply Z.eqb_neq; lia).
  rewrite E1, E2. cbn [orb andb].
  assert (E3 : (m =? 2 ^ 53) = false) by (apply Z.eqb_neq; lia).
  rewrite E3.
  replace (e + ROUND_SCALE - ROUND_SCALE) with e by lia.
  assert (E4 : (971 <? e) = false) by (apply Z.ltb_ge; lia).
  rewrite E4. reflexivity.
Qed.

Lemma round_ratio_zero (neg : bool) (q : Z) :
  round_ratio neg 0 q = NFinite neg 0 (-1074).
Proof.
  unfold round_ratio. rewrite Z.mul_0_l, Zdiv_0_l, Zmod_0_l. reflexivity.
Qed.

Lemma decimal_ratio_pos (d x : Z) :
  0 <= d -> let '(p, q) := decimal_ratio d x in 0 <= p /\ 0 < q.
Proof.
  intros Hd. unfold decimal_ratio. destruct (0 <=? x) eqn:E.
  - apply Z.leb_le in E. split; [|lia].
    apply Z.mul_nonneg_nonneg; auto. apply Z.pow_nonneg. lia.
  - apply Z.leb_gt in E. split; auto. apply Z.pow_pos_nonneg; lia.
Qed.

Lemma number_of_decimal_canonical (neg : bool) (d x : Z) :
  0 <= d -> number_canonical (number_of_decimal neg d x).
Proof.
  intros Hd. unfold number_of_decimal.
  pose proof (decimal_ratio_pos d x Hd) as H.
  destruct (decimal_ratio d x) as [p q]. destruct H.
  apply round_ratio_canonical; auto.
Qed.

Lemma number_of_decimal_zero (neg : bool) (x : Z) :
  number_of_decimal neg 0 x = NFinite neg 0 (-1074).
Proof.
  unfold number_of_decimal, decimal_ratio.
  destruct (0 <=? x); rewrite ?Z.mul_0_l; apply round_ratio_zero.
Qed.

(** Two decimals of the same value have the same Number value. *)
Lemma number_of_decimal_ext (neg : bool) (d x d' x' : Z) :
  x <= x' -> d = d' * 10 ^ (x' - x) ->
  number_of_decimal neg d x = number_of_decimal neg d' x'.
Proof.
  intros Hx ->. unfold number_of_decimal, decimal_ratio.
  assert (P : forall n, 0 <= n -> 0 < 10 ^ n) by (intros; apply Z.pow_pos_nonneg; lia).
  destruct (0 <=? x) eqn:E; destruct (0 <=? x') eqn:E';
    try apply Z.leb_le in E; try apply Z.leb_le in E';
    try apply Z.leb_gt in E; try apply Z.leb_gt in E'; try lia.
  - f_equal. rewrite <- Z.mul_assoc, <- Z.pow_add_r by lia. f_equal. f_equal. lia.
  - apply round_ratio_ext; [first [lia | apply P; lia] .. |].
    rewrite Z.mul_1_r, <- !Z.mul_assoc. f_equal.
    replace (x' - x) with (x' + - x) by lia.
    rewrite Z.pow_add_r by lia. reflexivity.
  - apply round_ratio_ext; [first [lia | apply P; lia] .. |].
    rewrite <- !Z.mul_assoc. f_equal. rewrite <- Z.pow_add_r by lia.
    f_equal. lia.
Qed.

Lemma number_eqb_eq (a b : number) : number_eqb a b = true -> a = b.
Proof.
  destruct a as [s m e|s], b as [s' m' e'|s']; simpl; try discriminate.
  - intros H. apply andb_true_iff in H as [H He].
    apply andb_true_iff in H as [Hs Hm].
    apply Bool.eqb_prop in Hs. apply Z.eqb_eq in Hm, He. congruence.
  - intros H. apply Bool.eqb_prop in H. congruence.
Qed.

Lemma converts_back_pos (m e s x : Z) :
  0 < m -> 0 <= s ->
  number_eqb (number_of_decimal false s x) (NFinite false m e) = true ->
  converts_back m e (s, x).
Proof.
  intros Hm Hs H. apply number_eqb_eq in H. split; [|exact H].
  simpl. destruct (Z.eq_dec s 0) as [->|]; [|lia].
  rewrite number_of_decimal_zero in H. injection H as <- _. lia.
Qed.

Lemma shortest_try_correct (m e p q n k : Z) (r : Z * Z) :
  0 < m -> 0 <= p -> 0 < q ->
  shortest_try m e p q n k = Some r -> converts_back m e r.
Proof.
  intros Hm Hp Hq. unfold shortest_try.
  set (x := n - k).
  destruct (if 0 <=? x then (p, q * 10 ^ x) else (p * 10 ^ (- x), q))
    as [num den] eqn:End.
  assert (Hnd : 0 <= num /\ 0 < den).
  { destruct (0 <=? x) eqn:E; injection End as <- <-.
    - apply Z.leb_le in E. split; auto.
      apply Z.mul_pos_pos; auto. apply Z.pow_pos_nonneg; lia.
    - apply Z.leb_gt in E. split; auto.
      apply Z.mul_nonneg_nonneg; auto. apply Z.pow_nonneg. lia. }
  destruct Hnd as [Hnum Hden].
  assert (Hlo : 0 <= num / den) by (apply Z.div_pos; lia).
  destruct (number_eqb (number_of_decimal false (num / den) x) _) eqn:E1;
    destruct (number_eqb (number_of_decimal false (num / den + 1) x) _) eqn:E2;
    intros [= <-].
  - destruct (_ || _); apply converts_back_pos; auto; lia.
  - apply converts_back_pos; auto.
  - apply converts_back_pos; auto; lia.
Qed.

Lemma exact_decimal_correct (m e : Z) :
  number_canonical (NFinite false m e) -> 0 < m ->
  converts_back m e (exact_decimal m e).
Proof.
  intros Hc Hm. pose proof Hc as (Hm' & He & _).
  unfold exact_decimal, converts_back.
  destruct (0 <=? e) eqn:E; cbn [fst snd].
  - apply Z.leb_le in E. split.
    + apply Z.mul_pos_pos; auto. apply Z.pow_pos_nonneg; lia.
    + unfold number_of_decimal, decimal_ratio. simpl (0 <=? 0).
      apply round_ratio_exact; auto; [lia|].
      rewrite Z.pow_0_r, !Z.mul_1_r, Z.pow_add_r by (unfold ROUND_SCALE; lia).
      ring.
  - apply Z.leb_gt in E. split.
    + apply Z.mul_pos_pos; auto. apply Z.pow_pos_nonneg; lia.
    + unfold number_of_decimal, decimal_ratio.
      assert (E' : (0 <=? e) = false) by (apply Z.leb_gt; lia). rewrite E'.
      apply round_ratio_exact; auto; [apply Z.pow_pos_nonneg; lia|].
      change 10 with (2 * 5). rewrite Z.pow_mul_l.
      replace (2 ^ ROUND_SCALE) with (2 ^ (e + ROUND_SCALE) * 2 ^ (- e)).
      * ring.
      * rewrite <- Z.pow_add_r by (unfold ROUND_SCALE; lia). f_equal. lia.
Qed.

Lemma shortest_search_correct (fuel : nat) (m e p q n k : Z) :
  number_canonical (NFinite false m e) -> 0 < m -> 0 <= p -> 0 < q ->
  converts_back m e (shortest_search fuel m e p q n k).
Proof.
  intros Hc Hm Hp Hq. revert k.
  induction fuel as [|f IH]; intros k; simpl.
  - apply exact_decimal_correct; auto.
  - destruct (shortest_try m e p q n k) as [r|] eqn:E; auto.
    eapply shortest_try_correct; eauto.
Qed.

Lemma strip_zeros_correct (fuel : nat) (m e s x : Z) :
  converts_back m e (s, x) -> converts_back m e (strip_zeros fuel s x).
Proof.
  revert s x; induction fuel as [|f IH]; intros s x H; simpl; auto.
  destruct ((s mod 10 =? 0) && negb (s =? 0)) eqn:E; auto.
  apply andb_true_iff in E as [E _]. apply Z.eqb_eq in E.
  apply IH. destruct H as [Hs H]. simpl in *.
  pose proof (Z.div_mod s 10 ltac:(lia)) as Hd.
  split; simpl; [lia|].
  rewrite <- H. symmetry. apply number_of_decimal_ext; [lia|].
  replace (x + 1 - x) with 1 by lia. lia.
Qed.

Lemma shortest_decimal_correct (m e : Z) :
  number_canonical (NFinite false m e) -> 0 < m ->
  converts_back m e (shortest_decimal m e).
Proof.
  intros Hc Hm. unfold shortest_decimal.
  destruct (if 0 <=? e then (m * 2 ^ e, 1) else (m, 2 ^ (- e))) as [p q] eqn:Epq.
  assert (Hpq : 0 <= p /\ 0 < q).
  { destruct (0 <=? e) eqn:E; injection Epq as <- <-.
    - apply Z.leb_le in E. split; [|lia].
      apply Z.mul_nonneg_nonneg; [lia|]. apply Z.pow_nonneg. lia.
    - apply Z.leb_gt in E. split; [lia|]. apply Z.pow_pos_nonneg; lia. }
  destruct Hpq as [Hp Hq].
  pose proof (shortest_search_correct 17 m e p q
                (decimal_exponent 700 p q (-330)) 1 Hc Hm Hp Hq) as H.
  destruct (shortest_search _ _ _ _ _ _ _) as [s x].
  apply strip_zeros_correct. exact H.
Qed.

(** ** Number literals *)

Lemma stops_number_char (rest : jsstring) :
  stops number_char rest ->
  stops is_digit rest /\
  stops (fun c => c =? 46) rest /\
  stops (fun c => (c =? 101) || (c =? 69)) rest.
Proof.
  destruct rest as [|c rest]; simpl; auto.
  unfold number_char. intros H.
  apply orb_false_iff in H as [H H3]. apply orb_false_iff in H as [H H2].
  apply orb_false_iff in H as [H0 H1].
  rewrite H0, H1, H2, H3. auto.
Qed.

Lemma is_digit_bounds (c : Z) : is_digit c = true -> 48 <= c <= 57.
Proof. unfold is_digit. intros H. apply andb_true_iff in H. lia. Qed.

Lemma parse_integer_digits (ds rest : jsstring) :
  forallb is_digit ds = true -> ds <> [] -> hd 0 ds <> 48 ->
  stops is_digit rest ->
  parse_integer (ds ++ rest) = (ds, rest).
Proof.
  intros Hd Hn Hh Hr. destruct ds as [|c ds]; [congruence|].
  unfold parse_integer. cbn [app hd] in *.
  assert (E : (c =? 48) = false) by (apply Z.eqb_neq; exact Hh).
  rewrite E. change (c :: ds ++ rest) with ((c :: ds) ++ rest).
  apply span_app; auto.
Qed.

Lemma parse_fraction_some (fs rest : jsstring) :
  forallb is_digit fs = true -> fs <> [] -> stops is_digit rest ->
  parse_fraction (46 :: fs ++ rest) = Some (fs, rest).
Proof.
  intros Hd Hn Hr. unfold parse_fraction. rewrite Z.eqb_refl.
  rewrite span_app by auto. destruct fs; [congruence|reflexivity].
Qed.

Lemma parse_fraction_none (rest : jsstring) :
  stops (fun c => c =? 46) rest -> parse_fraction rest = Some ([], rest).
Proof.
  intros H. destruct rest as [|c rest]; [reflexivity|].
  unfold parse_fraction. simpl in H. rewrite H. reflexivity.
Qed.

Lemma parse_exponent_none (rest : jsstring) :
  stops (fun c => (c =? 101) || (c =? 69)) rest ->
  parse_exponent rest = Some (0, rest).
Proof.
  intros H. destruct rest as [|c rest]; [reflexivity|].
  unfold parse_exponent. simpl in H. rewrite H. reflexivity.
Qed.

Lemma parse_exponent_some (ex : Z) (rest : jsstring) :
  stops is_digit rest ->
  parse_exponent (101 :: (if ex <? 0 then 45 else 43) :: decimal (Z.abs ex) ++ rest)
  = Some (ex, rest).
Proof.
  intros Hr. unfold parse_exponent.
  change ((101 =? 101) || (101 =? 69)) with true. cbv iota.
  destruct (decimal_spec (Z.abs ex) (Z.abs_nonneg ex)) as (Hv & Hd & Hn & _).
  destruct (ex <? 0) eqn:E; unfold parse_sign.
  - apply Z.ltb_lt in E. change (45 =? 45) with true. cbv iota.
    rewrite span_app by auto.
    destruct (decimal (Z.abs ex)) as [|d ds] eqn:Ed; [congruence|].
    rewrite Hv. f_equal. f_equal. lia.
  - apply Z.ltb_ge in E. change (43 =? 45) with false.
    change (43 =? 43) with true. cbv iota.
    rewrite span_app by auto.
    destruct (decimal (Z.abs ex)) as [|d ds] eqn:Ed; [congruence|].
    rewrite Hv. f_equal. f_equal. lia.
Qed.

Lemma parse_number_assemble (neg : bool) (c : Z) (text tail rest ip fs s2 s3 : jsstring)
  (ex : Z) :
  text = c :: tail -> c <> 45 ->
  parse_integer text = (ip, s2) -> ip <> [] ->
  parse_fraction s2 = Some (fs, s3) ->
  parse_exponent s3 = Some (ex, rest) ->
  parse_number ((if neg then [45] else []) ++ text)
  = POk (number_of_decimal neg (digits_value (ip ++ fs))
           (ex - Z.of_nat (length fs))) rest.
Proof.
  intros Ht Hc Hi Hn Hf He. unfold parse_number.
  assert (E : (c =? 45) = false) by (apply Z.eqb_neq; exact Hc).
  destruct neg; cbn [app].
  - change (45 =? 45) with true. cbv iota. rewrite Hi.
    destruct ip; [congruence|]. rewrite Hf, He. reflexivity.
  - subst text. cbv iota beta. rewrite E, Hi.
    destruct ip; [congruence|]. rewrite Hf, He. reflexivity.
Qed.

Lemma firstn_nonempty (A : Type) (n : nat) (l : list A) :
  (0 < n)%nat -> l <> [] -> firstn n l <> [].
Proof. destruct n, l; simpl; try lia; congruence. Qed.

Lemma hd_firstn (n : nat) (l : jsstring) :
  (0 < n)%nat -> hd 0 (firstn n l) = hd 0 l.
Proof. destruct n, l; simpl; try lia; reflexivity. Qed.

Lemma skipn_nonempty (A : Type) (n : nat) (l : list A) :
  (n < length l)%nat -> skipn n l <> [].
Proof.
  intros H E. apply (f_equal (@length A)) in E.
  rewrite length_skipn in E. simpl in E. lia.
Qed.

Ltac lnorm := rewrite <- ?app_assoc; cbn [app]; rewrite <- ?app_assoc; cbn [app].

(** Reading back what [Number::toString] prints, in each of its
    notations. *)
Lemma parse_number_format (neg : bool) (s x : Z) (rest : jsstring) :
  0 < s -> stops number_char rest ->
  parse_number ((if neg then [45] else []) ++ format_decimal s x ++ rest)
  = POk (number_of_decimal neg s x) rest.
Proof.
  intros Hs Hr.
  destruct (stops_number_char rest Hr) as (Hr1 & Hr2 & Hr3).
  destruct (decimal_spec s ltac:(lia)) as (Hv & Hd & Hn & Hh).
  specialize (Hh Hs).
  unfold format_decimal.
  set (ds := decimal s) in *.
  set (k := Z.of_nat (length ds)).
  assert (Hk : 0 < k) by (unfold k; destruct ds; [congruence | simpl length; lia]).
  destruct ds as [|d ds'] eqn:Eds; [congruence|].
  assert (Hd0 : is_digit d = true).
  { cbn [forallb] in Hd. apply andb_true_iff in Hd. tauto. }
  assert (Hd45 : d <> 45) by (apply is_digit_bounds in Hd0; lia).
  cbn [hd] in Hh.
  destruct ((k <=? x + k) && (x + k <=? 21)) eqn:EA.
  { (* digits followed by zeros *)
    apply andb_true_iff in EA as [E1 E2]. apply Z.leb_le in E1, E2.
    replace (x + k - k) with x by lia.
    etransitivity.
    { eapply (parse_number_assemble neg d _ _ rest ((d :: ds') ++ zeros x) [] rest rest 0).
      - lnorm. reflexivity.
      - exact Hd45.
      - apply parse_integer_digits; auto.
        + rewrite forallb_app, Hd, zeros_digits. reflexivity.
        + discriminate.
      - discriminate.
      - apply parse_fraction_none; auto.
      - apply parse_exponent_none; auto. }
    rewrite app_nil_r, digits_value_app, Hv, digits_value_zeros.
    rewrite length_zeros by lia. cbn [length]. rewrite Z.sub_0_r, Z.add_0_r.
    f_equal. apply number_of_decimal_ext; [lia|]. f_equal. f_equal. lia. }
  destruct ((0 <? x + k) && (x + k <=? 21)) eqn:EB.
  { (* a decimal point inside the digits *)
    apply andb_true_iff in EB as [E1 E2]. apply Z.ltb_lt in E1. apply Z.leb_le in E2.
    apply andb_false_iff in EA.
    assert (Hx : x < 0) by (destruct EA as [E|E]; [apply Z.leb_gt in E | apply Z.leb_gt in E]; lia).
    set (n := Z.to_nat (x + k)).
    assert (Hn1 : (0 < n)%nat) by (unfold n; lia).
    assert (Hn2 : (n < length (d :: ds'))%nat) by (unfold n, k in *; lia).
    destruct (firstn n (d :: ds')) as [|c cs] eqn:Ef.
    { exfalso. revert Ef. apply firstn_nonempty; auto. }
    assert (Hc : c = d).
    { pose proof (hd_firstn n (d :: ds') Hn1) as H. rewrite Ef in H. exact H. }
    subst c.
    etransitivity.
    { eapply (parse_number_assemble neg d _ _ rest (d :: cs) (skipn n (d :: ds'))
                (46 :: skipn n (d :: ds') ++ rest) rest 0).
      - lnorm. reflexivity.
      - exact Hd45.
      - replace (((d :: cs) ++ 46 :: skipn n (d :: ds')) ++ rest)
          with ((d :: cs) ++ 46 :: skipn n (d :: ds') ++ rest) by (lnorm; reflexivity).
        apply parse_integer_digits; auto.
        + rewrite <- Ef. apply forallb_firstn. exact Hd.
        + discriminate.
        + reflexivity.
      - discriminate.
      - apply parse_fraction_some; auto.
        + apply forallb_skipn. exact Hd.
        + apply skipn_nonempty. exact Hn2.
      - apply parse_exponent_none; auto. }
    rewrite <- Ef, firstn_skipn, Hv. f_equal. f_equal.
    rewrite length_skipn. unfold n, k in *. lia. }
  destruct ((-6 <? x + k) && (x + k <=? 0)) eqn:EC.
  { (* zeros after the decimal point *)
    apply andb_true_iff in EC as [E1 E2]. apply Z.ltb_lt in E1. apply Z.leb_le in E2.
    etransitivity.
    { eapply (parse_number_assemble neg 48 _ _ rest [48] (zeros (- (x + k)) ++ d :: ds')
                (46 :: (zeros (- (x + k)) ++ d :: ds') ++ rest) rest 0).
      - lnorm. reflexivity.
      - lia.
      - lnorm. reflexivity.
      - discriminate.
      - apply parse_fraction_some; auto.
        + rewrite forallb_app, zeros_digits, Hd. reflexivity.
        + destruct (zeros _); discriminate.
      - apply parse_exponent_none; auto. }
    f_equal. f_equal.
    + rewrite app_assoc, digits_value_app, Hv.
      change ([48] ++ zeros (- (x + k))) with (zeros 1 ++ zeros (- (x + k))).
      rewrite digits_value_app, !digits_value_zeros. lia.
    + rewrite length_app, Nat2Z.inj_add, length_zeros by lia.
      fold k. lia. }
  (* exponent notation *)
  set (ex := x + k - 1).
  destruct ds' as [|d' ds''].
  - etransitivity.
    { eapply (parse_number_assemble neg d _ _ rest [d] []
                (101 :: (if ex <? 0 then 45 else 43) :: decimal (Z.abs ex) ++ rest)
                (101 :: (if ex <? 0 then 45 else 43) :: decimal (Z.abs ex) ++ rest)
                ex).
      - lnorm. reflexivity.
      - exact Hd45.
      - replace ((d :: 101 :: (if ex <? 0 then 45 else 43) :: decimal (Z.abs ex)) ++ rest)
          with ([d] ++ 101 :: (if ex <? 0 then 45 else 43) :: decimal (Z.abs ex) ++ rest)
          by (lnorm; reflexivity).
        apply parse_integer_digits; auto; try discriminate; try reflexivity;
          try (cbn [forallb]; rewrite Hd0; reflexivity).
      - discriminate.
      - apply parse_fraction_none. reflexivity.
      - apply parse_exponent_some; auto. }
    rewrite app_nil_r, Hv. f_equal. f_equal. unfold ex, k. cbn [length]. lia.
  - etransitivity.
    { eapply (parse_number_assemble neg d _ _ rest [d] (d' :: ds'')
                (46 :: (d' :: ds'') ++ 101 :: (if ex <? 0 then 45 else 43) :: decimal (Z.abs ex) ++ rest)
                (101 :: (if ex <? 0 then 45 else 43) :: decimal (Z.abs ex) ++ rest)
                ex).
      - lnorm. reflexivity.
      - exact Hd45.
      - replace ((d :: 46 :: (d' :: ds'') ++ 101 :: (if ex <? 0 then 45 else 43) :: decimal (Z.abs ex)) ++ rest)
          with ([d] ++ 46 :: (d' :: ds'') ++ 101 :: (if ex <? 0 then 45 else 43) :: decimal (Z.abs ex) ++ rest)
          by (lnorm; reflexivity).
        apply parse_integer_digits; auto; try discriminate; try reflexivity;
          try (cbn [forallb]; rewrite Hd0; reflexivity).
      - discriminate.
      - apply parse_fraction_some.
        + cbn [forallb] in Hd. apply andb_true_iff in Hd. tauto.
        + discriminate.
        + reflexivity.
      - apply parse_exponent_some; auto. }
    cbn [app]. rewrite Hv. f_equal. f_equal. unfold ex, k. cbn [length]. lia.
Qed.

Lemma format_decimal_head (s x : Z) :
  0 < s -> exists c t, format_decimal s x = c :: t /\ is_digit c = true.
Proof.
  intros Hs. destruct (decimal_spec s ltac:(lia)) as (_ & Hd & Hn & _).
  unfold format_decimal.
  destruct (decimal s) as [|d ds] eqn:Eds; [congruence|].
  assert (Hd0 : is_digit d = true).
  { cbn [forallb] in Hd. apply andb_true_iff in Hd. tauto. }
  set (k := Z.of_nat (length (d :: ds))).
  destruct ((k <=? x + k) && (x + k <=? 21)).
  { cbn [app]. eauto. }
  destruct ((0 <? x + k) && (x + k <=? 21)) eqn:EB.
  { apply andb_true_iff in EB as [E1 _]. apply Z.ltb_lt in E1.
    destruct (Z.to_nat (x + k)) as [|n] eqn:En; [lia|].
    cbn [firstn app]. eauto. }
  destruct ((-6 <? x + k) && (x + k <=? 0)).
  { exists 48. eexists. split; reflexivity. }
  destruct ds; eauto.
Qed.

Lemma number_toString_head (neg : bool) (m e : Z) :
  number_canonical (NFinite neg m e) ->
  exists c t, number_toString neg m e = c :: t /\
              ((c =? 45) || is_digit c) = true.
Proof.
  intros Hc. unfold number_toString.
  destruct (m =? 0) eqn:E.
  - exists 48. eexists. split; reflexivity.
  - apply Z.eqb_neq in E.
    assert (Hm : 0 < m) by (destruct Hc; lia).
    destruct (shortest_decimal_correct m e Hc Hm) as [Hs _].
    destruct (shortest_decimal m e) as [s x]. simpl in Hs.
    destruct neg; cbn [app].
    + exists 45. eexists. split; reflexivity.
    + destruct (format_decimal_head s x Hs) as (c & t & -> & Hd).
      exists c, t. split; [reflexivity|]. rewrite Hd. apply orb_true_r.
Qed.

(** [JSON.parse] reads a printed number back, up to the sign of zero. *)
Lemma parse_number_toString (neg : bool) (m e : Z) (rest : jsstring) :
  number_canonical (NFinite neg m e) -> stops number_char rest ->
  parse_number (number_toString neg m e ++ rest)
  = POk (number_unsigned_zero (NFinite neg m e)) rest.
Proof.
  intros Hc Hr. unfold number_toString, number_unsigned_zero.
  destruct (m =? 0) eqn:E.
  - apply Z.eqb_eq in E. subst m.
    assert (He : e = -1074) by (destruct Hc as (_ & _ & H); apply H; reflexivity).
    subst e.
    destruct (stops_number_char rest Hr) as (Hr1 & Hr2 & Hr3).
    pose proof (parse_number_assemble false 48 (str "0" ++ rest) rest rest
                  [48] [] rest rest 0) as H.
    change ((if false then [45] else []) ++ str "0" ++ rest)
      with (str "0" ++ rest) in H.
    rewrite H.
    + change (digits_value ([48] ++ [])) with 0.
      rewrite number_of_decimal_zero. reflexivity.
    + reflexivity.
    + lia.
    + reflexivity.
    + discriminate.
    + apply parse_fraction_none; auto.
    + apply parse_exponent_none; auto.
  - apply Z.eqb_neq in E.
    assert (Hm : 0 < m) by (destruct Hc; lia).
    destruct (shortest_decimal_correct m e Hc Hm) as [Hs Hv].
    destruct (shortest_decimal m e) as [s x]. simpl in Hs, Hv.
    rewrite <- app_assoc, parse_number_format by auto.
    rewrite number_of_decimal_sign, Hv. reflexivity.
Qed.

(** ** String literals *)

Lemma hex_value_digit (n : Z) : 0 <= n < 16 -> hex_value (hex_digit n) = Some n.
Proof.
  intros H. unfold hex_digit, hex_value.
  destruct (n <? 10) eqn:E.
  - apply Z.ltb_lt in E.
    assert (E1 : ((48 <=? 48 + n) && (48 + n <=? 57)) = true).
    { apply andb_true_iff. split; lia. }
    rewrite E1. f_equal. lia.
  - apply Z.ltb_ge in E.
    assert (E1 : ((48 <=? 87 + n) && (87 + n <=? 57)) = false).
    { apply andb_false_iff. right. lia. }
    assert (E2 : ((97 <=? 87 + n) && (87 + n <=? 102)) = true).
    { apply andb_true_iff. split; lia. }
    rewrite E1, E2. f_equal. lia.
Qed.

Lemma hex4_escape (c : Z) :
  unit_valid c ->
  hex4 (hex_digit (c / 4096)) (hex_digit ((c / 256) mod 16))
       (hex_digit ((c / 16) mod 16)) (hex_digit (c mod 16)) = Some c.
Proof.
  intros H. unfold unit_valid in H. unfold hex4.
  rewrite !hex_value_digit.
  - f_equal. Z.div_mod_to_equations. lia.
  - Z.div_mod_to_equations. lia.
  - Z.div_mod_to_equations. lia.
  - Z.div_mod_to_equations. lia.
  - Z.div_mod_to_equations. lia.
Qed.

Lemma parse_string_body_raw (c : Z) (t : jsstring) :
  32 <= c -> c <> 34 -> c <> 92 ->
  parse_string_body (c :: t)
  = match parse_string_body t with
    | POk r rest => POk (c :: r) rest
    | e => e
    end.
Proof.
  intros H1 H2 H3. cbn [parse_string_body].
  assert (E1 : (c =? 34) = false) by (apply Z.eqb_neq; auto).
  assert (E2 : (c =? 92) = false) by (apply Z.eqb_neq; auto).
  assert (E3 : (c <? 32) = false) by (apply Z.ltb_ge; auto).
  rewrite E1, E2, E3. reflexivity.
Qed.

Lemma parse_string_body_unicode (c : Z) (t : jsstring) :
  unit_valid c ->
  parse_string_body (unicode_escape c ++ t)
  = match parse_string_body t with
    | POk r rest => POk (c :: r) rest
    | e => e
    end.
Proof.
  intros H. unfold unicode_escape. cbn [app parse_string_body].
  change (92 =? 34) with false. change (92 =? 92) with true.
  change (117 =? 117) with true. cbv iota.
  rewrite hex4_escape by exact H. reflexivity.
Qed.

Lemma parse_string_body_short (x u : Z) (t : jsstring) :
  x <> 117 -> escape_value x = Some u ->
  parse_string_body (92 :: x :: t)
  = match parse_string_body t with
    | POk r rest => POk (u :: r) rest
    | e => e
    end.
Proof.
  intros Hx Hu. cbn [parse_string_body].
  change (92 =? 34) with false. change (92 =? 92) with true. cbv iota.
  assert (E : (x =? 117) = false) by (apply Z.eqb_neq; auto).
  rewrite E, Hu. reflexivity.
Qed.

Lemma surrogate_bounds (c : Z) :
  (is_high_surrogate c = true -> 55296 <= c <= 56319) /\
  (is_low_surrogate c = true -> 56320 <= c <= 57343).
Proof.
  unfold is_high_surrogate, is_low_surrogate.
  split; intros H; apply andb_true_iff in H; lia.
Qed.

(** The parser reads back the characters [JSON.stringify] writes between
    the quotes. *)
Lemma parse_quote_body (n : nat) :
  forall s rest, (length s <= n)%nat -> string_valid s ->
  parse_string_body (quote_body s ++ 34 :: rest) = POk s rest.
Proof.
  induction n as [|n IH]; intros s rest Hl Hv.
  - destruct s; [reflexivity | simpl in Hl; lia].
  - destruct s as [|c t]; [reflexivity|].
    inversion Hv as [|? ? Hc Ht]; subst.
    assert (IHt : parse_string_body (quote_body t ++ 34 :: rest) = POk t rest).
    { apply IH; auto. simpl in Hl. lia. }
    cbn [quote_body].
    destruct (c =? 8) eqn:E8.
    { apply Z.eqb_eq in E8. subst c. cbn [app].
      rewrite (parse_string_body_short 98 8), IHt; [reflexivity|lia|reflexivity]. }
    destruct (c =? 9) eqn:E9.
    { apply Z.eqb_eq in E9. subst c. cbn [app].
      rewrite (parse_string_body_short 116 9), IHt; [reflexivity|lia|reflexivity]. }
    destruct (c =? 10) eqn:E10.
    { apply Z.eqb_eq in E10. subst c. cbn [app].
      rewrite (parse_string_body_short 110 10), IHt; [reflexivity|lia|reflexivity]. }
    destruct (c =? 12) eqn:E12.
    { apply Z.eqb_eq in E12. subst c. cbn [app].
      rewrite (parse_string_body_short 102 12), IHt; [reflexivity|lia|reflexivity]. }
    destruct (c =? 13) eqn:E13.
    { apply Z.eqb_eq in E13. subst c. cbn [app].
      rewrite (parse_string_body_short 114 13), IHt; [reflexivity|lia|reflexivity]. }
    destruct (c =? 34) eqn:E34.
    { apply Z.eqb_eq in E34. subst c. cbn [app].
      rewrite (parse_string_body_short 34 34), IHt; [reflexivity|lia|reflexivity]. }
    destruct (c =? 92) eqn:E92.
    { apply Z.eqb_eq in E92. subst c. cbn [app].
      rewrite (parse_string_body_short 92 92), IHt; [reflexivity|lia|reflexivity]. }
    apply Z.eqb_neq in E34, E92.
    destruct (c <? 32) eqn:E32.
    { rewrite <- app_assoc, parse_string_body_unicode, IHt by auto. reflexivity. }
    apply Z.ltb_ge in E32.
    destruct (is_high_surrogate c) eqn:Eh.
    { destruct t as [|d t'].
      - rewrite parse_string_body_unicode by auto. reflexivity.
      - destruct (is_low_surrogate d) eqn:El.
        + inversion Ht as [|? ? Hd Ht']; subst.
          apply surrogate_bounds in El.
          cbn [app].
          rewrite parse_string_body_raw by lia.
          rewrite parse_string_body_raw by lia.
          rewrite IH; auto. simpl in Hl. lia.
        + rewrite <- app_assoc, parse_string_body_unicode, IHt by auto.
          reflexivity. }
    destruct (is_low_surrogate c) eqn:El.
    { rewrite <- app_assoc, parse_string_body_unicode, IHt by auto. reflexivity. }
    cbn [app]. rewrite parse_string_body_raw, IHt by lia. reflexivity.
Qed.

Lemma parse_JSON_quote (s rest : jsstring) :
  string_valid s ->
  parse_string_body (quote_body s ++ 34 :: rest) = POk s rest.
Proof. intros H. apply (parse_quote_body (length s)); auto. Qed.

(** ** UTF-8 *)

Lemma b2z_bounds (b : byte) : 0 <= b2z b < 256.
Proof.
  unfold b2z. pose proof (Byte.to_N_bounded b) as H. lia.
Qed.

Lemma b2z_z2b (x : Z) : 0 <= x < 256 -> b2z (z2b x) = x.
Proof.
  intros H. unfold b2z, z2b. rewrite Z.mod_small by lia.
  destruct (Byte.of_N (Z.to_N x)) as [b|] eqn:E.
  - apply Byte.to_of_N in E. rewrite E. lia.
  - apply Byte.of_N_None_iff in E. lia.
Qed.

Lemma z2b_b2z (b : byte) : z2b (b2z b) = b.
Proof.
  unfold z2b. rewrite Z.mod_small by apply b2z_bounds.
  unfold b2z. rewrite N2Z.id, Byte.of_to_N. reflexivity.
Qed.

Lemma surrogate_bounds_hi (c : Z) : is_high_surrogate c = true -> 55296 <= c <= 56319.
Proof. unfold is_high_surrogate. intros H. apply andb_true_iff in H. lia. Qed.

Lemma surrogate_bounds_lo (c : Z) : is_low_surrogate c = true -> 56320 <= c <= 57343.
Proof. unfold is_low_surrogate. intros H. apply andb_true_iff in H. lia. Qed.

Lemma utf8_lead_1 (b : Z) : b <= 127 -> utf8_lead b = ([b], None).
Proof.
  intros H. unfold utf8_lead.
  assert (E : (b <=? 127) = true) by (apply Z.leb_le; lia). rewrite E. reflexivity.
Qed.

Lemma utf8_lead_2 (b : Z) :
  194 <= b <= 223 -> utf8_lead b = ([], Some (mk_pending (b - 192) 1 128 191)).
Proof.
  intros H. unfold utf8_lead.
  assert (E : (b <=? 127) = false) by (apply Z.leb_gt; lia).
  assert (E1 : ((194 <=? b) && (b <=? 223)) = true) by (apply andb_true_iff; split; lia).
  rewrite E, E1. reflexivity.
Qed.

Lemma utf8_lead_3 (b : Z) :
  224 <= b <= 239 ->
  utf8_lead b = ([], Some (mk_pending (b - 224) 2
                             (if b =? 224 then 160 else 128)
                             (if b =? 237 then 159 else 191))).
Proof.
  intros H. unfold utf8_lead.
  assert (E : (b <=? 127) = false) by (apply Z.leb_gt; lia).
  assert (E1 : ((194 <=? b) && (b <=? 223)) = false) by (apply andb_false_iff; right; lia).
  assert (E2 : ((224 <=? b) && (b <=? 239)) = true) by (apply andb_true_iff; split; lia).
  rewrite E, E1, E2. reflexivity.
Qed.

Lemma utf8_lead_4 (b : Z) :
  240 <= b <= 244 ->
  utf8_lead b = ([], Some (mk_pending (b - 240) 3
                             (if b =? 240 then 144 else 128)
                             (if b =? 244 then 143 else 191))).
Proof.
  intros H. unfold utf8_lead.
  assert (E : (b <=? 127) = false) by (apply Z.leb_gt; lia).
  assert (E1 : ((194 <=? b) && (b <=? 223)) = false) by (apply andb_false_iff; right; lia).
  assert (E2 : ((224 <=? b) && (b <=? 239)) = false) by (apply andb_false_iff; right; lia).
  assert (E3 : ((240 <=? b) && (b <=? 244)) = true) by (apply andb_true_iff; split; lia).
  rewrite E, E1, E2, E3. reflexivity.
Qed.

(** The first byte of a sequence. *)
Lemma utf8_decode_lead (x : Z) (t : buffer) :
  0 <= x < 256 ->
  utf8_decode None (z2b x :: t)
  = fst (utf8_lead x) ++ utf8_decode (snd (utf8_lead x)) t.
Proof.
  intros H. cbn [utf8_decode]. rewrite b2z_z2b by exact H.
  destruct (utf8_lead x). reflexivity.
Qed.

(** A continuation byte in the range the pending sequence asks for. *)
Lemma utf8_decode_continue (p : utf8_pending) (x : Z) (t : buffer) :
  0 <= x < 256 -> u_lower p <= x <= u_upper p ->
  utf8_decode (Some p) (z2b x :: t)
  = match u_needed p with
    | S (S n) =>
        utf8_decode (Some (mk_pending (u_cp p * 64 + (x - 128)) (S n) 128 191)) t
    | _ => (u_cp p * 64 + (x - 128)) :: utf8_decode None t
    end.
Proof.
  intros H Hr. cbn [utf8_decode]. rewrite b2z_z2b by exact H.
  assert (E : ((u_lower p <=? x) && (x <=? u_upper p)) = true)
    by (apply andb_true_iff; split; lia).
  rewrite E. reflexivity.
Qed.

Ltac dm := Z.div_mod_to_equations; lia.

(** Decoding the encoding of a scalar value gives it back. *)
Lemma utf8_decode_code_point (cp : Z) (t : buffer) :
  scalar cp ->
  utf8_decode None (utf8_of_code_point cp ++ t) = cp :: utf8_decode None t.
Proof.
  intros Hs. unfold scalar in Hs. unfold utf8_of_code_point.
  destruct (cp <? 128) eqn:E1.
  { apply Z.ltb_lt in E1. cbn [app].
    rewrite utf8_decode_lead, utf8_lead_1 by lia. reflexivity. }
  apply Z.ltb_ge in E1.
  destruct (cp <? 2048) eqn:E2.
  { apply Z.ltb_lt in E2. cbn [app].
    rewrite utf8_decode_lead, utf8_lead_2 by dm. cbn [fst snd app].
    rewrite utf8_decode_continue; cbn [u_lower u_upper u_needed u_cp]; try dm.
    f_equal. dm. }
  apply Z.ltb_ge in E2.
  destruct (cp <? 65536) eqn:E3.
  { apply Z.ltb_lt in E3. cbn [app].
    rewrite utf8_decode_lead, utf8_lead_3 by dm. cbn [fst snd app].
    rewrite utf8_decode_continue; cbn [u_lower u_upper u_needed u_cp]; try dm.
    - rewrite utf8_decode_continue; cbn [u_lower u_upper u_needed u_cp]; try dm.
      f_equal. dm.
    - destruct (Z.eqb_spec (224 + cp / 4096) 224);
        destruct (Z.eqb_spec (224 + cp / 4096) 237); dm. }
  apply Z.ltb_ge in E3. cbn [app].
  rewrite utf8_decode_lead, utf8_lead_4 by dm. cbn [fst snd app].
  rewrite utf8_decode_continue; cbn [u_lower u_upper u_needed u_cp]; try dm.
  - rewrite utf8_decode_continue; cbn [u_lower u_upper u_needed u_cp]; try dm.
    rewrite utf8_decode_continue; cbn [u_lower u_upper u_needed u_cp]; try dm.
    f_equal. dm.
  - destruct (Z.eqb_spec (240 + cp / 262144) 240);
      destruct (Z.eqb_spec (240 + cp / 262144) 244); dm.
Qed.

Lemma toString_utf8_code_point (cp : Z) (t : buffer) :
  scalar cp ->
  toString_utf8 (utf8_of_code_point cp ++ t)
  = utf16_of_code_point cp ++ toString_utf8 t.
Proof.
  intros H. unfold toString_utf8. rewrite utf8_decode_code_point by exact H.
  reflexivity.
Qed.

Lemma utf8_roundtrip_fuel (n : nat) :
  forall s, (length s <= n)%nat -> well_formed_utf16 s = true ->
  toString_utf8 (Buffer_from_utf8 s) = s.
Proof.
  induction n as [|n IH]; intros s Hl Hw.
  - destruct s; [reflexivity | simpl in Hl; lia].
  - destruct s as [|c t]; [reflexivity|].
    cbn [well_formed_utf16 Buffer_from_utf8] in *.
    destruct (is_high_surrogate c) eqn:Eh.
    + destruct t as [|d t']; [discriminate|].
      apply andb_true_iff in Hw as [El Hw]. rewrite El.
      apply surrogate_bounds_hi in Eh. apply surrogate_bounds_lo in El.
      rewrite toString_utf8_code_point by (unfold scalar; lia).
      rewrite IH by (auto; simpl in Hl; lia).
      unfold utf16_of_code_point.
      assert (E : (65536 + (c - 55296) * 1024 + (d - 56320) <? 65536) = false)
        by (apply Z.ltb_ge; lia).
      rewrite E. cbn [app]. f_equal; [dm|]. f_equal. dm.
    + apply andb_true_iff in Hw as [Hw Ht].
      apply andb_true_iff in Hw as [Hw H2].
      apply andb_true_iff in Hw as [Hlow H1].
      apply negb_true_iff in Hlow. rewrite Hlow.
      apply Z.leb_le in H1. apply Z.ltb_lt in H2.
      assert (Hs : scalar c).
      { unfold scalar, is_high_surrogate, is_low_surrogate in *.
        apply andb_false_iff in Eh, Hlow. lia. }
      rewrite toString_utf8_code_point by exact Hs.
      rewrite IH by (auto; simpl in Hl; lia).
      unfold utf16_of_code_point.
      assert (E : (c <? 65536) = true) by (apply Z.ltb_lt; lia).
      rewrite E. reflexivity.
Qed.

(** [buf.toString("utf-8")] undoes [Buffer.from(s, "utf-8")] on text
    without lone surrogates. *)
Lemma utf8_roundtrip (s : jsstring) :
  well_formed_utf16 s = true -> toString_utf8 (Buffer_from_utf8 s) = s.
Proof. apply (utf8_roundtrip_fuel (length s)). auto. Qed.

(** ** Objects *)

Lemma jsstring_eqb_eq (a b : jsstring) : jsstring_eqb a b = true <-> a = b.
Proof.
  revert b; induction a as [|x a IH]; intros [|y b]; simpl; split; intros H;
    try reflexivity; try discriminate.
  - apply andb_true_iff in H as [H1 H2]. apply Z.eqb_eq in H1.
    apply IH in H2. congruence.
  - injection H as -> ->. rewrite Z.eqb_refl. apply IH. reflexivity.
Qed.

Lemma jsstring_eqb_refl (a : jsstring) : jsstring_eqb a a = true.
Proof. apply jsstring_eqb_eq. reflexivity. Qed.

Lemma jsstring_eqb_neq (a b : jsstring) : jsstring_eqb a b = false <-> a <> b.
Proof.
  split.
  - intros H E. apply jsstring_eqb_eq in E. congruence.
  - intros H. destruct (jsstring_eqb a b) eqn:E; auto.
    apply jsstring_eqb_eq in E. contradiction.
Qed.

Lemma has_key_In (k : jsstring) (ps : list (jsstring * json)) :
  has_key k ps = true <-> In k (map fst ps).
Proof.
  induction ps as [|[k' v] ps IH]; simpl.
  - split; [discriminate | tauto].
  - rewrite orb_true_iff, IH, jsstring_eqb_eq. split; intros [H|H]; auto.
Qed.

Lemma is_digit_bounds' (c : Z) : is_digit c = true -> 48 <= c <= 57.
Proof. unfold is_digit. intros H. apply andb_true_iff in H. lia. Qed.

Lemma digits_value_cons (c : Z) (t : jsstring) :
  digits_value (c :: t) = (c - 48) * 10 ^ Z.of_nat (length t) + digits_value t.
Proof.
  change (c :: t) with ([c] ++ t). rewrite digits_value_app.
  unfold digits_value at 1. cbn [fold_left]. lia.
Qed.

Lemma digits_value_pos (k : jsstring) :
  forallb is_digit k = true -> k <> [] -> hd 0 k <> 48 -> 0 < digits_value k.
Proof.
  intros Hd Hn Hh. destruct k as [|c t]; [congruence|].
  cbn [forallb hd] in *. apply andb_true_iff in Hd as [Hc Ht].
  rewrite digits_value_cons.
  pose proof (digits_value_nonneg t Ht).
  assert (0 < 10 ^ Z.of_nat (length t)) by (apply Z.pow_pos_nonneg; lia).
  unfold is_digit in Hc. apply andb_true_iff in Hc. nia.
Qed.

Lemma numeral_init (a : jsstring) (d : Z) :
  numeral (a ++ [d]) -> a <> [] -> numeral a /\ hd 0 a <> 48.
Proof.
  intros (Hd & _ & Hh) Hn. rewrite forallb_app in Hd.
  apply andb_true_iff in Hd as [Hd _].
  destruct a as [|c a]; [congruence|]. cbn [app hd] in *.
  assert (Hc : c <> 48).
  { intros ->. specialize (Hh eq_refl). injection Hh as Hh.
    destruct a; discriminate. }
  repeat split; auto. intros; contradiction.
Qed.

Lemma numeral_unique (a : jsstring) :
  forall b, numeral a -> numeral b -> digits_value a = digits_value b -> a = b.
Proof.
  induction a as [|d a IH] using rev_ind; intros b Ha Hb Hv.
  - destruct Ha as (_ & Ha & _). congruence.
  - destruct b as [|d' b _] using rev_ind.
    { destruct Hb as (_ & Hb & _). congruence. }
    rewrite !digits_value_snoc in Hv.
    assert (Hd : 48 <= d <= 57).
    { destruct Ha as (Ha & _). rewrite forallb_app in Ha.
      apply andb_true_iff in Ha as [_ Ha]. cbn [forallb] in Ha.
      apply andb_true_iff in Ha as [Ha _]. apply is_digit_bounds'. exact Ha. }
    assert (Hd' : 48 <= d' <= 57).
    { destruct Hb as (Hb & _). rewrite forallb_app in Hb.
      apply andb_true_iff in Hb as [_ Hb]. cbn [forallb] in Hb.
      apply andb_true_iff in Hb as [Hb _]. apply is_digit_bounds'. exact Hb. }
    assert (Hva : 0 <= digits_value a).
    { apply digits_value_nonneg. destruct Ha as (Ha & _).
      rewrite forallb_app in Ha. apply andb_true_iff in Ha. tauto. }
    assert (Hvb : 0 <= digits_value b).
    { apply digits_value_nonneg. destruct Hb as (Hb & _).
      rewrite forallb_app in Hb. apply andb_true_iff in Hb. tauto. }
    assert (d = d' /\ digits_value a = digits_value b) as [<- Hv'] by lia.
    f_equal.
    destruct a as [|c a]; destruct b as [|c' b]; auto.
    + exfalso. destruct (numeral_init (c' :: b) d Hb ltac:(discriminate)) as [[H1 [H2 _]] H3].
      pose proof (digits_value_pos _ H1 H2 H3).
      change (digits_value []) with 0 in Hv'. lia.
    + exfalso. destruct (numeral_init (c :: a) d Ha ltac:(discriminate)) as [[H1 [H2 _]] H3].
      pose proof (digits_value_pos _ H1 H2 H3).
      change (digits_value []) with 0 in Hv'. lia.
    + apply IH; auto.
      * apply (numeral_init _ d); auto. discriminate.
      * apply (numeral_init _ d); auto. discriminate.
Qed.

Lemma array_index_numeral (k : jsstring) (i : Z) :
  array_index k = Some i -> numeral k /\ digits_value k = i.
Proof.
  unfold array_index. destruct k as [|c t]; [discriminate|].
  destruct (forallb is_digit (c :: t) && _) eqn:E; [|discriminate].
  apply andb_true_iff in E as [Hd Hz].
  destruct (digits_value (c :: t) <? 4294967295); [|discriminate].
  intros [= <-]. split; [|reflexivity].
  repeat split; auto; [discriminate|].
  cbn [hd]. intros ->. apply orb_true_iff in Hz as [Hz|Hz]; [discriminate|].
  destruct t; [reflexivity|discriminate].
Qed.

(** Two keys with the same array index are the same key. *)
Lemma array_index_inj (k k' : jsstring) (i : Z) :
  array_index k = Some i -> array_index k' = Some i -> k = k'.
Proof.
  intros H H'. apply array_index_numeral in H as [Hn Hv], H' as [Hn' Hv'].
  apply numeral_unique; auto. congruence.
Qed.

Lemma insert_index_append (i : Z) (k : jsstring) (v : json)
  (ps : list (jsstring * json)) :
  array_index k = Some i ->
  Forall (fun k' => key_before k' k) (map fst ps) ->
  insert_index i k v ps = ps ++ [(k, v)].
Proof.
  intros Hk. induction ps as [|[k' v'] ps IH]; intros H; [reflexivity|].
  cbn [map fst] in H. inversion H as [|? ? Hb Hrest]; subst.
  cbn [insert_index]. unfold key_before in Hb. rewrite Hk in Hb.
  destruct (array_index k') as [j|]; [|contradiction].
  assert (E : (j <? i) = true) by (apply Z.ltb_lt; exact Hb).
  rewrite E, IH by exact Hrest. reflexivity.
Qed.

(** Defining a new key that comes after all the keys of the object
    appends it. *)
Lemma obj_define_append (ps : list (jsstring * json)) (k : jsstring) (v : json) :
  ~ In k (map fst ps) ->
  Forall (fun k' => key_before k' k) (map fst ps) ->
  obj_define ps k v = ps ++ [(k, v)].
Proof.
  intros Hn Hb. unfold obj_define.
  destruct (has_key k ps) eqn:E.
  - apply has_key_In in E. contradiction.
  - destruct (array_index k) as [i|] eqn:Ei; [|reflexivity].
    apply insert_index_append; auto.
Qed.

Lemma keys_ordered_snoc (ks : list jsstring) (k : jsstring) :
  keys_ordered (ks ++ [k]) ->
  ~ In k ks /\ Forall (fun k' => key_before k' k) ks.
Proof.
  induction ks as [|a ks IH]; cbn [app keys_ordered].
  - intros _. split; [tauto | constructor].
  - intros (Hf & Hn & Ho). destruct (IH Ho) as [H1 H2].
    apply Forall_app in Hf as [_ Hf]. inversion Hf; subst.
    split.
    + intros [->|H]; [|contradiction]. apply Hn. apply in_or_app. right. left. reflexivity.
    + constructor; auto.
Qed.

Lemma keys_ordered_app_l (a b : list jsstring) :
  keys_ordered (a ++ b) -> keys_ordered a.
Proof.
  induction a as [|k a IH]; cbn [app keys_ordered]; auto.
  intros (Hf & Hn & Ho). apply Forall_app in Hf as [Hf _].
  repeat split; auto. intros H. apply Hn. apply in_or_app. auto.
Qed.

(** Members that are already in property order define the object they
    list. *)
Lemma fold_obj_define (ms acc : list (jsstring * json)) :
  keys_ordered (map fst (acc ++ ms)) ->
  fold_left (fun o kv => obj_define o (fst kv) (snd kv)) ms acc = acc ++ ms.
Proof.
  revert acc; induction ms as [|[k v] ms IH]; intros acc H.
  - rewrite app_nil_r. reflexivity.
  - cbn [fold_left fst snd].
    assert (Hk : keys_ordered (map fst acc ++ [k])).
    { rewrite map_app in H. cbn [map fst] in H.
      change (k :: map fst ms) with ([k] ++ map fst ms) in H.
      rewrite app_assoc in H. apply keys_ordered_app_l in H. exact H. }
    apply keys_ordered_snoc in Hk as [Hn Hb].
    rewrite obj_define_append by auto.
    rewrite IH.
    + rewrite <- app_assoc. reflexivity.
    + rewrite <- app_assoc. exact H.
Qed.

Lemma object_of_members_ordered (ms : list (jsstring * json)) :
  keys_ordered (map fst ms) -> object_of_members ms = JObj ms.
Proof.
  intros H. unfold object_of_members. rewrite fold_obj_define; auto.
Qed.

(** ** [JSON.parse] after [JSON.stringify] *)

(** Induction on values, through the lists of arrays and objects. *)
Lemma json_induction (P : json -> Prop) :
  P JNull -> (forall b, P (JBool b)) -> (forall n, P (JNum n)) ->
  (forall s, P (JStr s)) ->
  (forall xs, Forall P xs -> P (JArr xs)) ->
  (forall ps, Forall (fun kv => P (snd kv)) ps -> P (JObj ps)) ->
  forall v, P v.
Proof.
  intros Hnull Hbool Hnum Hstr Harr Hobj.
  fix IH 1. intros [ |b|n|s|xs|ps].
  - exact Hnull.
  - apply Hbool.
  - apply Hnum.
  - apply Hstr.
  - apply Harr. induction xs as [|x xs IHxs]; constructor; [apply IH | exact IHxs].
  - apply Hobj. induction ps as [|[k v] ps IHps]; constructor; [apply IH | exact IHps].
Qed.

Lemma value_head_not_ws (c : Z) : value_head c = true -> is_ws c = false.
Proof.
  unfold value_head, is_ws, is_digit. intros H.
  repeat (apply orb_true_iff in H as [H|H]);
    try (apply Z.eqb_eq in H; subst c; reflexivity).
  apply andb_true_iff in H as [H1 H2]. apply Z.leb_le in H1, H2.
  repeat (apply orb_false_iff; split); apply Z.eqb_neq; lia.
Qed.

Lemma value_head_neq (c d : Z) :
  value_head c = true -> d = 93 \/ d = 125 \/ d = 44 \/ d = 58 ->
  (c =? d) = false.
Proof.
  unfold value_head, is_digit. intros H Hd. apply Z.eqb_neq.
  repeat (apply orb_true_iff in H as [H|H]);
    try (apply Z.eqb_eq in H; subst c; lia).
  apply andb_true_iff in H as [H1 H2]. apply Z.leb_le in H1, H2. lia.
Qed.

Lemma skip_ws_head (c : Z) (t : jsstring) :
  is_ws c = false -> skip_ws (c :: t) = c :: t.
Proof. intros H. cbn [skip_ws]. rewrite H. reflexivity. Qed.

Lemma expect_head (c : Z) (t : jsstring) :
  is_ws c = false -> expect c (c :: t) = Some t.
Proof.
  intros H. unfold expect. rewrite skip_ws_head by exact H.
  rewrite Z.eqb_refl. reflexivity.
Qed.

Lemma expect_other (c d : Z) (t : jsstring) :
  is_ws d = false -> (d =? c) = false -> expect c (d :: t) = None.
Proof.
  intros H E. unfold expect. rewrite skip_ws_head by exact H.
  rewrite E. reflexivity.
Qed.

Lemma JSON_stringify_head (v : json) :
  json_valid v ->
  exists c t, JSON_stringify v = c :: t /\ value_head c = true.
Proof.
  destruct v as [ |[|]|[neg m e|neg]|s|xs|ps]; intros Hv;
    try (eexists; eexists; split; [reflexivity|reflexivity]).
  cbn [JSON_stringify].
  destruct (number_toString_head neg m e Hv) as (c & t & -> & Hc).
  exists c, t. split; [reflexivity|].
  unfold value_head. apply orb_true_iff in Hc as [Hc|Hc]; rewrite Hc;
    rewrite ?orb_true_r; reflexivity.
Qed.

Lemma parse_value_number (f : nat) (c : Z) (r : jsstring) :
  ((c =? 45) || is_digit c) = true ->
  parse_value (S f) (c :: r)
  = match parse_number (c :: r) with
    | POk n rest => POk (JNum n) rest
    | PErr => PErr
    | PFuel => PFuel
    end.
Proof.
  intros H. cbn [parse_value].
  assert (Hb : c = 45 \/ 48 <= c <= 57).
  { apply orb_true_iff in H as [H|H]; [apply Z.eqb_eq in H; auto|].
    right. apply is_digit_bounds. exact H. }
  assert (Hw : is_ws c = false).
  { unfold is_ws. repeat (apply orb_false_iff; split); apply Z.eqb_neq; lia. }
  rewrite skip_ws_head by exact Hw.
  assert (E1 : (c =? 110) = false) by (apply Z.eqb_neq; lia).
  assert (E2 : (c =? 116) = false) by (apply Z.eqb_neq; lia).
  assert (E3 : (c =? 102) = false) by (apply Z.eqb_neq; lia).
  assert (E4 : (c =? 34) = false) by (apply Z.eqb_neq; lia).
  assert (E5 : (c =? 91) = false) by (apply Z.eqb_neq; lia).
  assert (E6 : (c =? 123) = false) by (apply Z.eqb_neq; lia).
  rewrite E1, E2, E3, E4, E5, E6, H. reflexivity.
Qed.

Lemma parse_value_string (f : nat) (r : jsstring) :
  parse_value (S f) (34 :: r)
  = match parse_string_body r with
    | POk k rest => POk (JStr k) rest
    | PErr => PErr
    | PFuel => PFuel
    end.
Proof. reflexivity. Qed.

Lemma parse_value_array (f : nat) (r : jsstring) :
  parse_value (S f) (91 :: r)
  = match expect 93 r with
    | Some r' => POk (JArr []) r'
    | None =>
        match parse_elements f r with
        | POk xs rest => POk (JArr xs) rest
        | PErr => PErr
        | PFuel => PFuel
        end
    end.
Proof. reflexivity. Qed.

Lemma parse_value_object (f : nat) (r : jsstring) :
  parse_value (S f) (123 :: r)
  = match expect 125 r with
    | Some r' => POk (JObj []) r'
    | None =>
        match parse_members f r with
        | POk ms rest => POk (object_of_members ms) rest
        | PErr => PErr
        | PFuel => PFuel
        end
    end.
Proof. reflexivity. Qed.

Lemma parse_elements_S (f : nat) (s : jsstring) :
  parse_elements (S f) s
  = match parse_value f s with
    | POk v r =>
        match expect 44 r with
        | Some r' =>
            match parse_elements f r' with
            | POk vs rest => POk (v :: vs) rest
            | e => e
            end
        | None =>
            match expect 93 r with
            | Some r' => POk [v] r'
            | None => PErr
            end
        end
    | PErr => PErr
    | PFuel => PFuel
    end.
Proof. reflexivity. Qed.

Lemma parse_members_S (f : nat) (s : jsstring) :
  parse_members (S f) s
  = match expect 34 s with
    | Some r =>
        match parse_string_body r with
        | POk k r1 =>
            match expect 58 r1 with
            | Some r2 =>
                match parse_value f r2 with
                | POk v r3 =>
                    match expect 44 r3 with
                    | Some r4 =>
                        match parse_members f r4 with
                        | POk ms rest => POk ((k, v) :: ms) rest
                        | e => e
                        end
                    | None =>
                        match expect 125 r3 with
                        | Some r4 => POk [(k, v)] r4
                        | None => PErr
                        end
                    end
                | PErr => PErr
                | PFuel => PFuel
                end
            | None => PErr
            end
        | PErr => PErr
        | PFuel => PFuel
        end
    | None => PErr
    end.
Proof. reflexivity. Qed.

Lemma stops_punctuation (c : Z) (t : jsstring) :
  c = 44 \/ c = 93 \/ c = 125 -> stops number_char (c :: t).
Proof. intros [->|[->| ->]]; reflexivity. Qed.

Lemma reads_back_elements (xs : list json) :
  Forall reads_back xs -> xs <> [] ->
  (fix all (l : list json) : Prop :=
     match l with [] => True | x :: t => json_valid x /\ all t end) xs ->
  forallb json_finite xs = true ->
  forall fuel rest,
    (list_sum (map (fun x => S (json_size x)) xs) <= fuel)%nat ->
    parse_elements fuel (join_comma (map JSON_stringify xs) ++ 93 :: rest)
    = POk (map json_unsigned_zero xs) rest.
Proof.
  induction xs as [|x xs IH]; intros HF Hn Hv Hf fuel rest Hfuel; [congruence|].
  inversion HF as [|? ? Hx HF']; subst.
  destruct Hv as [Hvx Hv]. cbn [forallb] in Hf.
  apply andb_true_iff in Hf as [Hfx Hf].
  cbn [map list_sum] in Hfuel.
  destruct fuel as [|fuel]; [simpl in Hfuel; lia|].
  rewrite parse_elements_S.
  destruct xs as [|y xs].
  - cbn [map join_comma].
    rewrite (Hx Hvx Hfx fuel (93 :: rest)); [| simpl in *; lia | reflexivity].
    rewrite expect_other, expect_head by reflexivity. reflexivity.
  - change (join_comma (map JSON_stringify (x :: y :: xs)))
      with (JSON_stringify x ++ 44 :: join_comma (map JSON_stringify (y :: xs))).
    rewrite <- app_assoc. cbn [app].
    rewrite (Hx Hvx Hfx fuel); [| simpl in *; lia | reflexivity].
    rewrite expect_head by reflexivity.
    rewrite IH; [reflexivity | exact HF' | discriminate | exact Hv | exact Hf
                | simpl in *; lia].
Qed.

Lemma reads_back_members (ps : list (jsstring * json)) :
  Forall (fun kv => reads_back (snd kv)) ps -> ps <> [] ->
  (fix all (l : list (jsstring * json)) : Prop :=
     match l with
     | [] => True
     | kv :: t => (string_valid (fst kv) /\ json_valid (snd kv)) /\ all t
     end) ps ->
  forallb (fun kv => json_finite (snd kv)) ps = true ->
  forall fuel rest,
    (list_sum (map (fun kv => S (json_size (snd kv))) ps) <= fuel)%nat ->
    parse_members fuel
      (join_comma (map (fun kv => JSON_quote (fst kv) ++ 58 :: JSON_stringify (snd kv)) ps)
       ++ 125 :: rest)
    = POk (map (fun kv => (fst kv, json_unsigned_zero (snd kv))) ps) rest.
Proof.
  induction ps as [|[k x] ps IH]; intros HF Hn Hv Hf fuel rest Hfuel; [congruence|].
  inversion HF as [|? ? Hx HF']; subst. cbn [snd fst] in *.
  destruct Hv as [[Hk Hvx] Hv].
  apply andb_true_iff in Hf as [Hfx Hf].
  cbn [map list_sum snd] in Hfuel.
  destruct fuel as [|fuel]; [simpl in Hfuel; lia|].
  rewrite parse_members_S.
  destruct ps as [|q ps].
  - cbn [map join_comma fst snd]. unfold JSON_quote.
    rewrite <- !app_assoc. cbn [app]. rewrite <- !app_assoc. cbn [app].
    rewrite expect_head by reflexivity.
    rewrite parse_JSON_quote by exact Hk.
    rewrite expect_head by reflexivity.
    rewrite (Hx Hvx Hfx fuel (125 :: rest)); [| simpl in *; lia | reflexivity].
    rewrite expect_other, expect_head by reflexivity. reflexivity.
  - change (join_comma
              (map (fun kv => JSON_quote (fst kv) ++ 58 :: JSON_stringify (snd kv))
                 ((k, x) :: q :: ps)))
      with ((JSON_quote k ++ 58 :: JSON_stringify x) ++ 44 ::
            join_comma
              (map (fun kv => JSON_quote (fst kv) ++ 58 :: JSON_stringify (snd kv))
                 (q :: ps))).
    unfold JSON_quote at 1.
    rewrite <- !app_assoc. cbn [app]. rewrite <- !app_assoc. cbn [app].
    rewrite expect_head by reflexivity.
    rewrite parse_JSON_quote by exact Hk.
    rewrite expect_head by reflexivity.
    rewrite (Hx Hvx Hfx fuel); [| simpl in *; lia | reflexivity].
    rewrite expect_head by reflexivity.
    rewrite IH; [reflexivity | exact HF' | discriminate | exact Hv | exact Hf
                | simpl in *; lia].
Qed.

Lemma join_comma_head (l : list jsstring) (c : Z) (t : jsstring) (ls : list jsstring) :
  l = (c :: t) :: ls -> exists t', join_comma l = c :: t'.
Proof. intros ->. destruct ls; cbn [join_comma app]; eauto. Qed.

Lemma map_fst_unsigned (ps : list (jsstring * json)) :
  map fst (map (fun kv => (fst kv, json_unsigned_zero (snd kv))) ps) = map fst ps.
Proof. rewrite map_map. reflexivity. Qed.

(** [JSON.parse] reads back, up to the sign of zero, every value without
    infinite numbers that [JSON.stringify] has written, whatever follows
    the text as long as it does not continue a number. *)
Lemma parse_stringify (v : json) : reads_back v.
Proof.
  induction v as [ |b|n|s|xs IH|ps IH] using json_induction;
    intros Hv Hf fuel rest Hfuel Hr;
    (destruct fuel as [|fuel]; [simpl in Hfuel; lia|]).
  - reflexivity.
  - destruct b; reflexivity.
  - destruct n as [neg m e|neg]; [|discriminate].
    cbn [JSON_stringify json_unsigned_zero].
    destruct (number_toString_head neg m e Hv) as (c & t & E & Hc).
    pose proof (parse_number_toString neg m e rest Hv Hr) as Hp.
    rewrite E in *. cbn [app] in *.
    rewrite parse_value_number by exact Hc. rewrite Hp. reflexivity.
  - cbn [JSON_stringify json_unsigned_zero]. unfold JSON_quote.
    cbn [app]. rewrite <- app_assoc. cbn [app].
    rewrite parse_value_string, parse_JSON_quote by exact Hv. reflexivity.
  - cbn [JSON_stringify json_unsigned_zero json_valid json_finite json_size] in *.
    cbn [app]. rewrite <- app_assoc. cbn [app].
    rewrite parse_value_array.
    destruct xs as [|x xs].
    + cbn [map join_comma app]. rewrite expect_head by reflexivity. reflexivity.
    + destruct (JSON_stringify_head x (proj1 Hv)) as (c & t & Ex & Hc).
      destruct (join_comma_head (map JSON_stringify (x :: xs)) c t
                  (map JSON_stringify xs)) as (t' & Ej).
      { cbn [map]. rewrite Ex. reflexivity. }
      rewrite Ej at 1. cbn [app].
      rewrite expect_other
        by (auto using value_head_not_ws; apply value_head_neq; auto).
      rewrite reads_back_elements; auto; [discriminate | lia].
  - cbn [JSON_stringify json_unsigned_zero json_valid json_finite json_size] in *.
    cbn [app]. rewrite <- app_assoc. cbn [app].
    rewrite parse_value_object.
    destruct Hv as [Hk Hv].
    destruct ps as [|[k x] ps].
    + cbn [map join_comma app]. rewrite expect_head by reflexivity. reflexivity.
    + set (member := fun kv : jsstring * json =>
                       JSON_quote (fst kv) ++ 58 :: JSON_stringify (snd kv)) in *.
      destruct (join_comma_head (map member ((k, x) :: ps)) 34
                  ((quote_body k ++ [34]) ++ 58 :: JSON_stringify x)
                  (map member ps)) as (t' & Ej).
      { reflexivity. }
      rewrite Ej at 1. cbn [app].
      rewrite expect_other by reflexivity.
      unfold member.
      rewrite reads_back_members; auto; [| discriminate | lia].
      rewrite object_of_members_ordered; [reflexivity|].
      rewrite map_fst_unsigned. exact Hk.
Qed.

(** ** The text of a value *)

Lemma join_comma_size (xs : list json) :
  Forall (fun x => json_valid x -> (json_size x <= 2 * length (JSON_stringify x))%nat) xs ->
  (fix all (l : list json) : Prop :=
     match l with [] => True | x :: t => json_valid x /\ all t end) xs ->
  (list_sum (map (fun x => S (json_size x)) xs)
   <= 2 * length (join_comma (map JSON_stringify xs)) + 2)%nat.
Proof.
  induction xs as [|x xs IH]; intros HF Hv; [simpl; lia|].
  inversion HF as [|? ? Hx HF']; subst. destruct Hv as [Hvx Hv].
  specialize (Hx Hvx). specialize (IH HF' Hv).
  destruct xs as [|y xs].
  - cbn [map list_sum fold_right join_comma]. lia.
  - change (join_comma (map JSON_stringify (x :: y :: xs)))
      with (JSON_stringify x ++ 44 :: join_comma (map JSON_stringify (y :: xs))).
    rewrite length_app. cbn [length].
    change (list_sum (map (fun x => S (json_size x)) (x :: y :: xs)))
      with (S (json_size x) + list_sum (map (fun x => S (json_size x)) (y :: xs)))%nat.
    lia.
Qed.

Lemma join_comma_size_members (ps : list (jsstring * json)) :
  Forall (fun kv => json_valid (snd kv) ->
                    (json_size (snd kv) <= 2 * length (JSON_stringify (snd kv)))%nat) ps ->
  (fix all (l : list (jsstring * json)) : Prop :=
     match l with
     | [] => True
     | kv :: t => (string_valid (fst kv) /\ json_valid (snd kv)) /\ all t
     end) ps ->
  (list_sum (map (fun kv => S (json_size (snd kv))) ps)
   <= 2 * length (members_text ps) + 2)%nat.
Proof.
  unfold members_text.
  induction ps as [|[k x] ps IH]; intros HF Hv; [simpl; lia|].
  inversion HF as [|? ? Hx HF']; subst. destruct Hv as [[_ Hvx] Hv].
  cbn [snd] in *. specialize (Hx Hvx). specialize (IH HF' Hv).
  set (member := fun kv : jsstring * json =>
                   JSON_quote (fst kv) ++ 58 :: JSON_stringify (snd kv)) in *.
  assert (Hm : (length (JSON_stringify x) < length (member (k, x)))%nat).
  { unfold member. cbn [fst snd]. rewrite length_app. cbn [length]. lia. }
  destruct ps as [|q ps].
  - cbn [map list_sum fold_right join_comma snd]. lia.
  - change (join_comma (map member ((k, x) :: q :: ps)))
      with (member (k, x) ++ 44 :: join_comma (map member (q :: ps))).
    rewrite length_app. cbn [length].
    change (list_sum (map (fun kv => S (json_size (snd kv))) ((k, x) :: q :: ps)))
      with (S (json_size x)
            + list_sum (map (fun kv => S (json_size (snd kv))) (q :: ps)))%nat.
    lia.
Qed.

(** The recursion depth of the parser is bounded by the length of the
    text. *)
Lemma JSON_stringify_size (v : json) :
  json_valid v -> (json_size v <= 2 * length (JSON_stringify v))%nat.
Proof.
  induction v as [ |b|n|s|xs IH|ps IH] using json_induction; intros Hv.
  - simpl. lia.
  - destruct b; simpl; lia.
  - destruct n as [neg m e|neg]; [|simpl; lia].
    destruct (number_toString_head neg m e Hv) as (c & t & E & _).
    cbn [JSON_stringify json_size]. rewrite E. cbn [length]. lia.
  - cbn [JSON_stringify json_size]. unfold JSON_quote. cbn [length]. lia.
  - pose proof (join_comma_size xs IH Hv) as H.
    cbn [JSON_stringify json_size length]. rewrite length_app. cbn [length]. lia.
  - destruct Hv as [_ Hv].
    pose proof (join_comma_size_members ps IH Hv) as H. unfold members_text in H.
    cbn [JSON_stringify json_size length]. rewrite length_app. cbn [length]. lia.
Qed.

(** [JSON.parse(JSON.stringify(v))] is [v], up to the sign of zero, for
    every value without infinite numbers. *)
Lemma JSON_parse_stringify (v : json) :
  json_valid v -> json_finite v = true ->
  JSON_parse (JSON_stringify v) = Some (json_unsigned_zero v).
Proof.
  intros Hv Hf. unfold JSON_parse.
  pose proof (parse_stringify v Hv Hf (2 * length (JSON_stringify v) + 2)%nat []) as H.
  rewrite app_nil_r in H. rewrite H; [reflexivity| |exact I].
  pose proof (JSON_stringify_size v Hv). lia.
Qed.

(** ** The text of a value has no lone surrogate *)

Lemma well_formed_plain (c : Z) (t : jsstring) :
  is_high_surrogate c = false -> is_low_surrogate c = false -> unit_valid c ->
  well_formed_utf16 (c :: t) = well_formed_utf16 t.
Proof.
  intros Hh Hl Hv. cbn [well_formed_utf16]. rewrite Hh, Hl.
  unfold unit_valid in Hv.
  assert (E1 : (0 <=? c) = true) by (apply Z.leb_le; lia).
  assert (E2 : (c <? 65536) = true) by (apply Z.ltb_lt; lia).
  rewrite E1, E2. reflexivity.
Qed.

Lemma well_formed_ascii_cons (c : Z) (t : jsstring) :
  is_ascii c = true -> well_formed_utf16 (c :: t) = well_formed_utf16 t.
Proof.
  intros H. unfold is_ascii in H. apply andb_true_iff in H as [H1 H2].
  apply Z.leb_le in H1. apply Z.ltb_lt in H2.
  apply well_formed_plain.
  - unfold is_high_surrogate. apply andb_false_iff. left. apply Z.leb_gt. lia.
  - unfold is_low_surrogate. apply andb_false_iff. left. apply Z.leb_gt. lia.
  - unfold unit_valid. lia.
Qed.

Lemma well_formed_ascii_app (a t : jsstring) :
  forallb is_ascii a = true ->
  well_formed_utf16 (a ++ t) = well_formed_utf16 t.
Proof.
  induction a as [|c a IH]; intros H; [reflexivity|].
  cbn [forallb] in H. apply andb_true_iff in H as [Hc Ha].
  cbn [app]. rewrite well_formed_ascii_cons by exact Hc. auto.
Qed.

Lemma well_formed_ascii (a : jsstring) :
  forallb is_ascii a = true -> well_formed_utf16 a = true.
Proof.
  intros H. rewrite <- (app_nil_r a). rewrite well_formed_ascii_app; auto.
Qed.

Lemma well_formed_app_fuel (n : nat) :
  forall a b, (length a <= n)%nat ->
  well_formed_utf16 a = true -> well_formed_utf16 b = true ->
  well_formed_utf16 (a ++ b) = true.
Proof.
  induction n as [|n IH]; intros a b Hl Ha Hb.
  - destruct a; [exact Hb | simpl in Hl; lia].
  - destruct a as [|c a]; [exact Hb|].
    cbn [app well_formed_utf16] in *.
    destruct (is_high_surrogate c).
    + destruct a as [|d a]; [discriminate|]. cbn [app].
      apply andb_true_iff in Ha as [Hd Ha]. rewrite Hd. cbn [andb].
      apply IH; auto. simpl in Hl. lia.
    + apply andb_true_iff in Ha as [Hc Ha]. rewrite Hc. cbn [andb].
      apply IH; auto. simpl in Hl. lia.
Qed.

Lemma well_formed_app (a b : jsstring) :
  well_formed_utf16 a = true -> well_formed_utf16 b = true ->
  well_formed_utf16 (a ++ b) = true.
Proof. apply (well_formed_app_fuel (length a)). auto. Qed.

Lemma digits_ascii (ds : jsstring) :
  forallb is_digit ds = true -> forallb is_ascii ds = true.
Proof.
  induction ds as [|c ds IH]; intros H; [reflexivity|].
  cbn [forallb] in *. apply andb_true_iff in H as [Hc H].
  rewrite IH by exact H. apply is_digit_bounds in Hc.
  unfold is_ascii. rewrite andb_true_r. apply andb_true_iff. split; lia.
Qed.

Lemma decimal_ascii (n : Z) : 0 <= n -> forallb is_ascii (decimal n) = true.
Proof. intros H. apply digits_ascii. apply decimal_spec. exact H. Qed.

Lemma format_decimal_ascii (s x : Z) :
  0 <= s -> forallb is_ascii (format_decimal s x) = true.
Proof.
  intros Hs. pose proof (decimal_ascii s Hs) as Hd.
  unfold format_decimal.
  set (ds := decimal s) in *. set (k := Z.of_nat (length ds)).
  assert (Hz : forall n, forallb is_ascii (zeros n) = true).
  { intros n. apply digits_ascii, zeros_digits. }
  destruct ((k <=? x + k) && (x + k <=? 21)).
  { rewrite forallb_app, Hd, Hz. reflexivity. }
  destruct ((0 <? x + k) && (x + k <=? 21)).
  { rewrite forallb_app. cbn [forallb].
    rewrite forallb_firstn, forallb_skipn by exact Hd. reflexivity. }
  destruct ((-6 <? x + k) && (x + k <=? 0)).
  { cbn [forallb]. rewrite forallb_app, Hz, Hd. reflexivity. }
  pose proof (decimal_ascii (Z.abs (x + k - 1)) (Z.abs_nonneg _)) as He.
  destruct ds as [|d [|d' ds']]; [reflexivity| |].
  - cbn [forallb] in *. rewrite He.
    apply andb_true_iff in Hd as [Hd _]. rewrite Hd.
    destruct (x + k - 1 <? 0); reflexivity.
  - cbn [forallb] in Hd. apply andb_true_iff in Hd as [Hd1 Hd].
    cbn [forallb]. rewrite forallb_app. cbn [forallb]. rewrite Hd1, He.
    cbn [forallb] in Hd. rewrite Hd.
    destruct (x + k - 1 <? 0); reflexivity.
Qed.

Lemma number_toString_ascii (neg : bool) (m e : Z) :
  number_canonical (NFinite neg m e) ->
  forallb is_ascii (number_toString neg m e) = true.
Proof.
  intros Hc. unfold number_toString. destruct (m =? 0) eqn:E; [reflexivity|].
  apply Z.eqb_neq in E.
  assert (Hm : 0 < m) by (destruct Hc; lia).
  destruct (shortest_decimal_correct m e Hc Hm) as [Hs _].
  destruct (shortest_decimal m e) as [s x]. simpl in Hs.
  rewrite forallb_app, format_decimal_ascii by lia.
  destruct neg; reflexivity.
Qed.

Lemma unicode_escape_ascii (c : Z) :
  unit_valid c -> forallb is_ascii (unicode_escape c) = true.
Proof.
  intros H. unfold unit_valid in H.
  assert (Hh : forall n, 0 <= n < 16 -> is_ascii (hex_digit n) = true).
  { intros n Hn. unfold hex_digit, is_ascii.
    destruct (n <? 10); apply andb_true_iff; split; lia. }
  unfold unicode_escape. cbn [forallb].
  rewrite !Hh by (Z.div_mod_to_equations; lia). reflexivity.
Qed.

Lemma quote_body_well_formed (n : nat) :
  forall s, (length s <= n)%nat -> string_valid s ->
  well_formed_utf16 (quote_body s) = true.
Proof.
  induction n as [|n IH]; intros s Hl Hv.
  - destruct s; [reflexivity | simpl in Hl; lia].
  - destruct s as [|c t]; [reflexivity|].
    inversion Hv as [|? ? Hc Ht]; subst.
    assert (IHt : well_formed_utf16 (quote_body t) = true).
    { apply IH; auto. simpl in Hl. lia. }
    cbn [quote_body].
    repeat match goal with
           | |- context [if ?c =? ?k then _ else _] =>
               destruct (c =? k);
               [rewrite !well_formed_ascii_cons by reflexivity; exact IHt|]
           end.
    destruct (c <? 32).
    { rewrite well_formed_ascii_app; auto using unicode_escape_ascii. }
    destruct (is_high_surrogate c) eqn:Eh.
    { destruct t as [|d t'].
      - apply well_formed_ascii, unicode_escape_ascii. exact Hc.
      - destruct (is_low_surrogate d) eqn:El.
        + cbn [well_formed_utf16]. rewrite Eh, El. cbn [andb].
          inversion Ht; subst. apply IH; auto. simpl in Hl. lia.
        + rewrite well_formed_ascii_app; auto using unicode_escape_ascii. }
    destruct (is_low_surrogate c) eqn:El.
    { rewrite well_formed_ascii_app; auto using unicode_escape_ascii. }
    rewrite well_formed_plain; auto.
Qed.

Lemma JSON_quote_well_formed (s : jsstring) :
  string_valid s -> well_formed_utf16 (JSON_quote s) = true.
Proof.
  intros H. unfold JSON_quote.
  rewrite well_formed_ascii_cons by reflexivity.
  apply well_formed_app; [|reflexivity].
  apply (quote_body_well_formed (length s)); auto.
Qed.

Lemma join_comma_well_formed (l : list jsstring) :
  Forall (fun s => well_formed_utf16 s = true) l ->
  well_formed_utf16 (join_comma l) = true.
Proof.
  induction l as [|a l IH]; intros H; [reflexivity|].
  inversion H as [|? ? Ha Hl]; subst.
  destruct l as [|b l]; [exact Ha|].
  change (join_comma (a :: b :: l)) with (a ++ 44 :: join_comma (b :: l)).
  apply well_formed_app; [exact Ha|].
  rewrite well_formed_ascii_cons by reflexivity. auto.
Qed.

(** [JSON.stringify] writes no lone surrogate. *)
Lemma JSON_stringify_well_formed (v : json) :
  json_valid v -> well_formed_utf16 (JSON_stringify v) = true.
Proof.
  induction v as [ |b|n|s|xs IH|ps IH] using json_induction; intros Hv.
  - reflexivity.
  - destruct b; reflexivity.
  - destruct n as [neg m e|neg]; [|reflexivity].
    apply well_formed_ascii, number_toString_ascii. exact Hv.
  - apply JSON_quote_well_formed. exact Hv.
  - cbn [JSON_stringify]. rewrite well_formed_ascii_cons by reflexivity.
    apply well_formed_app; [|reflexivity].
    apply join_comma_well_formed.
    cbn [json_valid] in Hv. induction xs as [|x xs IHxs]; constructor.
    + inversion IH; subst. destruct Hv. auto.
    + inversion IH; subst. destruct Hv. auto.
  - cbn [JSON_stringify]. rewrite well_formed_ascii_cons by reflexivity.
    apply well_formed_app; [|reflexivity].
    apply join_comma_well_formed.
    destruct Hv as [_ Hv]. induction ps as [|[k x] ps IHps]; constructor.
    + inversion IH; subst. destruct Hv as [[Hk Hx] _]. cbn [fst snd] in *.
      apply well_formed_app; [apply JSON_quote_well_formed; exact Hk|].
      rewrite well_formed_ascii_cons by reflexivity. auto.
    + inversion IH; subst. destruct Hv. auto.
Qed.

(** Re-serializing a value and decoding the bytes: [JSON.parse] of the
    UTF-8 text of [JSON.stringify(v)] is [v] up to the sign of zero. *)
Lemma decode_encode (v : json) :
  json_valid v -> json_finite v = true ->
  JSON_parse (toString_utf8 (Buffer_from_utf8 (JSON_stringify v)))
  = Some (json_unsigned_zero v).
Proof.
  intros Hv Hf. rewrite utf8_roundtrip by (apply JSON_stringify_well_formed; exact Hv).
  apply JSON_parse_stringify; auto.
Qed.

(** ** Frames *)

Lemma is_ascii_bounds (c : Z) : is_ascii c = true -> 0 <= c < 128.
Proof. unfold is_ascii. intros H. apply andb_true_iff in H. lia. Qed.

Lemma Buffer_from_utf8_ascii (s : jsstring) :
  forallb is_ascii s = true -> Buffer_from_utf8 s = map z2b s.
Proof.
  induction s as [|c s IH]; intros H; [reflexivity|].
  cbn [forallb] in H. apply andb_true_iff in H as [Hc Hs].
  apply is_ascii_bounds in Hc.
  cbn [Buffer_from_utf8 map].
  assert (Eh : is_high_surrogate c = false).
  { unfold is_high_surrogate. apply andb_false_iff. left. apply Z.leb_gt. lia. }
  assert (El : is_low_surrogate c = false).
  { unfold is_low_surrogate. apply andb_false_iff. left. apply Z.leb_gt. lia. }
  rewrite Eh, El. unfold utf8_of_code_point.
  assert (E : (c <? 128) = true) by (apply Z.ltb_lt; lia).
  rewrite E, IH by exact Hs. reflexivity.
Qed.

Lemma toString_ascii_z2b (s : jsstring) :
  forallb is_ascii s = true -> toString_ascii (map z2b s) = s.
Proof.
  induction s as [|c s IH]; intros H; [reflexivity|].
  cbn [forallb] in H. apply andb_true_iff in H as [Hc Hs].
  apply is_ascii_bounds in Hc.
  unfold toString_ascii in *. cbn [map]. rewrite IH by exact Hs.
  rewrite b2z_z2b by lia. rewrite Z.mod_small by lia. reflexivity.
Qed.

Lemma indexOf_after (p r : buffer) :
  Forall (fun b => b <> x0d) p ->
  indexOf (p ++ CRLFCRLF ++ r) CRLFCRLF = Some (length p).
Proof.
  induction p as [|b p IH]; intros H.
  - reflexivity.
  - inversion H as [|? ? Hb Hp]; subst.
    cbn [app indexOf length].
    assert (E : buffer_prefixb CRLFCRLF (b :: p ++ CRLFCRLF ++ r) = false).
    { unfold CRLFCRLF. cbn [buffer_prefixb].
      destruct (Byte.eqb x0d b) eqn:Eb; [|reflexivity].
      apply Byte.byte_dec_bl in Eb. congruence. }
    rewrite E, IH by exact Hp. reflexivity.
Qed.

Lemma header_line_ascii (n : Z) :
  0 <= n -> forallb is_ascii (header_line n) = true.
Proof.
  intros H. unfold header_line. rewrite forallb_app, decimal_ascii by exact H.
  reflexivity.
Qed.

Lemma header_line_no_cr (n : Z) :
  0 <= n -> Forall (fun b => b <> x0d) (map z2b (header_line n)).
Proof.
  intros H. unfold header_line. rewrite map_app. apply Forall_app. split.
  - repeat constructor; discriminate.
  - destruct (decimal_spec n H) as (_ & Hd & _).
    induction (decimal n) as [|c ds IH]; constructor.
    + cbn [forallb] in Hd. apply andb_true_iff in Hd as [Hc _].
      apply is_digit_bounds in Hc. intros E.
      apply (f_equal b2z) in E. rewrite b2z_z2b in E by lia.
      change (b2z x0d) with 13 in E. lia.
    + apply IH. cbn [forallb] in Hd. apply andb_true_iff in Hd. tauto.
Qed.

Lemma content_length_match_here (s ds : jsstring) :
  content_length_here s = Some ds -> content_length_match s = Some ds.
Proof. intros H. destruct s; cbn [content_length_match]; rewrite H; reflexivity. Qed.

Lemma content_length_header_line (n : Z) :
  0 <= n -> content_length_match (header_line n) = Some (decimal n).
Proof.
  intros H. apply content_length_match_here.
  destruct (decimal_spec n H) as (_ & Hd & Hn & _).
  unfold content_length_here, header_line.
  assert (E : strip_prefix_ci (str "Content-Length:") (str "Content-Length: " ++ decimal n)
              = Some (32 :: decimal n)) by reflexivity.
  rewrite E.
  destruct (decimal n) as [|d ds] eqn:Ed; [congruence|].
  assert (Hs : span is_space (32 :: d :: ds) = ([32], d :: ds)).
  { cbn [forallb] in Hd. apply andb_true_iff in Hd as [Hc _].
    apply is_digit_bounds in Hc.
    cbn [span]. change (is_space 32) with true. cbv iota.
    assert (E' : is_space d = false).
    { unfold is_space. apply orb_false_iff. split.
      - apply andb_false_iff. right. apply Z.leb_gt. lia.
      - apply Z.eqb_neq. lia. }
    rewrite E'. reflexivity. }
  rewrite Hs.
  rewrite <- (app_nil_r (d :: ds)) at 1.
  rewrite span_app by (auto; exact I). reflexivity.
Qed.

Lemma encode_frame_eq (body : buffer) :
  encode_frame body
  = map z2b (header_line (Z.of_nat (length body))) ++ CRLFCRLF ++ body.
Proof.
  unfold encode_frame.
  change (str "Content-Length: " ++ decimal (Z.of_nat (length body)) ++ [13; 10; 13; 10])
    with (header_line (Z.of_nat (length body)) ++ [13; 10; 13; 10]).
  rewrite Buffer_from_utf8_ascii.
  - rewrite map_app, <- app_assoc. reflexivity.
  - rewrite forallb_app, header_line_ascii by lia. reflexivity.
Qed.

(** Decoding a frame that the proxy has encoded finds the body again. *)
Lemma locate_encode_frame (body rest : buffer) :
  locate (encode_frame body ++ rest) = Framed (encode_frame body) body rest.
Proof.
  rewrite encode_frame_eq.
  set (n := Z.of_nat (length body)).
  assert (Hn : 0 <= n) by (unfold n; lia).
  set (h := map z2b (header_line n)).
  assert (Hi : indexOf ((h ++ CRLFCRLF ++ body) ++ rest) CRLFCRLF = Some (length h)).
  { rewrite <- !app_assoc.
    change (h ++ CRLFCRLF ++ body ++ rest) with (h ++ CRLFCRLF ++ (body ++ rest)).
    apply indexOf_after. apply header_line_no_cr. exact Hn. }
  unfold locate. rewrite Hi.
  assert (Hh : subarray ((h ++ CRLFCRLF ++ body) ++ rest) 0 (length h) = h).
  { unfold subarray. cbn [skipn]. rewrite Nat.sub_0_r, <- !app_assoc.
    rewrite firstn_app, firstn_all, Nat.sub_diag. cbn [firstn]. apply app_nil_r. }
  rewrite Hh. unfold h at 1.
  rewrite toString_ascii_z2b by (apply header_line_ascii; exact Hn).
  rewrite content_length_header_line by exact Hn.
  rewrite parseInt_decimal by exact Hn.
  assert (Hlen : length (h ++ CRLFCRLF ++ body) = (length h + 4 + length body)%nat).
  { rewrite !length_app. cbn [length CRLFCRLF]. lia. }
  assert (El : (Z.of_nat (length ((h ++ CRLFCRLF ++ body) ++ rest))
                <? Z.of_nat (length h + 4) + n) = false).
  { apply Z.ltb_ge. rewrite length_app, Hlen. unfold n. lia. }
  rewrite El.
  replace (Z.to_nat (Z.of_nat (length h + 4) + n)) with (length (h ++ CRLFCRLF ++ body))
    by (rewrite Hlen; unfold n; lia).
  f_equal.
  - unfold subarray. cbn [skipn]. rewrite Nat.sub_0_r.
    rewrite firstn_app, firstn_all, Nat.sub_diag. cbn [firstn]. apply app_nil_r.
  - unfold subarray. rewrite Hlen.
    replace (length h + 4 + length body - (length h + 4))%nat with (length body) by lia.
    rewrite <- !app_assoc.
    replace (h ++ CRLFCRLF ++ body ++ rest) with ((h ++ CRLFCRLF) ++ body ++ rest)
      by (rewrite <- app_assoc; reflexivity).
    rewrite skipn_app.
    replace (length h + 4)%nat with (length (h ++ CRLFCRLF))
      by (rewrite length_app; reflexivity).
    rewrite skipn_all, Nat.sub_diag. cbn [skipn app].
    rewrite firstn_app, firstn_all, Nat.sub_diag. cbn [firstn]. apply app_nil_r.
  - unfold subarray_from. rewrite skipn_app, skipn_all, Nat.sub_diag. reflexivity.
Qed.

(** ** What [JSON.parse] returns is a valid value *)

(** *** Decoded text *)

Lemma utf8_lead_ok (b : Z) :
  0 <= b < 256 ->
  Forall code_point_ok (fst (utf8_lead b)) /\ pending_ok (snd (utf8_lead b)).
Proof.
  intros Hb. unfold utf8_lead.
  destruct (b <=? 127) eqn:E1.
  { apply Z.leb_le in E1. split; [|exact I].
    repeat constructor; unfold code_point_ok; simpl; lia. }
  destruct ((194 <=? b) && (b <=? 223)) eqn:E2.
  { apply andb_true_iff in E2 as [H1 H2]. apply Z.leb_le in H1, H2.
    split; [constructor|]. cbn [snd pending_ok u_cp u_lower u_upper u_needed].
    change (2 ^ 15) with 32768. lia. }
  destruct ((224 <=? b) && (b <=? 239)) eqn:E3.
  { apply andb_true_iff in E3 as [H1 H2]. apply Z.leb_le in H1, H2.
    split; [constructor|]. cbn [snd pending_ok u_cp u_lower u_upper u_needed].
    change (2 ^ 9) with 512.
    destruct (b =? 224), (b =? 237); lia. }
  destruct ((240 <=? b) && (b <=? 244)) eqn:E4.
  { apply andb_true_iff in E4 as [H1 H2]. apply Z.leb_le in H1, H2.
    split; [constructor|]. cbn [snd pending_ok u_cp u_lower u_upper u_needed].
    change (2 ^ 3) with 8.
    destruct (b =? 240), (b =? 244); lia. }
  split; [|exact I]. repeat constructor. unfold code_point_ok, REPLACEMENT. simpl. lia.
Qed.

Lemma utf8_decode_ok (l : buffer) :
  forall st, pending_ok st -> Forall code_point_ok (utf8_decode st l).
Proof.
  assert (HR : code_point_ok REPLACEMENT).
  { unfold code_point_ok, REPLACEMENT. simpl. lia. }
  induction l as [|b l IH]; intros st Hst.
  - destruct st; [constructor; [exact HR | constructor] | constructor].
  - cbn [utf8_decode].
    pose proof (b2z_bounds b) as Hb.
    pose proof (utf8_lead_ok (b2z b) Hb) as [Hout Hnext].
    destruct st as [p|].
    + destruct Hst as (H0 & Hlo & Hup & Hn).
      destruct ((u_lower p <=? b2z b) && (b2z b <=? u_upper p)) eqn:E.
      * apply andb_true_iff in E as [E1 E2]. apply Z.leb_le in E1, E2.
        destruct (u_needed p) as [|[|[|[|n]]]]; try contradiction.
        -- constructor; [|apply IH; exact I].
           unfold code_point_ok. change (2 ^ 15) with 32768 in Hn.
           change (2 ^ 21) with 2097152. lia.
        -- apply IH. cbn [pending_ok u_cp u_lower u_upper u_needed].
           change (2 ^ 9) with 512 in Hn. change (2 ^ 15) with 32768. lia.
        -- apply IH. cbn [pending_ok u_cp u_lower u_upper u_needed].
           change (2 ^ 3) with 8 in Hn. change (2 ^ 9) with 512. lia.
      * destruct (utf8_lead (b2z b)) as [out st']. cbn [fst snd] in *.
        constructor; [exact HR|]. apply Forall_app. split; auto.
    + destruct (utf8_lead (b2z b)) as [out st']. cbn [fst snd] in *.
      apply Forall_app. split; auto.
Qed.

(** The text of a buffer is a string of 16 bit units. *)
Lemma toString_utf8_valid (buf : buffer) : string_valid (toString_utf8 buf).
Proof.
  unfold toString_utf8, string_valid.
  pose proof (utf8_decode_ok buf None I) as H.
  induction H as [|cp l Hcp Hl IH]; [constructor|].
  cbn [flat_map]. apply Forall_app. split; [|exact IH].
  unfold code_point_ok in Hcp. change (2 ^ 21) with 2097152 in Hcp.
  unfold utf16_of_code_point, unit_valid.
  destruct (cp <? 65536) eqn:E.
  - apply Z.ltb_lt in E. repeat constructor; lia.
  - apply Z.ltb_ge in E. repeat constructor; Z.div_mod_to_equations; lia.
Qed.

(** *** Strings and numbers *)

Lemma string_valid_tail (c : Z) (t : jsstring) :
  string_valid (c :: t) -> string_valid t.
Proof. intros H. inversion H; auto. Qed.

Lemma skip_ws_valid (s : jsstring) : string_valid s -> string_valid (skip_ws s).
Proof.
  induction s as [|c s IH]; intros H; [exact H|].
  cbn [skip_ws]. destruct (is_ws c); [|exact H].
  apply IH. eapply string_valid_tail; eauto.
Qed.

Lemma expect_valid (c : Z) (s r : jsstring) :
  string_valid s -> expect c s = Some r -> string_valid r.
Proof.
  intros H. unfold expect. pose proof (skip_ws_valid s H) as Hs.
  destruct (skip_ws s) as [|d t]; [discriminate|].
  destruct (d =? c); [|discriminate]. intros [= <-].
  eapply string_valid_tail; eauto.
Qed.

Lemma strip_prefix_valid (p s r : jsstring) :
  string_valid s -> strip_prefix p s = Some r -> string_valid r.
Proof.
  revert s; induction p as [|c p IH]; intros s H; cbn [strip_prefix].
  - intros [= <-]. exact H.
  - destruct s as [|d s]; [discriminate|].
    destruct (c =? d); [|discriminate].
    apply IH. eapply string_valid_tail; eauto.
Qed.

Lemma span_valid (p : Z -> bool) (s : jsstring) :
  string_valid s -> string_valid (snd (span p s)).
Proof.
  induction s as [|c s IH]; intros H; [exact H|].
  cbn [span]. destruct (p c); [|exact H].
  specialize (IH (string_valid_tail _ _ H)).
  destruct (span p s). exact IH.
Qed.

Lemma hex_value_bounds (c x : Z) : hex_value c = Some x -> 0 <= x < 16.
Proof.
  unfold hex_value.
  destruct ((48 <=? c) && (c <=? 57)) eqn:E1.
  { apply andb_true_iff in E1 as [H1 H2]. intros [= <-]. lia. }
  destruct ((97 <=? c) && (c <=? 102)) eqn:E2.
  { apply andb_true_iff in E2 as [H1 H2]. intros [= <-]. lia. }
  destruct ((65 <=? c) && (c <=? 70)) eqn:E3; [|discriminate].
  apply andb_true_iff in E3 as [H1 H2]. intros [= <-]. lia.
Qed.

Lemma hex4_valid (a b c d u : Z) : hex4 a b c d = Some u -> unit_valid u.
Proof.
  unfold hex4.
  destruct (hex_value a) as [x|] eqn:Ea; [|discriminate].
  destruct (hex_value b) as [y|] eqn:Eb; [|discriminate].
  destruct (hex_value c) as [z|] eqn:Ec; [|discriminate].
  destruct (hex_value d) as [w|] eqn:Ed; [|discriminate].
  apply hex_value_bounds in Ea, Eb, Ec, Ed.
  intros [= <-]. unfold unit_valid. lia.
Qed.

Lemma escape_value_valid (x u : Z) : escape_value x = Some u -> unit_valid u.
Proof.
  unfold escape_value, unit_valid.
  repeat match goal with
         | |- context [if ?b then _ else _] => destruct b; [intros [= <-]; lia|]
         end.
  discriminate.
Qed.

Lemma parse_string_body_valid (n : nat) :
  forall s k rest, (length s <= n)%nat -> string_valid s ->
  parse_string_body s = POk k rest -> string_valid k /\ string_valid rest.
Proof.
  induction n as [|n IH]; intros s k rest Hl Hv.
  - destruct s; [discriminate | simpl in Hl; lia].
  - destruct s as [|c t]; [discriminate|].
    inversion Hv as [|? ? Hc Ht]; subst.
    cbn [parse_string_body].
    destruct (c =? 34).
    { intros [= <- <-]. split; [constructor | exact Ht]. }
    destruct (c =? 92).
    { destruct t as [|x t']; [discriminate|].
      inversion Ht as [|? ? Hx Ht']; subst.
      destruct (x =? 117).
      - destruct t' as [|h1 [|h2 [|h3 [|h4 t'']]]]; try discriminate.
        destruct (hex4 h1 h2 h3 h4) as [u|] eqn:Eu; [|discriminate].
        destruct (parse_string_body t'') as [r rest'| |] eqn:Er; try discriminate.
        intros [= <- <-].
        assert (Ht'' : string_valid t'').
        { do 4 (apply string_valid_tail in Ht'). exact Ht'. }
        destruct (IH t'' r rest') as [H1 H2]; auto.
        { simpl in Hl. lia. }
        split; [constructor; eauto using hex4_valid | exact H2].
      - destruct (escape_value x) as [u|] eqn:Eu; [|discriminate].
        destruct (parse_string_body t') as [r rest'| |] eqn:Er; try discriminate.
        intros [= <- <-].
        destruct (IH t' r rest') as [H1 H2]; auto.
        { simpl in Hl. lia. }
        split; [constructor; eauto using escape_value_valid | exact H2]. }
    destruct (c <? 32); [discriminate|].
    destruct (parse_string_body t) as [r rest'| |] eqn:Er; try discriminate.
    intros [= <- <-].
    destruct (IH t r rest') as [H1 H2]; auto.
    { simpl in Hl. lia. }
    split; [constructor; auto | exact H2].
Qed.

Lemma parse_integer_spec (s ip s2 : jsstring) :
  string_valid s -> parse_integer s = (ip, s2) ->
  forallb is_digit ip = true /\ string_valid s2.
Proof.
  intros Hv. unfold parse_integer. destruct s as [|c t].
  - intros [= <- <-]. split; [reflexivity | exact Hv].
  - destruct (c =? 48).
    + intros [= <- <-]. split; [reflexivity|].
      eapply string_valid_tail; eauto.
    + intros H. pose proof (span_fst_forallb is_digit (c :: t)) as H1.
      pose proof (span_valid is_digit (c :: t) Hv) as H2.
      rewrite H in H1, H2. auto.
Qed.

Lemma parse_fraction_spec (s fs s3 : jsstring) :
  string_valid s -> parse_fraction s = Some (fs, s3) ->
  forallb is_digit fs = true /\ string_valid s3.
Proof.
  intros Hv. unfold parse_fraction. destruct s as [|c t].
  - intros [= <- <-]. split; [reflexivity | exact Hv].
  - destruct (c =? 46).
    + pose proof (span_fst_forallb is_digit t) as H1.
      pose proof (span_valid is_digit t (string_valid_tail _ _ Hv)) as H2.
      destruct (span is_digit t) as [[|d ds] r]; [discriminate|].
      intros [= <- <-]. auto.
    + intros [= <- <-]. split; [reflexivity | exact Hv].
Qed.

Lemma parse_exponent_spec (s s4 : jsstring) (ex : Z) :
  string_valid s -> parse_exponent s = Some (ex, s4) -> string_valid s4.
Proof.
  intros Hv. unfold parse_exponent. destruct s as [|c t].
  - intros [= <- <-]. exact Hv.
  - destruct ((c =? 101) || (c =? 69)).
    + assert (Hs : string_valid (snd (parse_sign t))).
      { pose proof (string_valid_tail _ _ Hv) as Ht.
        unfold parse_sign. destruct t as [|d u]; [exact Ht|].
        destruct (d =? 45); [eapply string_valid_tail; eauto|].
        destruct (d =? 43); [eapply string_valid_tail; eauto | exact Ht]. }
      destruct (parse_sign t) as [sg t']. cbn [snd] in Hs.
      pose proof (span_valid is_digit t' Hs) as H2.
      destruct (span is_digit t') as [[|d ds] r]; [discriminate|].
      intros [= <- <-]. exact H2.
    + intros [= <- <-]. exact Hv.
Qed.

Lemma parse_number_valid (s rest : jsstring) (n : number) :
  string_valid s -> parse_number s = POk n rest ->
  number_canonical n /\ string_valid rest.
Proof.
  intros Hv. unfold parse_number.
  set (start := match s with
                | c :: t => if c =? 45 then (true, t) else (false, s)
                | [] => (false, s)
                end).
  assert (Hs1 : string_valid (snd start)).
  { unfold start. destruct s as [|c t]; [exact Hv|].
    destruct (c =? 45); [eapply string_valid_tail; eauto | exact Hv]. }
  destruct start as [neg s1]. cbn [snd] in Hs1.
  destruct (parse_integer s1) as [ip s2] eqn:Ei.
  destruct (parse_integer_spec _ _ _ Hs1 Ei) as [Hip Hs2].
  destruct ip as [|d ip']; [discriminate|].
  destruct (parse_fraction s2) as [[fs s3]|] eqn:Ef; [|discriminate].
  destruct (parse_fraction_spec _ _ _ Hs2 Ef) as [Hfs Hs3].
  destruct (parse_exponent s3) as [[ex s4]|] eqn:Ee; [|discriminate].
  pose proof (parse_exponent_spec _ _ _ Hs3 Ee) as Hs4.
  intros [= <- <-]. split; [|exact Hs4].
  assert (Hall : forallb is_digit ((d :: ip') ++ fs) = true)
    by (rewrite forallb_app, Hip, Hfs; reflexivity).
  apply number_of_decimal_canonical. apply digits_value_nonneg. exact Hall.
Qed.

(** *** Objects *)

Lemma json_valid_arr (xs : list json) :
  json_valid (JArr xs) <-> Forall json_valid xs.
Proof.
  cbn [json_valid]. induction xs as [|x xs IH].
  - split; [constructor | exact (fun _ => I)].
  - split.
    + intros [H1 H2]. constructor; [exact H1 | apply IH; exact H2].
    + intros H. inversion H; subst. split; [assumption | apply IH; assumption].
Qed.

Lemma json_valid_obj (ps : list (jsstring * json)) :
  json_valid (JObj ps) <-> object_ok ps.
Proof.
  unfold object_ok. cbn [json_valid].
  assert (H : (fix all (l : list (jsstring * json)) : Prop :=
                 match l with
                 | [] => True
                 | kv :: t => (string_valid (fst kv) /\ json_valid (snd kv)) /\ all t
                 end) ps <-> Forall member_valid ps).
  { induction ps as [|kv ps IH].
    - split; [constructor | exact (fun _ => I)].
    - split.
      + intros [H1 H2]. constructor; [exact H1 | apply IH; exact H2].
      + intros H. inversion H; subst. split; [assumption | apply IH; assumption]. }
  rewrite H. reflexivity.
Qed.

Lemma replace_value_keys (k : jsstring) (v : json) (ps : list (jsstring * json)) :
  map fst (replace_value k v ps) = map fst ps.
Proof.
  induction ps as [|[k' v'] ps IH]; [reflexivity|].
  cbn [replace_value]. destruct (jsstring_eqb k k'); cbn [map fst]; congruence.
Qed.

Lemma replace_value_valid (k : jsstring) (v : json) (ps : list (jsstring * json)) :
  json_valid v -> Forall member_valid ps ->
  Forall member_valid (replace_value k v ps).
Proof.
  intros Hv H. induction H as [|[k' v'] ps [Hk' Hv'] Hps IH]; [constructor|].
  cbn [replace_value] in *.
  destruct (jsstring_eqb k k'); constructor; auto; split; auto.
Qed.

Lemma insert_index_perm (i : Z) (k : jsstring) (v : json)
  (ps : list (jsstring * json)) :
  Permutation (insert_index i k v ps) ((k, v) :: ps).
Proof.
  induction ps as [|[k' v'] ps IH]; [reflexivity|].
  cbn [insert_index]. destruct (array_index k') as [j|]; [|reflexivity].
  destruct (j <? i); [|reflexivity].
  rewrite IH. apply perm_swap.
Qed.

Lemma key_before_index (a k : jsstring) (i j : Z) :
  array_index a = Some j -> array_index k = Some i ->
  key_before a k <-> j < i.
Proof. intros Ha Hk. unfold key_before. rewrite Ha, Hk. reflexivity. Qed.

Lemma insert_index_ordered (i : Z) (k : jsstring) (v : json)
  (ps : list (jsstring * json)) :
  array_index k = Some i -> ~ In k (map fst ps) ->
  keys_ordered (map fst ps) ->
  keys_ordered (map fst (insert_index i k v ps)).
Proof.
  intros Hk. induction ps as [|[k' v'] ps IH]; intros Hn Ho.
  - cbn. repeat split; auto.
  - cbn [map fst keys_ordered] in *. destruct Ho as (Hf & Hn' & Ho).
    assert (Hkk : k <> k') by (intros ->; apply Hn; left; reflexivity).
    assert (Hnt : ~ In k (map fst ps)) by (intros H; apply Hn; right; exact H).
    cbn [insert_index].
    assert (Hfront : (forall x, In x (map fst ps) -> key_before k' x) ->
                     (forall x, key_before k' x -> key_before k x) ->
                     key_before k k' ->
                     keys_ordered (map fst ((k, v) :: (k', v') :: ps))).
    { intros H1 H2 H3. cbn [map fst keys_ordered]. repeat split; auto.
      - constructor; [exact H3|]. apply Forall_forall. intros x Hx. auto. }
    destruct (array_index k') as [j|] eqn:Ek'.
    + destruct (j <? i) eqn:E.
      * apply Z.ltb_lt in E. cbn [map fst keys_ordered]. repeat split.
        -- apply (Permutation_Forall
                    (Permutation_sym (Permutation_map fst (insert_index_perm i k v ps)))).
           cbn [map fst]. constructor; [|exact Hf].
           apply (key_before_index k' k i j); auto.
        -- intros H.
           apply (Permutation_in _ (Permutation_map fst (insert_index_perm i k v ps))) in H.
           cbn [map fst] in H. destruct H as [H|H]; [congruence | contradiction].
        -- apply IH; auto.
      * apply Z.ltb_ge in E. apply Hfront.
        -- apply Forall_forall. exact Hf.
        -- intros x Hx. unfold key_before in *. rewrite Ek' in Hx. rewrite Hk.
           destruct (array_index x); [lia | exact I].
        -- apply (key_before_index k k' j i); auto.
           assert (j <> i); [|lia].
           intros ->. apply Hkk. eapply array_index_inj; eauto.
    + apply Hfront.
      * apply Forall_forall. exact Hf.
      * intros x Hx. unfold key_before in *. rewrite Ek' in Hx. rewrite Hk.
        destruct (array_index x); [contradiction | exact I].
      * unfold key_before. rewrite Hk, Ek'. exact I.
Qed.

Lemma keys_ordered_append (ks : list jsstring) (k : jsstring) :
  array_index k = None -> ~ In k ks -> keys_ordered ks ->
  keys_ordered (ks ++ [k]).
Proof.
  intros Hk. induction ks as [|a ks IH]; intros Hn Ho.
  - cbn. repeat split; auto.
  - cbn [app keys_ordered] in *. destruct Ho as (Hf & Hn' & Ho).
    split; [|split].
    + apply Forall_app. split; [exact Hf|]. constructor; [|constructor].
      unfold key_before. rewrite Hk. destruct (array_index a); exact I.
    + intros H. apply in_app_or in H as [H|[H|[]]]; [contradiction|].
      apply Hn. left. auto.
    + apply IH; auto. intros H. apply Hn. right. exact H.
Qed.

Lemma obj_define_ok (ps : list (jsstring * json)) (k : jsstring) (v : json) :
  object_ok ps -> member_valid (k, v) -> object_ok (obj_define ps k v).
Proof.
  intros [Ho Hf] [Hk Hv]. cbn [fst snd] in *. unfold obj_define.
  destruct (has_key k ps) eqn:E.
  - split; [rewrite replace_value_keys; exact Ho|].
    apply replace_value_valid; auto.
  - assert (Hn : ~ In k (map fst ps)).
    { intros H. apply has_key_In in H. congruence. }
    destruct (array_index k) as [i|] eqn:Ei.
    + split; [apply insert_index_ordered; auto|].
      apply (Permutation_Forall (Permutation_sym (insert_index_perm i k v ps))).
      constructor; [split; auto | exact Hf].
    + split.
      * rewrite map_app. apply keys_ordered_append; auto.
      * apply Forall_app. split; [exact Hf|]. constructor; [split; auto | constructor].
Qed.

Lemma object_of_members_valid (ms : list (jsstring * json)) :
  Forall member_valid ms -> json_valid (object_of_members ms).
Proof.
  intros H. unfold object_of_members. apply json_valid_obj.
  assert (G : forall acc, object_ok acc ->
                object_ok (fold_left (fun o kv => obj_define o (fst kv) (snd kv)) ms acc)).
  { induction H as [|[k v] ms Hkv Hms IH]; intros acc Ha; [exact Ha|].
    cbn [fold_left fst snd]. apply IH. apply obj_define_ok; auto. }
  apply G. split; [exact I | constructor].
Qed.

(** *** Values *)

Lemma parse_value_S (f : nat) (s : jsstring) :
  parse_value (S f) s
  = match skip_ws s with
    | [] => PErr
    | c :: r =>
        if c =? 110 then
          match strip_prefix (str "ull") r with
          | Some r' => POk JNull r'
          | None => PErr
          end
        else if c =? 116 then
          match strip_prefix (str "rue") r with
          | Some r' => POk (JBool true) r'
          | None => PErr
          end
        else if c =? 102 then
          match strip_prefix (str "alse") r with
          | Some r' => POk (JBool false) r'
          | None => PErr
          end
        else if c =? 34 then
          match parse_string_body r with
          | POk k rest => POk (JStr k) rest
          | PErr => PErr
          | PFuel => PFuel
          end
        else if c =? 91 then
          match expect 93 r with
          | Some r' => POk (JArr []) r'
          | None =>
              match parse_elements f r with
              | POk xs rest => POk (JArr xs) rest
              | PErr => PErr
              | PFuel => PFuel
              end
          end
        else if c =? 123 then
          match expect 125 r with
          | Some r' => POk (JObj []) r'
          | None =>
              match parse_members f r with
              | POk ms rest => POk (object_of_members ms) rest
              | PErr => PErr
              | PFuel => PFuel
              end
          end
        else if (c =? 45) || is_digit c then
          match parse_number (c :: r) with
          | POk n rest => POk (JNum n) rest
          | PErr => PErr
          | PFuel => PFuel
          end
        else PErr
    end.
Proof. reflexivity. Qed.

Lemma parse_valid (fuel : nat) : value_ok fuel /\ elements_ok fuel /\ members_ok fuel.
Proof.
  induction fuel as [|f (IHv & IHe & IHm)].
  - split; [|split]; intros s x rest Hs H; discriminate H.
  - split; [|split].
    + intros s v rest Hs. rewrite parse_value_S.
      pose proof (skip_ws_valid s Hs) as Hw.
      destruct (skip_ws s) as [|c r]; [discriminate|].
      pose proof (string_valid_tail _ _ Hw) as Hr.
      destruct (c =? 110).
      { destruct (strip_prefix (str "ull") r) as [r'|] eqn:E; [|discriminate].
        intros [= <- <-]. split; [exact I|]. eapply strip_prefix_valid; eauto. }
      destruct (c =? 116).
      { destruct (strip_prefix (str "rue") r) as [r'|] eqn:E; [|discriminate].
        intros [= <- <-]. split; [exact I|]. eapply strip_prefix_valid; eauto. }
      destruct (c =? 102).
      { destruct (strip_prefix (str "alse") r) as [r'|] eqn:E; [|discriminate].
        intros [= <- <-]. split; [exact I|]. eapply strip_prefix_valid; eauto. }
      destruct (c =? 34).
      { destruct (parse_string_body r) as [k rest'| |] eqn:E; try discriminate.
        intros [= <- <-].
        apply (parse_string_body_valid (length r)) in E; auto. }
      destruct (c =? 91).
      { destruct (expect 93 r) as [r'|] eqn:E.
        - intros [= <- <-]. split; [exact I|]. eapply expect_valid; eauto.
        - destruct (parse_elements f r) as [xs rest'| |] eqn:E'; try discriminate.
          intros [= <- <-]. destruct (IHe _ _ _ Hr E') as [H1 H2].
          split; [apply json_valid_arr; exact H1 | exact H2]. }
      destruct (c =? 123).
      { destruct (expect 125 r) as [r'|] eqn:E.
        - intros [= <- <-]. split; [|eapply expect_valid; eauto].
          apply json_valid_obj. split; [exact I | constructor].
        - destruct (parse_members f r) as [ms rest'| |] eqn:E'; try discriminate.
          intros [= <- <-]. destruct (IHm _ _ _ Hr E') as [H1 H2].
          split; [apply object_of_members_valid; exact H1 | exact H2]. }
      destruct ((c =? 45) || is_digit c); [|discriminate].
      destruct (parse_number (c :: r)) as [n rest'| |] eqn:E; try discriminate.
      intros [= <- <-]. apply (parse_number_valid _ _ _ Hw E).
    + intros s vs rest Hs. rewrite parse_elements_S.
      destruct (parse_value f s) as [v r| |] eqn:E; try discriminate.
      destruct (IHv _ _ _ Hs E) as [Hv Hr].
      destruct (expect 44 r) as [r'|] eqn:E1.
      * destruct (parse_elements f r') as [vs' rest'| |] eqn:E2; try discriminate.
        intros [= <- <-].
        destruct (IHe _ _ _ (expect_valid _ _ _ Hr E1) E2) as [H1 H2].
        split; [constructor; auto | exact H2].
      * destruct (expect 93 r) as [r'|] eqn:E2; [|discriminate].
        intros [= <- <-]. split; [repeat constructor; auto|].
        eapply expect_valid; eauto.
    + intros s ms rest Hs. rewrite parse_members_S.
      destruct (expect 34 s) as [r|] eqn:E0; [|discriminate].
      pose proof (expect_valid _ _ _ Hs E0) as Hr.
      destruct (parse_string_body r) as [k r1| |] eqn:Ek; try discriminate.
      apply (parse_string_body_valid (length r)) in Ek as [Hk Hr1]; auto.
      destruct (expect 58 r1) as [r2|] eqn:E1; [|discriminate].
      pose proof (expect_valid _ _ _ Hr1 E1) as Hr2.
      destruct (parse_value f r2) as [v r3| |] eqn:Ev; try discriminate.
      destruct (IHv _ _ _ Hr2 Ev) as [Hv Hr3].
      destruct (expect 44 r3) as [r4|] eqn:E2.
      * destruct (parse_members f r4) as [ms' rest'| |] eqn:Em; try discriminate.
        intros [= <- <-].
        destruct (IHm _ _ _ (expect_valid _ _ _ Hr3 E2) Em) as [H1 H2].
        split; [constructor; [split; auto | exact H1] | exact H2].
      * destruct (expect 125 r3) as [r4|] eqn:E3; [|discriminate].
        intros [= <- <-]. split; [|eapply expect_valid; eauto].
        constructor; [split; auto | constructor].
Qed.

(** Every value a frame decodes to is a valid value. *)
Lemma JSON_parse_valid (body : buffer) (v : json) :
  JSON_parse (toString_utf8 body) = Some v -> json_valid v.
Proof.
  unfold JSON_parse.
  destruct (parse_value _ _) as [v' rest| |] eqn:E; try discriminate.
  destruct (skip_ws rest); [|discriminate]. intros [= <-].
  destruct (parse_valid (2 * length (toString_utf8 body) + 2)) as [H _].
  apply (H _ _ _ (toString_utf8_valid body) E).
Qed.

(** ** The recursion bound of [JSON_parse] is never reached *)

Lemma skip_ws_length (s : jsstring) : (length (skip_ws s) <= length s)%nat.
Proof.
  induction s as [|c s IH]; [reflexivity|].
  cbn [skip_ws]. destruct (is_ws c); simpl; lia.
Qed.

Lemma expect_length (c : Z) (s r : jsstring) :
  expect c s = Some r -> (length r < length s)%nat.
Proof.
  unfold expect. pose proof (skip_ws_length s) as H.
  destruct (skip_ws s) as [|d t]; [discriminate|].
  destruct (d =? c); [|discriminate]. intros [= <-]. simpl in H. lia.
Qed.

Lemma strip_prefix_length (p s r : jsstring) :
  strip_prefix p s = Some r -> (length r <= length s)%nat.
Proof.
  revert s; induction p as [|c p IH]; intros s; cbn [strip_prefix].
  - intros [= <-]. lia.
  - destruct s as [|d s]; [discriminate|].
    destruct (c =? d); [|discriminate].
    intros H. apply IH in H. simpl. lia.
Qed.

Lemma span_length (p : Z -> bool) (s : jsstring) :
  length s = (length (fst (span p s)) + length (snd (span p s)))%nat.
Proof.
  induction s as [|c s IH]; [reflexivity|].
  cbn [span]. destruct (p c); [|reflexivity].
  destruct (span p s). cbn [fst snd length] in *. lia.
Qed.

Lemma parse_string_body_length (n : nat) :
  forall s, (length s <= n)%nat ->
  match parse_string_body s with
  | POk _ rest => (length rest < length s)%nat
  | PErr => True
  | PFuel => False
  end.
Proof.
  induction n as [|n IH]; intros s Hl.
  - destruct s; [exact I | simpl in Hl; lia].
  - destruct s as [|c t]; [exact I|].
    cbn [parse_string_body].
    destruct (c =? 34); [simpl; lia|].
    destruct (c =? 92).
    { destruct t as [|x t']; [exact I|].
      destruct (x =? 117).
      - destruct t' as [|h1 [|h2 [|h3 [|h4 t'']]]]; try exact I.
        destruct (hex4 h1 h2 h3 h4); [|exact I].
        specialize (IH t'' ltac:(simpl in Hl; lia)).
        destruct (parse_string_body t''); auto. simpl in *. lia.
      - destruct (escape_value x); [|exact I].
        specialize (IH t' ltac:(simpl in Hl; lia)).
        destruct (parse_string_body t'); auto. simpl in *. lia. }
    destruct (c <? 32); [exact I|].
    specialize (IH t ltac:(simpl in Hl; lia)).
    destruct (parse_string_body t); auto. simpl in *. lia.
Qed.

Lemma parse_number_length (s : jsstring) :
  match parse_number s with
  | POk _ rest => (length rest < length s)%nat
  | PErr => True
  | PFuel => False
  end.
Proof.
  unfold parse_number.
  set (start := match s with
                | c :: t => if c =? 45 then (true, t) else (false, s)
                | [] => (false, s)
                end).
  assert (Hs1 : (length (snd start) <= length s)%nat).
  { unfold start. destruct s as [|c t]; [reflexivity|].
    destruct (c =? 45); simpl; lia. }
  destruct start as [neg s1]. cbn [snd] in Hs1.
  assert (Hi : forall ip s2, parse_integer s1 = (ip, s2) -> ip <> [] ->
                             (length s2 < length s1)%nat).
  { intros ip s2. unfold parse_integer. destruct s1 as [|c t].
    - intros [= <- <-]. congruence.
    - destruct (c =? 48).
      + intros [= <- <-] _. simpl. lia.
      + intros H Hn. pose proof (span_length is_digit (c :: t)) as Hsp.
        rewrite H in Hsp. cbn [fst snd] in Hsp.
        destruct ip; [congruence|]. simpl in *. lia. }
  destruct (parse_integer s1) as [ip s2].
  specialize (Hi ip s2 eq_refl).
  destruct ip as [|d ip']; [exact I|].
  specialize (Hi ltac:(discriminate)).
  assert (Hf : forall fs s3, parse_fraction s2 = Some (fs, s3) ->
                             (length s3 <= length s2)%nat).
  { intros fs s3. unfold parse_fraction. destruct s2 as [|c t].
    - intros [= <- <-]. lia.
    - destruct (c =? 46).
      + pose proof (span_length is_digit t) as Hsp.
        destruct (span is_digit t) as [[|x xs] r]; [discriminate|].
        intros [= <- <-]. cbn [fst snd] in Hsp. simpl in *. lia.
      + intros [= <- <-]. lia. }
  destruct (parse_fraction s2) as [[fs s3]|]; [|exact I].
  specialize (Hf fs s3 eq_refl).
  assert (He : forall ex s4, parse_exponent s3 = Some (ex, s4) ->
                             (length s4 <= length s3)%nat).
  { intros ex s4. unfold parse_exponent. destruct s3 as [|c t].
    - intros [= <- <-]. lia.
    - destruct ((c =? 101) || (c =? 69)).
      + assert (Hsg : (length (snd (parse_sign t)) <= length t)%nat).
        { unfold parse_sign. destruct t as [|x u]; [reflexivity|].
          destruct (x =? 45); [simpl; lia|]. destruct (x =? 43); simpl; lia. }
        destruct (parse_sign t) as [sg t']. cbn [snd] in Hsg.
        pose proof (span_length is_digit t') as Hsp.
        destruct (span is_digit t') as [[|x xs] r]; [discriminate|].
        intros [= <- <-]. cbn [fst snd] in Hsp. simpl in *. lia.
      + intros [= <- <-]. lia. }
  destruct (parse_exponent s3) as [[ex s4]|]; [|exact I].
  specialize (He ex s4 eq_refl). lia.
Qed.

(** A successful parse consumes input. *)
Lemma parse_consumes (fuel : nat) :
  (forall s v rest, parse_value fuel s = POk v rest -> (length rest < length s)%nat) /\
  (forall s vs rest, parse_elements fuel s = POk vs rest -> (length rest < length s)%nat) /\
  (forall s ms rest, parse_members fuel s = POk ms rest -> (length rest < length s)%nat).
Proof.
  induction fuel as [|f (IHv & IHe & IHm)].
  - split; [|split]; intros s x rest H; discriminate H.
  - split; [|split].
    + intros s v rest. rewrite parse_value_S.
      pose proof (skip_ws_length s) as Hw.
      destruct (skip_ws s) as [|c r]; [discriminate|]. simpl in Hw.
      destruct (c =? 110).
      { destruct (strip_prefix (str "ull") r) as [r'|] eqn:E; [|discriminate].
        intros [= <- <-]. apply strip_prefix_length in E. lia. }
      destruct (c =? 116).
      { destruct (strip_prefix (str "rue") r) as [r'|] eqn:E; [|discriminate].
        intros [= <- <-]. apply strip_prefix_length in E. lia. }
      destruct (c =? 102).
      { destruct (strip_prefix (str "alse") r) as [r'|] eqn:E; [|discriminate].
        intros [= <- <-]. apply strip_prefix_length in E. lia. }
      destruct (c =? 34).
      { pose proof (parse_string_body_length (length r) r (le_n _)) as H.
        destruct (parse_string_body r); try discriminate.
        intros [= <- <-]. lia. }
      destruct (c =? 91).
      { destruct (expect 93 r) as [r'|] eqn:E.
        - intros [= <- <-]. apply expect_length in E. lia.
        - destruct (parse_elements f r) as [xs rest'| |] eqn:E'; try discriminate.
          intros [= <- <-]. apply IHe in E'. lia. }
      destruct (c =? 123).
      { destruct (expect 125 r) as [r'|] eqn:E.
        - intros [= <- <-]. apply expect_length in E. lia.
        - destruct (parse_members f r) as [ms rest'| |] eqn:E'; try discriminate.
          intros [= <- <-]. apply IHm in E'. lia. }
      destruct ((c =? 45) || is_digit c); [|discriminate].
      pose proof (parse_number_length (c :: r)) as H.
      destruct (parse_number (c :: r)); try discriminate.
      intros [= <- <-]. simpl in H. lia.
    + intros s vs rest. rewrite parse_elements_S.
      destruct (parse_value f s) as [v r| |] eqn:E; try discriminate.
      apply IHv in E.
      destruct (expect 44 r) as [r'|] eqn:E1.
      * apply expect_length in E1.
        destruct (parse_elements f r') as [vs' rest'| |] eqn:E2; try discriminate.
        intros [= <- <-]. apply IHe in E2. lia.
      * destruct (expect 93 r) as [r'|] eqn:E2; [|discriminate].
        intros [= <- <-]. apply expect_length in E2. lia.
    + intros s ms rest. rewrite parse_members_S.
      destruct (expect 34 s) as [r|] eqn:E0; [|discriminate].
      apply expect_length in E0.
      pose proof (parse_string_body_length (length r) r (le_n _)) as Hk.
      destruct (parse_string_body r) as [k r1| |]; try discriminate.
      destruct (expect 58 r1) as [r2|] eqn:E1; [|discriminate].
      apply expect_length in E1.
      destruct (parse_value f r2) as [v r3| |] eqn:Ev; try discriminate.
      apply IHv in Ev.
      destruct (expect 44 r3) as [r4|] eqn:E2.
      * apply expect_length in E2.
        destruct (parse_members f r4) as [ms' rest'| |] eqn:Em; try discriminate.
        intros [= <- <-]. apply IHm in Em. lia.
      * destruct (expect 125 r3) as [r4|] eqn:E3; [|discriminate].
        intros [= <- <-]. apply expect_length in E3. lia.
Qed.

Lemma parse_enough_fuel (fuel : nat) :
  (forall s, (2 * length s + 1 <= fuel)%nat -> parse_value fuel s <> PFuel) /\
  (forall s, (2 * length s + 2 <= fuel)%nat -> parse_elements fuel s <> PFuel) /\
  (forall s, (2 * length s + 2 <= fuel)%nat -> parse_members fuel s <> PFuel).
Proof.
  induction fuel as [|f (IHv & IHe & IHm)].
  - split; [|split]; intros s H; lia.
  - destruct (parse_consumes f) as (Cv & Ce & Cm).
    split; [|split].
    + intros s Hf. rewrite parse_value_S.
      pose proof (skip_ws_length s) as Hw.
      destruct (skip_ws s) as [|c r]; [discriminate|]. simpl in Hw.
      destruct (c =? 110); [destruct (strip_prefix _ r); discriminate|].
      destruct (c =? 116); [destruct (strip_prefix _ r); discriminate|].
      destruct (c =? 102); [destruct (strip_prefix _ r); discriminate|].
      destruct (c =? 34).
      { pose proof (parse_string_body_length (length r) r (le_n _)) as H.
        destruct (parse_string_body r); [discriminate | discriminate | contradiction]. }
      destruct (c =? 91).
      { destruct (expect 93 r); [discriminate|].
        specialize (IHe r ltac:(lia)).
        destruct (parse_elements f r); [discriminate | discriminate | congruence]. }
      destruct (c =? 123).
      { destruct (expect 125 r); [discriminate|].
        specialize (IHm r ltac:(lia)).
        destruct (parse_members f r); [discriminate | discriminate | congruence]. }
      destruct ((c =? 45) || is_digit c); [|discriminate].
      pose proof (parse_number_length (c :: r)) as H.
      destruct (parse_number (c :: r)); [discriminate | discriminate | contradiction].
    + intros s Hf. rewrite parse_elements_S.
      specialize (IHv s ltac:(lia)).
      destruct (parse_value f s) as [v r| |] eqn:E; [|discriminate|congruence].
      apply Cv in E.
      destruct (expect 44 r) as [r'|] eqn:E1.
      * apply expect_length in E1. specialize (IHe r' ltac:(lia)).
        destruct (parse_elements f r'); [discriminate | discriminate | congruence].
      * destruct (expect 93 r); discriminate.
    + intros s Hf. rewrite parse_members_S.
      destruct (expect 34 s) as [r|] eqn:E0; [|discriminate].
      apply expect_length in E0.
      pose proof (parse_string_body_length (length r) r (le_n _)) as Hk.
      destruct (parse_string_body r) as [k r1| |]; [|discriminate|contradiction].
      destruct (expect 58 r1) as [r2|] eqn:E1; [|discriminate].
      apply expect_length in E1.
      specialize (IHv r2 ltac:(lia)).
      destruct (parse_value f r2) as [v r3| |] eqn:Ev; [|discriminate|congruence].
      apply Cv in Ev.
      destruct (expect 44 r3) as [r4|] eqn:E2.
      * apply expect_length in E2. specialize (IHm r4 ltac:(lia)).
        destruct (parse_members f r4); [discriminate | discriminate | congruence].
      * destruct (expect 125 r3); discriminate.
Qed.

(** [JSON_parse] answers [None] only for text that is not JSON: its
    parser never stops for want of recursion depth. *)
Lemma JSON_parse_fuel (text : jsstring) :
  parse_value (2 * length text + 2) text <> PFuel.
Proof. apply parse_enough_fuel. lia. Qed.

(** ** Re-encoding *)

Lemma number_unsigned_zero_idem (n : number) :
  number_unsigned_zero (number_unsigned_zero n) = number_unsigned_zero n.
Proof.
  destruct n as [neg m e|neg]; [|reflexivity].
  cbn [number_unsigned_zero]. destruct (m =? 0) eqn:E; cbn [number_unsigned_zero];
    rewrite E; reflexivity.
Qed.

Lemma json_unsigned_zero_idem (v : json) :
  json_unsigned_zero (json_unsigned_zero v) = json_unsigned_zero v.
Proof.
  induction v as [ |b|n|s|xs IH|ps IH] using json_induction;
    cbn [json_unsigned_zero]; try reflexivity.
  - rewrite number_unsigned_zero_idem. reflexivity.
  - f_equal. rewrite map_map. apply map_ext_in. intros x Hx.
    rewrite Forall_forall in IH. auto.
  - f_equal. rewrite map_map. apply map_ext_in. intros [k x] Hx.
    rewrite Forall_forall in IH. cbn [fst snd]. f_equal. apply (IH (k, x) Hx).
Qed.

(** The frame the proxy writes for a decoded value decodes, wherever it
    stands in a stream, to a value deep-equal to it. *)
Lemma reencode_decodes (body : buffer) (v : json) (rest : buffer) :
  JSON_parse (toString_utf8 body) = Some v -> json_finite v = true ->
  let body' := Buffer_from_utf8 (JSON_stringify v) in
  locate (encode_frame body' ++ rest) = Framed (encode_frame body') body' rest /\
  JSON_parse (toString_utf8 body') = Some (json_unsigned_zero v) /\
  deep_equal (json_unsigned_zero v) v.
Proof.
  intros Hp Hf body'. split; [apply locate_encode_frame|]. split.
  - apply decode_encode; auto. eapply JSON_parse_valid; eauto.
  - unfold deep_equal. apply json_unsigned_zero_idem.
Qed.

(** C7, as the code has it: let [v] be the value a complete frame decodes
    to, and let no number of [v] be infinite (a literal such as [1e400]
    overflows to [Infinity], which is written back as [null]).  Then the
    frame that encodes [v], its compact serialization behind a
    [Content-Length] header computed from it, is found again by the
    parser in front of any bytes [more], and its body decodes to a value
    deep-equal to [v]: [v] itself up to the sign of zero. *)
Theorem C7_reencode_roundtrip (buf raw body rest more : buffer) (v : json) :
  locate buf = Framed raw body rest ->
  JSON_parse (toString_utf8 body) = Some v ->
  json_finite v = true ->
  let frame := encode_frame (Buffer_from_utf8 (JSON_stringify v)) in
  exists body' v',
    locate (frame ++ more) = Framed frame body' more /\
    JSON_parse (toString_utf8 body') = Some v' /\
    v' = json_unsigned_zero v /\
    deep_equal v' v.
Proof.
  intros _ Hp Hf frame.
  destruct (reencode_decodes body v more Hp Hf) as (H1 & H2 & H3).
  exists (Buffer_from_utf8 (JSON_stringify v)), (json_unsigned_zero v). auto.
Qed.

Lemma C7_reencode_roundtrip_witness :
  let v := JObj [(str "n", JNum (NFinite false 6755399441055744 (-52)))] in
  let frame := encode_frame (Buffer_from_utf8 (JSON_stringify v)) in
  exists body' v',
    locate (frame ++ bytes "Content-") = Framed frame body' (bytes "Content-") /\
    JSON_parse (toString_utf8 body') = Some v' /\
    v' = json_unsigned_zero v /\
    deep_equal v' v.
Proof.
  intros v frame.
  assert (Hl : locate number_frame = Framed number_frame (skipn 22 number_frame) [])
    by (vm_compute; reflexivity).
  assert (Hp : JSON_parse (toString_utf8 (skipn 22 number_frame)) = Some v)
    by (vm_compute; reflexivity).
  assert (Hf : json_finite v = true) by reflexivity.
  exact (C7_reencode_roundtrip _ _ _ _ (bytes "Content-") v Hl Hp Hf).
Defined.

(** C7 as the specification words it, for every decoded value, fails on a
    number that overflows: the body [1e400] decodes to [Infinity], which
    is serialized as [null]; the re-encoded frame decodes to [null]. *)
Lemma C7_counterexample :
  let body := bytes "1e400" in
  let received := bytes "Content-Length: 5" ++ CRLFCRLF ++ body in
  let v := JNum (NInfinity false) in
  let frame := encode_frame (Buffer_from_utf8 (JSON_stringify v)) in
  locate received = Framed received body [] /\
  JSON_parse (toString_utf8 body) = Some v /\
  frame = bytes "Content-Length: 4" ++ CRLFCRLF ++ bytes "null" /\
  locate frame = Framed frame (bytes "null") [] /\
  JSON_parse (toString_utf8 (bytes "null")) = Some JNull /\
  ~ deep_equal JNull v.
Proof.
  repeat split; try (vm_compute; reflexivity).
  intros H. discriminate H.
Qed.

Section reencoding.

Variable v : variant.
Variable dir : direction.
Variable forward : buffer -> list effect.
Variable transform : option (json -> json).
Variable intercept : option (json -> list effect * option bool).

Abbreviation rstep := (step v dir forward transform intercept).


End reencoding.



(** ** More on [normalizeFileUri] *)

Lemma replace_backslashes_idem (p : jsstring) :
  replace_backslashes (replace_backslashes p) = replace_backslashes p.
Proof.
  unfold replace_backslashes. rewrite map_map. apply map_ext.
  intros c. destruct (c =? BACKSLASH) eqn:E; [reflexivity|]. rewrite E. reflexivity.
Qed.

Lemma replace_backslashes_app (a b : jsstring) :
  replace_backslashes (a ++ b) = replace_backslashes a ++ replace_backslashes b.
Proof. apply map_app. Qed.

(** What the backslash step leaves alone, the trailing slash step leaves
    free of backslashes. *)
Lemma replace_backslashes_kept (p : jsstring) :
  replace_backslashes p = p ->
  replace_backslashes (replace_trailing_slashes p) = replace_trailing_slashes p.
Proof.
  intros H. destruct (replace_trailing_slashes_spec p) as (n & Hn & _).
  revert H. generalize (replace_trailing_slashes p) Hn. clear Hn.
  intros k ->. generalize (repeat SLASH n). intros b.
  induction k as [|c k IH]; cbn [app replace_backslashes map]; [reflexivity|].
  intros [= Hc Hk]. rewrite Hc. f_equal. apply IH. exact Hk.
Qed.

Lemma ends_with_slash_cons (c d : Z) (t : jsstring) :
  ends_with_slash (c :: d :: t) = ends_with_slash (d :: t).
Proof. reflexivity. Qed.

Lemma all_slashes_ends (c : Z) (t : jsstring) :
  (c =? SLASH) && all_slashes t = true -> ends_with_slash (c :: t) = true.
Proof.
  revert c; induction t as [|d t IH]; intros c H.
  - rewrite andb_true_r in H. exact H.
  - rewrite ends_with_slash_cons. apply IH.
    apply andb_true_iff in H as [_ H]. exact H.
Qed.

(** A path that does not end with a slash is left as it is. *)
Lemma replace_trailing_slashes_fixed (p : jsstring) :
  ends_with_slash p = false -> replace_trailing_slashes p = p.
Proof.
  induction p as [|c t IH]; intros H; [reflexivity|].
  cbn [replace_trailing_slashes].
  destruct ((c =? SLASH) && all_slashes t) eqn:E.
  - apply all_slashes_ends in E. congruence.
  - f_equal. destruct t as [|d t]; [reflexivity|].
    apply IH. rewrite <- ends_with_slash_cons with (c := c). exact H.
Qed.

Lemma startsWith_file_prefix (p : jsstring) :
  startsWith (str "file:///" ++ p) (str "file://") = true.
Proof. reflexivity. Qed.

Lemma replace_file_prefix_three (p : jsstring) :
  replace_file_prefix (str "file:///" ++ p) = p.
Proof. reflexivity. Qed.

(** The last two steps of [normalizeFileUri] on a path they produced. *)
Lemma path_steps_idem (p : jsstring) :
  path_steps (path_steps p) = path_steps p.
Proof.
  unfold path_steps.
  set (q := replace_backslashes p).
  assert (Hq : replace_backslashes q = q) by apply replace_backslashes_idem.
  destruct (1 <? Z.of_nat (length q)) eqn:El.
  - rewrite replace_backslashes_kept by exact Hq.
    destruct (replace_trailing_slashes_spec q) as (n & _ & He).
    rewrite (replace_trailing_slashes_fixed (replace_trailing_slashes q) He).
    destruct (1 <? Z.of_nat (length (replace_trailing_slashes q))); reflexivity.
  - rewrite Hq, El. reflexivity.
Qed.

Lemma normalizeFileUri_path_steps (uri : jsstring) :
  startsWith uri (str "file://") = true ->
  normalizeFileUri uri = str "file:///" ++ path_steps (replace_file_prefix uri).
Proof. intros H. unfold normalizeFileUri. rewrite H. reflexivity. Qed.

Lemma normalizeFileUri_again (uri : jsstring) :
  normalizeFileUri (normalizeFileUri uri) = normalizeFileUri uri.
Proof.
  destruct (startsWith uri (str "file://")) eqn:E.
  - rewrite (normalizeFileUri_path_steps uri E).
    rewrite normalizeFileUri_path_steps by apply startsWith_file_prefix.
    rewrite replace_file_prefix_three, path_steps_idem. reflexivity.
  - assert (H : normalizeFileUri uri = uri).
    { unfold normalizeFileUri. rewrite E. reflexivity. }
    rewrite !H. reflexivity.
Qed.

(** X1: [normalizeFileUri] is idempotent.  A URI it returns is returned
    unchanged when it is normalized again, so the normal form of a file
    URI is a fixed point; a string that is no file URI is one already. *)
Theorem X1_normalizeFileUri_idempotent (uri : jsstring) :
  normalizeFileUri (normalizeFileUri uri) = normalizeFileUri uri /\
  (startsWith uri (str "file://") = false -> normalizeFileUri uri = uri).
Proof.
  split; [apply normalizeFileUri_again|].
  intros E. unfold normalizeFileUri. rewrite E. reflexivity.
Qed.

Lemma X1_normalizeFileUri_idempotent_witness :
  normalizeFileUri (str "https://host/a\b/") = str "https://host/a\b/".
Proof.
  destruct (X1_normalizeFileUri_idempotent (str "https://host/a\b/")) as [_ H].
  apply H. reflexivity.
Defined.

Lemma replace_file_prefix_two (r : jsstring) :
  (forall t, r <> SLASH :: t) ->
  replace_file_prefix (str "file://" ++ r) = r.
Proof.
  intros H. destruct r as [|c r]; [reflexivity|].
  destruct (Z.eq_dec c 47) as [->|Hc]; [exfalso; apply (H r); reflexivity|].
  unfold replace_file_prefix. simpl.
  destruct c as [|p|p]; try reflexivity.
  do 6 (destruct p as [p|p|]; try reflexivity). exfalso; apply Hc; reflexivity.
Qed.

(** X2: the two spellings of a file URI have one normal form: where the path
    does not begin with a slash, [file://path] (two slashes, as a client
    on Windows writes a drive path, with backslashes or not) and
    [file:///path] with forward slashes normalize to the same URI. *)
Theorem X2_normalizeFileUri_two_or_three_slashes (r : jsstring) :
  (forall t, r <> SLASH :: t) ->
  normalizeFileUri (str "file://" ++ r)
  = normalizeFileUri (str "file:///" ++ replace_backslashes r) /\
  normalizeFileUri (str "file://" ++ r) = normalizeFileUri (str "file:///" ++ r).
Proof.
  intros H.
  assert (E2 : startsWith (str "file://" ++ r) (str "file://") = true) by reflexivity.
  rewrite (normalizeFileUri_path_steps _ E2).
  rewrite !normalizeFileUri_path_steps by apply startsWith_file_prefix.
  rewrite !replace_file_prefix_three, replace_file_prefix_two by exact H.
  split; [|reflexivity].
  unfold path_steps. rewrite replace_backslashes_idem. reflexivity.
Qed.

Lemma X2_normalizeFileUri_two_or_three_slashes_witness :
  normalizeFileUri (str "file://C:\Users\me\")
  = normalizeFileUri (str "file:///C:/Users/me/") /\
  normalizeFileUri (str "file://C:\Users\me\") = str "file:///C:/Users/me".
Proof.
  assert (H : forall t, str "C:\Users\me\" <> SLASH :: t) by (intros t; discriminate).
  destruct (X2_normalizeFileUri_two_or_three_slashes (str "C:\Users\me\") H) as [H1 _].
  split; [exact H1|]. vm_compute. reflexivity.
Defined.

(** X3: a path made of slashes only: two or more of them after the prefix are
    removed altogether, a single one is the root and stays. *)
Theorem X3_normalizeFileUri_slashes_only (n : nat) :
  normalizeFileUri (str "file:///" ++ repeat SLASH n)
  = if (n =? 1)%nat then str "file:////" else str "file:///".
Proof.
  rewrite normalizeFileUri_path_steps by apply startsWith_file_prefix.
  rewrite replace_file_prefix_three. unfold path_steps.
  assert (Hb : replace_backslashes (repeat SLASH n) = repeat SLASH n).
  { induction n as [|n IH]; simpl; [reflexivity|]. f_equal. exact IH. }
  rewrite Hb, repeat_length.
  destruct n as [|[|n]]; try reflexivity.
  assert (E : (1 <? Z.of_nat (S (S n))) = true) by (apply Z.ltb_lt; lia).
  rewrite E. cbn [repeat replace_trailing_slashes].
  change (SLASH :: repeat SLASH n) with (repeat SLASH (S n)).
  rewrite all_slashes_repeat_true. reflexivity.
Qed.

(** ** More on [normalizeUris] *)

Lemma fold_obj_assign (ms acc : list (jsstring * json)) :
  fold_left (fun out kv => obj_assign out (fst kv) (snd kv)) ms acc
  = fold_left (fun o kv => obj_define o (fst kv) (snd kv)) (own_members ms) acc.
Proof.
  revert acc; induction ms as [|[k v] ms IH]; intros acc; [reflexivity|].
  cbn [fold_left own_members filter fst snd]. unfold obj_assign at 2.
  destruct (jsstring_eqb k (str "__proto__")); cbn [negb fold_left fst snd]; apply IH.
Qed.

Lemma own_members_map (g : json -> json) (ps : list (jsstring * json)) :
  own_members (map (fun kv => (fst kv, g (snd kv))) ps)
  = map (fun kv => (fst kv, g (snd kv))) (own_members ps).
Proof.
  unfold own_members. induction ps as [|[k v] ps IH]; [reflexivity|].
  cbn [map filter fst snd].
  destruct (jsstring_eqb k (str "__proto__")); cbn [negb map fst snd]; congruence.
Qed.

Lemma map_fst_values (g : json -> json) (ps : list (jsstring * json)) :
  map fst (map (fun kv => (fst kv, g (snd kv))) ps) = map fst ps.
Proof. rewrite map_map. reflexivity. Qed.

Lemma keys_ordered_own_members (ps : list (jsstring * json)) :
  keys_ordered (map fst ps) -> keys_ordered (map fst (own_members ps)).
Proof.
  induction ps as [|[k v] ps IH]; intros H; [exact I|].
  cbn [map fst keys_ordered] in H. destruct H as (Hf & Hn & Ho).
  assert (Hin : forall x, In x (map fst (own_members ps)) -> In x (map fst ps)).
  { intros x Hx. apply in_map_iff in Hx as (kv & <- & Hkv).
    apply filter_In in Hkv as [Hkv _]. apply in_map. exact Hkv. }
  cbn [own_members filter fst].
  destruct (jsstring_eqb k (str "__proto__")); cbn [negb]; [apply IH; exact Ho|].
  cbn [map fst keys_ordered]. split; [|split].
  - apply Forall_forall. intros x Hx. rewrite Forall_forall in Hf. auto.
  - intros Hx. apply Hn. auto.
  - apply IH. exact Ho.
Qed.

Lemma normalizeUris_members (ps : list (jsstring * json)) :
  keys_ordered (map fst ps) ->
  normalizeUris (JObj ps)
  = JObj (map (fun kv => (fst kv, normalizeUris (snd kv))) (own_members ps)).
Proof.
  intros H. cbn [normalizeUris]. f_equal.
  rewrite fold_obj_assign, own_members_map.
  rewrite fold_obj_define; [reflexivity|].
  cbn [app]. rewrite map_fst_values. apply keys_ordered_own_members. exact H.
Qed.

(** X4: [normalizeUris] on an object as [JSON.parse] returns it (each key
    once, in property order): the members stay in their order, every key
    as it is and every value normalized, except that a member named
    [__proto__] is dropped: the assignment [out[k] = ...] goes to the
    setter of [Object.prototype] for that key and adds no property. *)
Theorem X4_normalizeUris_object (ps : list (jsstring * json)) :
  keys_ordered (map fst ps) ->
  normalizeUris (JObj ps)
  = JObj (map (fun kv => (fst kv, normalizeUris (snd kv))) (own_members ps)) /\
  (forall k, k <> str "__proto__" ->
     match normalizeUris (JObj ps) with
     | JObj out => lookup k out = option_map normalizeUris (lookup k ps)
     | _ => False
     end) /\
  match normalizeUris (JObj ps) with
  | JObj out => lookup (str "__proto__") out = None
  | _ => False
  end.
Proof.
  intros H. rewrite normalizeUris_members by exact H. split; [reflexivity|].
  clear H. split.
  - intros k Hk. induction ps as [|[k' v] ps IH]; [reflexivity|].
    cbn [own_members filter fst lookup].
    destruct (jsstring_eqb k' (str "__proto__")) eqn:E; cbn [negb].
    + apply jsstring_eqb_eq in E. subst k'.
      apply jsstring_eqb_neq in Hk. rewrite Hk. exact IH.
    + cbn [map lookup fst snd]. destruct (jsstring_eqb k k'); [reflexivity | exact IH].
  - induction ps as [|[k' v] ps IH]; [reflexivity|].
    cbn [own_members filter fst].
    destruct (jsstring_eqb k' (str "__proto__")) eqn:E; cbn [negb]; [exact IH|].
    cbn [map lookup fst snd].
    assert (E' : jsstring_eqb (str "__proto__") k' = false).
    { apply jsstring_eqb_neq. apply jsstring_eqb_neq in E. congruence. }
    rewrite E'. exact IH.
Qed.

Lemma X4_normalizeUris_object_witness :
  normalizeUris
    (JObj [(str "uri", JStr (str "file://C:\a\")); (str "__proto__", JObj []);
           (str "n", JNull)])
  = JObj [(str "uri", JStr (str "file:///C:/a")); (str "n", JNull)].
Proof.
  assert (H : keys_ordered (map fst [(str "uri", JStr (str "file://C:\a\"));
                                     (str "__proto__", JObj []); (str "n", JNull)])).
  { cbn [map fst keys_ordered]. repeat split; try (repeat constructor; fail).
    - intros [H|[H|[]]]; discriminate H.
    - intros [H|[]]; discriminate H.
    - intros []. }
  destruct (X4_normalizeUris_object _ H) as [E _].
  rewrite E. vm_compute. reflexivity.
Defined.

(** *** A value without file URIs passes unchanged *)

(** X5: a message in which no string starts with [file://] and no member is
    named [__proto__] comes out of [normalizeUris] as it went in, keys
    that look like file URIs included: only values are rewritten. *)
Theorem X5_normalizeUris_unchanged (v : json) :
  json_valid v -> uri_free v = true -> normalizeUris v = v.
Proof.
  induction v as [ |b|n|s|xs IH|ps IH] using json_induction; intros Hv Hu;
    try reflexivity.
  - cbn [uri_free] in Hu. cbn [normalizeUris].
    destruct (startsWith s (str "file://")); [discriminate | reflexivity].
  - cbn [normalizeUris uri_free] in *. f_equal.
    apply json_valid_arr in Hv.
    induction xs as [|x xs IHxs]; [reflexivity|].
    cbn [forallb] in Hu. apply andb_true_iff in Hu as [Hx Hu].
    inversion IH; subst. inversion Hv; subst.
    cbn [map]. f_equal; auto.
  - apply json_valid_obj in Hv as [Ho Hm].
    rewrite normalizeUris_members by exact Ho. f_equal.
    cbn [uri_free] in Hu. clear Ho.
    induction ps as [|[k x] ps IHps]; [reflexivity|].
    cbn [forallb fst snd] in Hu.
    apply andb_true_iff in Hu as [Hkx Hu]. apply andb_true_iff in Hkx as [Hk Hx].
    inversion IH; subst. inversion Hm as [|? ? [_ Hvx] Hm']; subst.
    cbn [own_members filter fst]. rewrite Hk.
    cbn [map fst snd] in *. f_equal; [f_equal; auto|].
    apply IHps; auto.
Qed.

Lemma X5_normalizeUris_unchanged_witness :
  normalizeUris
    (JObj [(str "file://key\", JStr (str "http://host/a\"));
           (str "args", JArr [JNull; JBool true])])
  = JObj [(str "file://key\", JStr (str "http://host/a\"));
          (str "args", JArr [JNull; JBool true])].
Proof.
  apply X5_normalizeUris_unchanged; [|vm_compute; reflexivity].
  apply json_valid_obj. split.
  - cbn [map fst keys_ordered]. repeat split; try (repeat constructor; fail).
    + intros [H|[]]; discriminate H.
    + intros [].
  - repeat constructor; cbn; try lia.
Defined.

(** *** Idempotence *)

Lemma obj_define_Forall (R : jsstring * json -> Prop)
  (ps : list (jsstring * json)) (k : jsstring) (v : json) :
  Forall R ps -> R (k, v) -> Forall R (obj_define ps k v).
Proof.
  intros Hps Hkv. unfold obj_define. destruct (has_key k ps).
  - induction Hps as [|[k' v'] ps Hk' Hps IH]; [constructor|].
    cbn [replace_value]. destruct (jsstring_eqb k k') eqn:E.
    + apply jsstring_eqb_eq in E. subst k'. constructor; auto.
    + constructor; auto.
  - destruct (array_index k) as [i|].
    + apply (Permutation_Forall (Permutation_sym (insert_index_perm i k v ps))).
      constructor; auto.
    + apply Forall_app. split; auto.
Qed.

Lemma obj_define_keys_ordered (ps : list (jsstring * json)) (k : jsstring) (v : json) :
  keys_ordered (map fst ps) -> keys_ordered (map fst (obj_define ps k v)).
Proof.
  intros Ho. unfold obj_define. destruct (has_key k ps) eqn:E.
  - rewrite replace_value_keys. exact Ho.
  - assert (Hn : ~ In k (map fst ps)).
    { intros H. apply has_key_In in H. congruence. }
    destruct (array_index k) as [i|] eqn:Ei.
    + apply insert_index_ordered; auto.
    + rewrite map_app. apply keys_ordered_append; auto.
Qed.

Lemma fold_obj_define_Forall (R : jsstring * json -> Prop)
  (ms acc : list (jsstring * json)) :
  Forall R ms -> Forall R acc -> keys_ordered (map fst acc) ->
  let out := fold_left (fun o kv => obj_define o (fst kv) (snd kv)) ms acc in
  Forall R out /\ keys_ordered (map fst out).
Proof.
  intros Hms. revert acc. induction Hms as [|[k v] ms Hkv Hms IH]; intros acc Ha Ho.
  - split; assumption.
  - cbn [fold_left fst snd]. apply IH.
    + apply obj_define_Forall; auto.
    + apply obj_define_keys_ordered; auto.
Qed.

(** The object [normalizeUris] builds, whatever the object it reads. *)
Lemma normalizeUris_built (R : jsstring * json -> Prop) (ps : list (jsstring * json)) :
  Forall (fun kv => R (fst kv, normalizeUris (snd kv))) (own_members ps) ->
  exists out,
    normalizeUris (JObj ps) = JObj out /\ Forall R out /\ keys_ordered (map fst out).
Proof.
  intros H. cbn [normalizeUris]. rewrite fold_obj_assign, own_members_map.
  eexists. split; [reflexivity|].
  apply fold_obj_define_Forall; [|constructor | exact I].
  apply Forall_map. exact H.
Qed.

Lemma own_members_all (ps : list (jsstring * json)) :
  Forall (fun kv => jsstring_eqb (fst kv) (str "__proto__") = false) ps ->
  own_members ps = ps.
Proof.
  induction 1 as [|kv ps Hkv Hps IH]; [reflexivity|].
  cbn [own_members filter]. rewrite Hkv. cbn [negb]. f_equal. exact IH.
Qed.

Lemma normalizeUris_again (v : json) :
  normalizeUris (normalizeUris v) = normalizeUris v.
Proof.
  induction v as [ |b|n|s|xs IH|ps IH] using json_induction; try reflexivity.
  - cbn [normalizeUris]. f_equal.
    destruct (startsWith s (str "file://")) eqn:E.
    + rewrite (normalizeFileUri_path_steps s E).
      rewrite startsWith_file_prefix.
      rewrite <- (normalizeFileUri_path_steps s E).
      apply normalizeFileUri_again.
    + rewrite E. reflexivity.
  - cbn [normalizeUris]. f_equal. rewrite map_map. apply map_ext_in.
    intros x Hx. rewrite Forall_forall in IH. auto.
  - set (R := fun kv : jsstring * json =>
                jsstring_eqb (fst kv) (str "__proto__") = false /\
                normalizeUris (snd kv) = snd kv).
    destruct (normalizeUris_built R ps) as (out & E & HR & Ho).
    { apply Forall_forall. intros [k x] Hkx. unfold R. cbn [fst snd].
      apply filter_In in Hkx as [Hin Hk]. cbn [fst] in Hk.
      split; [destruct (jsstring_eqb k _); [discriminate | reflexivity]|].
      rewrite Forall_forall in IH. apply (IH (k, x) Hin). }
    rewrite E. rewrite normalizeUris_members by exact Ho. f_equal.
    rewrite own_members_all.
    + clear E Ho. induction HR as [|[k x] out [_ Hx] HR IHout]; [reflexivity|].
      cbn [map fst snd] in *. rewrite Hx, IHout. reflexivity.
    + apply Forall_forall. intros kv Hkv. rewrite Forall_forall in HR.
      apply (HR kv Hkv).
Qed.

Lemma uris_normal_arr (xs : list json) :
  uris_normal (JArr xs) <-> Forall uris_normal xs.
Proof.
  cbn [uris_normal]. induction xs as [|x xs IH].
  - split; [constructor | exact (fun _ => I)].
  - split.
    + intros [H1 H2]. constructor; [exact H1 | apply IH; exact H2].
    + intros H. inversion H; subst. split; [assumption | apply IH; assumption].
Qed.

Lemma uris_normal_obj (ps : list (jsstring * json)) :
  uris_normal (JObj ps)
  <-> Forall (fun kv => fst kv <> str "__proto__" /\ uris_normal (snd kv)) ps.
Proof.
  cbn [uris_normal]. induction ps as [|kv ps IH].
  - split; [constructor | exact (fun _ => I)].
  - split.
    + intros [H1 H2]. constructor; [exact H1 | apply IH; exact H2].
    + intros H. inversion H; subst. split; [assumption | apply IH; assumption].
Qed.

(** X6: [normalizeUris] is idempotent, on every value: a message that
    has been normalized is not changed by normalizing it again.  What it
    returns is in normal form throughout: every string in it, at any
    depth, is a fixed point of [normalizeFileUri], and no object in it
    has a member named [__proto__]. *)
Theorem X6_normalizeUris_idempotent (v : json) :
  normalizeUris (normalizeUris v) = normalizeUris v /\
  uris_normal (normalizeUris v).
Proof.
  split; [apply normalizeUris_again|].
  induction v as [ |b|n|s|xs IH|ps IH] using json_induction; try exact I.
  - cbn [normalizeUris uris_normal].
    destruct (startsWith s (str "file://")) eqn:E.
    + apply normalizeFileUri_again.
    + unfold normalizeFileUri. rewrite E. reflexivity.
  - cbn [normalizeUris]. apply uris_normal_arr. apply Forall_map. exact IH.
  - destruct (normalizeUris_built
                (fun kv => fst kv <> str "__proto__" /\ uris_normal (snd kv)) ps)
      as (out & E & HR & _).
    { apply Forall_forall. intros [k x] Hkx. cbn [fst snd].
      apply filter_In in Hkx as [Hin Hk]. cbn [fst] in Hk. split.
      - intros ->. rewrite jsstring_eqb_refl in Hk. discriminate.
      - rewrite Forall_forall in IH. apply (IH (k, x) Hin). }
    rewrite E. apply uris_normal_obj. exact HR.
Qed.

(** *** Validity *)

Lemma replace_file_prefix_suffix (s : jsstring) :
  startsWith s (str "file://") = true ->
  exists p, s = p ++ replace_file_prefix s.
Proof.
  intros H. unfold startsWith in H.
  destruct (strip_prefix (str "file://") s) as [r|] eqn:E; [|discriminate].
  apply strip_prefix_app in E. subst s.
  destruct r as [|c r]; [exists (str "file://"); reflexivity|].
  destruct (Z.eq_dec c SLASH) as [->|Hc].
  - exists (str "file:///"). reflexivity.
  - exists (str "file://"). rewrite replace_file_prefix_two; [reflexivity|].
    intros t [= -> _]. apply Hc. reflexivity.
Qed.

Lemma path_steps_valid (p : jsstring) : string_valid p -> string_valid (path_steps p).
Proof.
  intros H. unfold path_steps.
  assert (Hb : string_valid (replace_backslashes p)).
  { unfold replace_backslashes. apply Forall_map.
    eapply Forall_impl; [|exact H]. intros c Hc. cbv beta.
    destruct (c =? BACKSLASH); [unfold unit_valid, SLASH; lia | exact Hc]. }
  destruct (1 <? _); [|exact Hb].
  destruct (replace_trailing_slashes_spec (replace_backslashes p)) as (n & Hn & _).
  rewrite Hn in Hb. apply Forall_app in Hb as [Hb _]. exact Hb.
Qed.

Lemma normalizeFileUri_valid (s : jsstring) :
  string_valid s -> string_valid (normalizeFileUri s).
Proof.
  intros H. destruct (startsWith s (str "file://")) eqn:E.
  - rewrite (normalizeFileUri_path_steps s E). apply Forall_app. split.
    + repeat constructor; unfold unit_valid; lia.
    + apply path_steps_valid.
      destruct (replace_file_prefix_suffix s E) as (p & Hp).
      rewrite Hp in H. apply Forall_app in H as [_ H]. exact H.
  - unfold normalizeFileUri. rewrite E. exact H.
Qed.

(** [normalizeUris] returns a value of the kind [JSON.parse] returns. *)
Lemma normalizeUris_valid (v : json) : json_valid v -> json_valid (normalizeUris v).
Proof.
  induction v as [ |b|n|s|xs IH|ps IH] using json_induction; intros Hv;
    try exact Hv.
  - cbn [normalizeUris json_valid] in *.
    destruct (startsWith s (str "file://")); [|exact Hv].
    apply normalizeFileUri_valid. exact Hv.
  - cbn [normalizeUris]. apply json_valid_arr. apply json_valid_arr in Hv.
    apply Forall_map. rewrite Forall_forall in *. auto.
  - apply json_valid_obj in Hv as [Ho Hm].
    destruct (normalizeUris_built member_valid ps) as (out & E & HR & Hout).
    { apply Forall_forall. intros [k x] Hkx.
      apply filter_In in Hkx as [Hin _].
      rewrite Forall_forall in IH, Hm. destruct (Hm _ Hin) as [Hk Hx].
      split; [exact Hk|]. apply (IH (k, x) Hin). exact Hx. }
    rewrite E. apply json_valid_obj. split; assumption.
Qed.

Lemma normalizeUris_finite (v : json) :
  json_finite v = true -> json_finite (normalizeUris v) = true.
Proof.
  induction v as [ |b|n|s|xs IH|ps IH] using json_induction; intros Hf;
    try exact Hf; try reflexivity.
  - cbn [normalizeUris json_finite] in *. rewrite forallb_forall in *.
    intros y Hy. apply in_map_iff in Hy as (x & <- & Hx).
    rewrite Forall_forall in IH. auto.
  - cbn [json_finite] in Hf. rewrite forallb_forall in Hf.
    destruct (normalizeUris_built (fun kv => json_finite (snd kv) = true) ps)
      as (out & E & HR & _).
    { apply Forall_forall. intros [k x] Hkx.
      apply filter_In in Hkx as [Hin _]. cbn [snd].
      rewrite Forall_forall in IH. apply (IH (k, x) Hin). apply (Hf (k, x) Hin). }
    rewrite E. cbn [json_finite]. apply forallb_forall.
    rewrite Forall_forall in HR. exact HR.
Qed.

(** *** What the server receives *)



(** ** More on the message parser *)

Section incomplete_frames.

Variable v : variant.
Variable dir : direction.
Variable forward : buffer -> list effect.
Variable transform : option (json -> json).
Variable intercept : option (json -> list effect * option bool).

Abbreviation qparser := (parser v dir forward transform intercept).

(** X8: nothing is written before a frame is complete.  Let [p] be the
    bytes received so far and [q] any bytes that follow.  If the first
    frame (or the first segment without [Content-Length]) of [p ++ q]
    reaches beyond [p], or [p ++ q] holds no complete one at all, then
    the parser of any direction and configuration, called on [p], has
    no effect and keeps all of [p]. *)
Theorem X8_incomplete_frame_held (p q : buffer) :
  match locate (p ++ q) with
  | NeedMore => True
  | Malformed raw _ => (length p < length raw)%nat
  | Framed raw _ _ => (length p < length raw)%nat
  end ->
  locate p = NeedMore /\ qparser [] p = ([], p).
Proof.
  intros H.
  assert (E : locate p = NeedMore).
  { pose proof (locate_shrinks p) as Hs.
    destruct (locate p) as [|raw rest|raw body rest] eqn:E; [reflexivity| |].
    - rewrite (locate_app_Malformed _ q _ _ E) in H.
      destruct Hs as [-> _]. rewrite length_app in H. lia.
    - rewrite (locate_app_Framed _ q _ _ _ E) in H.
      destruct Hs as [-> _]. rewrite length_app in H. lia. }
  split; [exact E|].
  unfold parser. cbn [app]. destruct (length p); [reflexivity|].
  cbn [drain]. unfold step. rewrite E. reflexivity.
Qed.

End incomplete_frames.

Lemma X8_incomplete_frame_held_witness :
  parser Typescript ServerToClient (fun d => [WriteStdout d]) None None []
         (bytes "Content-Length: 2" ++ CRLFCRLF ++ bytes "{")
  = ([], bytes "Content-Length: 2" ++ CRLFCRLF ++ bytes "{").
Proof.
  apply (X8_incomplete_frame_held Typescript ServerToClient (fun d => [WriteStdout d])
           None None (bytes "Content-Length: 2" ++ CRLFCRLF ++ bytes "{") (bytes "}")).
  vm_compute. lia.
Defined.

(** *** What the parsers write, and where *)

Section effects_of_a_kind.

Variable P : effect -> Prop.
Variable v : variant.
Variable dir : direction.
Variable forward : buffer -> list effect.
Variable transform : option (json -> json).
Variable intercept : option (json -> list effect * option bool).

Hypothesis P_log : forall d m, Forall P (log v d m).
Hypothesis P_forward : forall data, Forall P (forward data).
Hypothesis P_intercept :
  forall icpt msg, intercept = Some icpt -> Forall P (fst (icpt msg)).

Lemma handle_frame_all (raw body : buffer) :
  Forall P (handle_frame v dir forward transform intercept raw body).
Proof.
  unfold handle_frame, raw_fallback, reencode.
  destruct (JSON_parse _) as [parsed|].
  - apply Forall_app. split; [apply P_log|].
    destruct intercept as [icpt|] eqn:Ei; [|apply P_forward].
    pose proof (P_intercept icpt
                  (match transform with Some f => f parsed | None => parsed end)
                  eq_refl) as Hi.
    destruct (icpt _) as [eff [[|]|]]; cbn [fst] in Hi; auto;
      repeat (apply Forall_app; split); auto.
  - apply Forall_app. split; auto.
Qed.

Lemma drain_all (n : nat) (buf : buffer) :
  Forall P (fst (drain v dir forward transform intercept n buf)).
Proof.
  revert buf; induction n as [|n IH]; intros buf; cbn [drain]; [constructor|].
  unfold step.
  destruct (locate buf) as [|raw rest|raw body rest]; cbn [fst]; [constructor| |].
  - specialize (IH rest). destruct (drain _ _ _ _ _ n rest). cbn [fst] in *.
    apply Forall_app. split; auto.
  - specialize (IH rest). destruct (drain _ _ _ _ _ n rest). cbn [fst] in *.
    apply Forall_app. split; auto using handle_frame_all.
Qed.

End effects_of_a_kind.

Lemma to_client_none (effs : list effect) :
  Forall (fun e => match e with WriteStdout _ => False | _ => True end) effs ->
  to_client effs = [].
Proof.
  induction 1 as [|e effs He Heffs IH]; [reflexivity|].
  unfold to_client in *. cbn [flat_map]. rewrite IH.
  destruct e; try reflexivity. contradiction.
Qed.

Lemma to_server_all (Q : buffer -> Prop) (effs : list effect) :
  Forall (fun e => match e with WriteChildStdin d => Q d | _ => True end) effs ->
  Forall Q (to_server effs).
Proof.
  induction 1 as [|e effs He Heffs IH]; [constructor|].
  unfold to_server in *. cbn [flat_map].
  destruct e; try exact IH. constructor; assumption.
Qed.

Lemma log_all (P : effect -> Prop) (v : variant) (d : direction) (m : json) :
  (forall d m, P (LogWrite d m)) -> Forall P (log v d m).
Proof. intros H. unfold log. destruct (logStream v); repeat constructor. apply H. Qed.

Lemma client_parser_to_client (v : variant) (buf chunk : buffer) :
  to_client (fst (parseFromClient v buf chunk)) = [].
Proof.
  apply to_client_none. unfold parseFromClient, parser. apply drain_all.
  - intros d m. apply log_all. intros; exact I.
  - intros data. repeat constructor.
  - discriminate.
Qed.

Lemma typescript_server_parser_to_server (buf chunk : buffer) :
  to_server (fst (parseFromServer Typescript buf chunk)) = [].
Proof.
  assert (H : Forall (fun d => False)
                (to_server (fst (parseFromServer Typescript buf chunk)))).
  { apply to_server_all. unfold parseFromServer, parser. apply drain_all.
    - intros d m. apply log_all. intros; exact I.
    - intros data. repeat constructor.
    - discriminate. }
  destruct (to_server _) as [|d l]; [reflexivity|]. inversion H; contradiction.
Qed.

(** X9: the two directions do not leak into each other.  Whatever the
    client sends, in whatever chunks, the client-to-server parser writes
    nothing to the client's side (standard output).  In the other
    direction the typescript script writes nothing to the server, and all
    the csharp script writes to the server from there are its own replies
    [{jsonrpc: "2.0", id, result: null}]: no byte of a server message
    flows back to the server. *)
Theorem X9_directions_separate (v : variant) (debug : bool) (buf chunk : buffer) :
  to_client (fst (parseFromClient v buf chunk)) = [] /\
  to_server (fst (parseFromServer Typescript buf chunk)) = [] /\
  Forall (fun d => exists id, d = reply_frame id)
         (to_server (fst (parseFromServer (Csharp debug) buf chunk))).
Proof.
  split; [apply client_parser_to_client|].
  split; [apply typescript_server_parser_to_server|].
  apply to_server_all. unfold parseFromServer, parser. apply drain_all.
  - intros d m. apply log_all. intros; exact I.
  - intros data. repeat constructor.
  - intros icpt msg [= <-]. unfold intercept.
    destruct (get_member msg (str "id")) as [[id|]|]; cbn [fst]; try constructor.
    destruct (get_member msg (str "method")) as [method|]; cbn [fst]; try constructor.
    destruct (set_has _ _); cbn [fst]; try constructor.
    apply Forall_app. split.
    + apply log_all. intros; exact I.
    + unfold sendToServer. constructor; [|constructor].
      exists id. unfold reply_frame. reflexivity.
Qed.

(** *** One write per turn *)

Lemma writes_app (a b : list effect) : writes (a ++ b) = (writes a + writes b)%nat.
Proof. unfold writes. rewrite to_client_app, to_server_app, !length_app. lia. Qed.

Lemma writes_log (v : variant) (d : direction) (m : json) : writes (log v d m) = 0%nat.
Proof. unfold writes. rewrite to_client_log, to_server_log. reflexivity. Qed.

Lemma writes_intercept (v : variant) (msg : json) :
  writes (fst (intercept v msg))
  = match snd (intercept v msg) with Some true => 1%nat | _ => 0%nat end.
Proof.
  unfold intercept.
  destruct (get_member msg (str "id")) as [[id|]|]; try reflexivity.
  destruct (get_member msg (str "method")) as [method|]; try reflexivity.
  destruct (set_has _ _); try reflexivity.
  cbn [fst snd]. rewrite writes_app, writes_log. reflexivity.
Qed.

(** X10: every turn of the loop that takes a frame or a segment off the
    buffer writes exactly one buffer: the client-to-server parser one to
    the child and none to the client; the server-to-client parser one in
    all, to the client or (a reply of the csharp script) to the child.
    No frame is dropped without a write and none is written twice. *)
Theorem X10_one_write_per_turn (v : variant) (buf : buffer) :
  match step v ClientToServer (fun data => [WriteChildStdin data])
             (Some normalizeUris) None buf with
  | Some (effs, _) => length (to_server effs) = 1%nat /\ to_client effs = []
  | None => locate buf = NeedMore
  end /\
  match step v ServerToClient (fun data => [WriteStdout data]) None
             (match v with Csharp _ => Some (intercept v) | Typescript => None end)
             buf with
  | Some (effs, _) => writes effs = 1%nat
  | None => locate buf = NeedMore
  end.
Proof.
  unfold step. destruct (locate buf) as [|raw rest|raw body rest];
    [split; reflexivity | repeat split; reflexivity |].
  split.
  - unfold handle_frame, raw_fallback, reencode.
    destruct (JSON_parse _) as [parsed|];
      rewrite to_server_app, to_client_app, to_server_log, to_client_log;
      split; reflexivity.
  - unfold handle_frame, raw_fallback, reencode.
    destruct (JSON_parse _) as [parsed|];
      [|rewrite writes_app, writes_log; reflexivity].
    rewrite writes_app, writes_log. destruct v as [debug|]; [|reflexivity].
    pose proof (writes_intercept (Csharp debug) parsed) as Hw.
    destruct (intercept (Csharp debug) parsed) as [eff [[|]|]]; cbn [fst snd] in Hw.
    + exact Hw.
    + rewrite writes_app, Hw. reflexivity.
    + rewrite !writes_app, writes_log, Hw. reflexivity.
Qed.

(** *** Logging *)

(** X11: without [DEBUG] the csharp script opens no log stream, and then no
    handler, on any event and in any state, writes to a log or ends
    one. *)
Theorem X11_no_log_without_debug (p : proxy) (ev : event) :
  existsb is_log (fst (handle (Csharp false) p ev)) = false.
Proof.
  assert (HF : forall l, Forall (fun e => is_log e = false) l ->
                         existsb is_log l = false).
  { induction 1 as [|e l He Hl IH]; [reflexivity|].
    cbn [existsb]. rewrite He, IH. reflexivity. }
  destruct ev; try reflexivity.
  - cbn [handle].
    assert (H : Forall (fun e => is_log e = false)
                  (fst (parseFromClient (Csharp false) (from_client p) chunk))).
    { unfold parseFromClient, parser. apply drain_all.
      - intros d m. constructor.
      - intros data. repeat constructor.
      - discriminate. }
    destruct (parseFromClient _ _ _) as [eff b]. apply HF. exact H.
  - cbn [handle].
    assert (H : Forall (fun e => is_log e = false)
                  (fst (parseFromServer (Csharp false) (from_server p) chunk))).
    { unfold parseFromServer, parser. apply drain_all.
      - intros d m. constructor.
      - intros data. repeat constructor.
      - intros icpt msg [= <-]. unfold intercept.
        destruct (get_member msg (str "id")) as [[id|]|]; cbn [fst]; try constructor.
        destruct (get_member msg (str "method")) as [method|]; cbn [fst];
          try constructor.
        destruct (set_has _ _); cbn [fst]; repeat constructor. }
    destruct (parseFromServer _ _ _) as [eff b]. apply HF. exact H.
  - cbn [handle fst logStream app]. unfold done.
    destruct signal; reflexivity.
Qed.

(** ** Frames the proxy has written *)

(** Both zeros are written ["0"], so the sign of zero does not show in
    the text of a value. *)
Lemma JSON_stringify_unsigned_zero (v : json) :
  JSON_stringify (json_unsigned_zero v) = JSON_stringify v.
Proof.
  induction v as [ |b|n|s|xs IH|ps IH] using json_induction; try reflexivity.
  - destruct n as [neg m e|neg]; [|reflexivity].
    cbn [json_unsigned_zero number_unsigned_zero].
    destruct (m =? 0) eqn:E; [|reflexivity].
    cbn [JSON_stringify]. unfold number_toString. rewrite E. reflexivity.
  - cbn [json_unsigned_zero JSON_stringify]. do 3 f_equal.
    rewrite map_map. apply map_ext_in. intros x Hx.
    rewrite Forall_forall in IH. auto.
  - cbn [json_unsigned_zero JSON_stringify]. do 3 f_equal.
    rewrite map_map. apply map_ext_in. intros [k x] Hx. cbn [fst snd].
    rewrite Forall_forall in IH. specialize (IH (k, x) Hx). cbn [snd] in IH.
    rewrite IH. reflexivity.
Qed.

(** *** [normalizeUris] does not look at numbers *)

Lemma has_key_values (g : json -> json) (k : jsstring) (ps : list (jsstring * json)) :
  has_key k (map (fun kv => (fst kv, g (snd kv))) ps) = has_key k ps.
Proof.
  induction ps as [|[k' x] ps IH]; [reflexivity|].
  cbn [map has_key fst snd]. rewrite IH. reflexivity.
Qed.

Lemma obj_define_values (g : json -> json) (ps : list (jsstring * json))
  (k : jsstring) (x : json) :
  obj_define (map (fun kv => (fst kv, g (snd kv))) ps) k (g x)
  = map (fun kv => (fst kv, g (snd kv))) (obj_define ps k x).
Proof.
  unfold obj_define. rewrite has_key_values. destruct (has_key k ps).
  - induction ps as [|[k' x'] ps IH]; [reflexivity|].
    cbn [map replace_value fst snd].
    destruct (jsstring_eqb k k'); cbn [map fst snd]; [reflexivity|].
    rewrite IH. reflexivity.
  - destruct (array_index k) as [i|].
    + induction ps as [|[k' x'] ps IH]; [reflexivity|].
      cbn [map insert_index fst snd].
      destruct (array_index k') as [j|]; [|reflexivity].
      destruct (j <? i); cbn [map fst snd]; [|reflexivity].
      rewrite IH. reflexivity.
    + rewrite map_app. reflexivity.
Qed.

Lemma fold_obj_assign_values (g : json -> json) (ms acc : list (jsstring * json)) :
  fold_left (fun out kv => obj_assign out (fst kv) (snd kv))
            (map (fun kv => (fst kv, g (snd kv))) ms)
            (map (fun kv => (fst kv, g (snd kv))) acc)
  = map (fun kv => (fst kv, g (snd kv)))
        (fold_left (fun out kv => obj_assign out (fst kv) (snd kv)) ms acc).
Proof.
  revert acc; induction ms as [|[k x] ms IH]; intros acc; [reflexivity|].
  cbn [map fold_left fst snd]. unfold obj_assign at 2 4.
  destruct (jsstring_eqb k (str "__proto__")); [apply IH|].
  rewrite obj_define_values. apply IH.
Qed.

Lemma normalizeUris_unsigned_zero (v : json) :
  normalizeUris (json_unsigned_zero v) = json_unsigned_zero (normalizeUris v).
Proof.
  induction v as [ |b|n|s|xs IH|ps IH] using json_induction; try reflexivity.
  - cbn [json_unsigned_zero normalizeUris]. f_equal.
    rewrite !map_map. apply map_ext_in. intros x Hx.
    rewrite Forall_forall in IH. auto.
  - cbn [json_unsigned_zero normalizeUris]. f_equal.
    rewrite map_map. cbn [fst snd].
    rewrite <- (fold_obj_assign_values json_unsigned_zero _ []).
    f_equal. rewrite map_map. cbn [fst snd].
    apply map_ext_in. intros [k x] Hx. cbn [fst snd].
    rewrite Forall_forall in IH. specialize (IH (k, x) Hx). cbn [snd] in IH.
    rewrite IH. reflexivity.
Qed.

(** *** A second pass changes nothing *)

Section own_frames.

Variable v : variant.
Variable dir : direction.
Variable forward : buffer -> list effect.
Variable transform : option (json -> json).

Abbreviation ostep := (step v dir forward transform None).
Abbreviation oparser := (parser v dir forward transform None).

Lemma step_own_frame (x : json) (more : buffer) :
  json_valid x -> json_finite x = true ->
  transformed transform (json_unsigned_zero x) = json_unsigned_zero x ->
  ostep (frame_of x ++ more)
  = Some (log v dir (json_unsigned_zero x) ++ forward (frame_of x), more).
Proof.
  intros Hv Hf Ht. unfold step, frame_of.
  rewrite locate_encode_frame. unfold handle_frame, reencode.
  rewrite decode_encode by assumption.
  unfold transformed in Ht. rewrite Ht.
  rewrite JSON_stringify_unsigned_zero. reflexivity.
Qed.

(** A buffer made of complete items is drained item by item. *)
Lemma parser_items (A : Type) (item : A -> buffer) (effects : A -> list effect)
  (xs : list A) :
  (forall more,
      Forall (fun x => ostep (item x ++ more) = Some (effects x, more)) xs) ->
  oparser [] (concat (map item xs)) = (flat_map effects xs, []).
Proof.
  induction xs as [|x xs IH]; intros H; [reflexivity|].
  cbn [map concat flat_map].
  pose proof (H (concat (map item xs))) as Hs.
  inversion Hs as [|? ? Hs1 _]; subst.
  remember (item x ++ concat (map item xs)) as chunk eqn:Ec.
  rewrite (parser_step v dir forward transform None [] chunk _ _ Hs1).
  assert (E : oparser (concat (map item xs)) []
              = oparser [] (concat (map item xs))).
  { unfold parser. rewrite app_nil_r. reflexivity. }
  rewrite E, IH; [reflexivity|].
  intros more. specialize (H more). inversion H; assumption.
Qed.

Lemma parser_own_frames (xs : list json) :
  Forall (fun x => json_valid x /\ json_finite x = true /\
                   transformed transform (json_unsigned_zero x) = json_unsigned_zero x) xs ->
  oparser [] (concat (map frame_of xs))
  = (flat_map (fun x => log v dir (json_unsigned_zero x) ++ forward (frame_of x)) xs,
     []).
Proof.
  intros H.
  apply (parser_items json frame_of
           (fun x => log v dir (json_unsigned_zero x) ++ forward (frame_of x))).
  intros more. eapply Forall_impl; [|exact H].
  intros x (Hv & Hf & Ht). apply step_own_frame; assumption.
Qed.

End own_frames.

Lemma to_server_frames (v : variant) (d : direction) (xs : list json) :
  to_server (flat_map (fun x => log v d (json_unsigned_zero x)
                                ++ [WriteChildStdin (frame_of x)]) xs)
  = map frame_of xs.
Proof.
  induction xs as [|x xs IH]; [reflexivity|].
  cbn [flat_map map]. rewrite !to_server_app, to_server_log, IH. reflexivity.
Qed.

Lemma to_client_frames (v : variant) (d : direction) (xs : list json) :
  to_client (flat_map (fun x => log v d (json_unsigned_zero x)
                                ++ [WriteStdout (frame_of x)]) xs)
  = map frame_of xs.
Proof.
  induction xs as [|x xs IH]; [reflexivity|].
  cbn [flat_map map]. rewrite !to_client_app, to_client_log, IH. reflexivity.
Qed.

(** X12: what the proxy has written passes a proxy unchanged.  Take any
    values [JSON.parse] can return, without infinite numbers.  The frames
    the client-to-server parser writes for them (their normalized forms,
    re-serialized), sent through the client-to-server parser of either
    script, are written to the child byte for byte as they came, in the
    same order, and nothing stays in the buffer; so are, through the
    server-to-client parser of the typescript script, the frames written
    for the values as they are. *)
Theorem X12_own_output_passes_unchanged (v : variant) (xs : list json) :
  Forall json_valid xs -> forallb json_finite xs = true ->
  let sent := map (fun x => frame_of (normalizeUris x)) xs in
  let back := map frame_of xs in
  to_server (fst (parseFromClient v [] (concat sent))) = sent /\
  snd (parseFromClient v [] (concat sent)) = [] /\
  to_client (fst (parseFromServer Typescript [] (concat back))) = back /\
  snd (parseFromServer Typescript [] (concat back)) = [].
Proof.
  intros Hv Hf sent back.
  assert (Hc : parseFromClient v [] (concat sent)
               = (flat_map (fun x => log v ClientToServer (json_unsigned_zero x)
                                     ++ [WriteChildStdin (frame_of x)])
                           (map normalizeUris xs), [])).
  { unfold parseFromClient, sent. rewrite <- (map_map normalizeUris frame_of).
    apply (parser_own_frames v ClientToServer (fun data => [WriteChildStdin data])
             (Some normalizeUris)).
    apply Forall_map. rewrite forallb_forall in Hf. rewrite Forall_forall in *.
    intros x Hx. split; [|split].
    - apply normalizeUris_valid. auto.
    - apply normalizeUris_finite. auto.
    - unfold transformed.
      rewrite normalizeUris_unsigned_zero, normalizeUris_again. reflexivity. }
  assert (Hs : parseFromServer Typescript [] (concat back)
               = (flat_map (fun x => log Typescript ServerToClient (json_unsigned_zero x)
                                     ++ [WriteStdout (frame_of x)]) xs, [])).
  { unfold parseFromServer, back.
    apply (parser_own_frames Typescript ServerToClient (fun data => [WriteStdout data])
             None).
    rewrite forallb_forall in Hf. rewrite Forall_forall in *.
    intros x Hx. split; [|split]; auto. }
  rewrite Hc, Hs. cbn [fst snd].
  rewrite to_server_frames, to_client_frames.
  unfold sent. rewrite map_map. repeat split; reflexivity.
Qed.

Lemma X12_own_output_passes_unchanged_witness :
  let frames :=
    bytes "Content-Length: 18" ++ CRLFCRLF
    ++ bytes "[" ++ [x22] ++ bytes "file:///C:/a" ++ [x22] ++ bytes ",0]"
    ++ bytes "Content-Length: 4" ++ CRLFCRLF ++ bytes "null" in
  to_server (fst (parseFromClient (Csharp false) [] frames))
  = [bytes "Content-Length: 18" ++ CRLFCRLF
     ++ bytes "[" ++ [x22] ++ bytes "file:///C:/a" ++ [x22] ++ bytes ",0]";
     bytes "Content-Length: 4" ++ CRLFCRLF ++ bytes "null"].
Proof.
  intros frames.
  assert (Hv : Forall json_valid
                 [JArr [JStr (str "file://C:\a\"); JNum (NFinite true 0 (-1074))];
                  JNull]).
  { repeat constructor; cbn; lia. }
  destruct (X12_own_output_passes_unchanged (Csharp false) _ Hv eq_refl) as [H _].
  vm_compute in H. vm_compute. exact H.
Defined.

(** *** The reply to an intercepted request *)

Lemma lookup_member_valid (k : jsstring) (ps : list (jsstring * json)) (x : json) :
  Forall member_valid ps -> lookup k ps = Some x -> json_valid x.
Proof.
  induction 1 as [|[k' x'] ps [_ Hx] Hps IH]; [discriminate|].
  cbn [lookup]. destruct (jsstring_eqb k k'); [|exact IH].
  intros [= <-]. exact Hx.
Qed.

(** X13: the reply of the csharp script as the server reads it.  The frame
    written for an intercepted request is one complete frame in front of
    whatever follows it, and its body decodes to
    [{jsonrpc: "2.0", id, result: null}] with the [id] of the request
    (up to the sign of zero) when no number in the [id] is infinite; an
    [id] that is itself a number too large for a double comes back as
    [null]. *)
Theorem X13_reply_decodes (body more : buffer) (msg id : json) (m : jsstring) :
  JSON_parse (toString_utf8 body) = Some msg ->
  intercepted_request msg = Some (id, m) ->
  exists body',
    locate (reply_frame id ++ more) = Framed (reply_frame id) body' more /\
    (json_finite id = true ->
     JSON_parse (toString_utf8 body')
     = Some (JObj [(str "jsonrpc", JStr (str "2.0"));
                   (str "id", json_unsigned_zero id); (str "result", JNull)])) /\
    (forall neg, id = JNum (NInfinity neg) ->
     JSON_parse (toString_utf8 body')
     = Some (JObj [(str "jsonrpc", JStr (str "2.0"));
                   (str "id", JNull); (str "result", JNull)])).
Proof.
  intros Hp Hi. unfold reply_frame. eexists. split; [apply locate_encode_frame|]. split.
  - intros Hf.
    assert (Hid : json_valid id).
    { apply JSON_parse_valid in Hp. unfold intercepted_request in Hi.
      destruct msg as [ | | | | |ps]; try discriminate.
      apply json_valid_obj in Hp as [_ Hm].
      destruct (lookup (str "id") ps) as [id'|] eqn:E; [|discriminate].
      destruct (lookup (str "method") ps) as [[ | | |s| | ]|]; try discriminate.
      destruct (existsb _ _); [|discriminate].
      injection Hi as <- _. eapply lookup_member_valid; eauto. }
    rewrite decode_encode.
    + reflexivity.
    + apply json_valid_obj. split.
      * cbn [map fst keys_ordered]. repeat split; try (repeat constructor; fail).
        -- intros [H|[H|[]]]; discriminate H.
        -- intros [H|[]]; discriminate H.
        -- intros [].
      * repeat constructor; cbn [fst snd]; try exact Hid;
          repeat constructor; unfold unit_valid; lia.
    + cbn [json_finite forallb snd]. rewrite Hf. reflexivity.
  - intros neg ->. destruct neg; vm_compute; reflexivity.
Qed.

Lemma X13_reply_decodes_witness :
  exists body',
    locate (reply_frame (JStr (str "r1")) ++ bytes "Content-")
    = Framed (reply_frame (JStr (str "r1"))) body' (bytes "Content-") /\
    JSON_parse (toString_utf8 body')
    = Some (JObj [(str "jsonrpc", JStr (str "2.0"));
                  (str "id", JStr (str "r1")); (str "result", JNull)]).
Proof.
  assert (Hp : JSON_parse (toString_utf8 (skipn 22 registerCapability_frame))
               = Some (JObj [(str "id", JStr (str "r1"));
                             (str "method", JStr (str "client/registerCapability"))]))
    by (vm_compute; reflexivity).
  destruct (X13_reply_decodes _ (bytes "Content-") _ (JStr (str "r1"))
              (str "client/registerCapability") Hp eq_refl)
    as (body' & Hl & Hd & _).
  exists body'. split; [exact Hl|]. apply Hd. reflexivity.
Defined.

(** ** The log file *)

(** *** [JSON.stringify] writes no control character *)

Lemma digits_no_control (ds : jsstring) :
  forallb is_digit ds = true -> forallb no_control ds = true.
Proof.
  induction ds as [|c ds IH]; intros H; [reflexivity|].
  cbn [forallb] in *. apply andb_true_iff in H as [Hc H].
  rewrite IH by exact H. apply is_digit_bounds in Hc.
  unfold no_control. rewrite andb_true_r. apply Z.leb_le. lia.
Qed.

Lemma decimal_no_control (n : Z) : 0 <= n -> forallb no_control (decimal n) = true.
Proof. intros H. apply digits_no_control. apply decimal_spec. exact H. Qed.

Lemma format_decimal_no_control (s x : Z) :
  0 <= s -> forallb no_control (format_decimal s x) = true.
Proof.
  intros Hs. pose proof (decimal_no_control s Hs) as Hd.
  unfold format_decimal.
  set (ds := decimal s) in *. set (k := Z.of_nat (length ds)).
  assert (Hz : forall n, forallb no_control (zeros n) = true).
  { intros n. apply digits_no_control, zeros_digits. }
  destruct ((k <=? x + k) && (x + k <=? 21)).
  { rewrite forallb_app, Hd, Hz. reflexivity. }
  destruct ((0 <? x + k) && (x + k <=? 21)).
  { rewrite forallb_app. cbn [forallb].
    rewrite forallb_firstn, forallb_skipn by exact Hd. reflexivity. }
  destruct ((-6 <? x + k) && (x + k <=? 0)).
  { cbn [forallb]. rewrite forallb_app, Hz, Hd. reflexivity. }
  pose proof (decimal_no_control (Z.abs (x + k - 1)) (Z.abs_nonneg _)) as He.
  destruct ds as [|d [|d' ds']]; [reflexivity| |].
  - cbn [forallb] in *. rewrite He.
    apply andb_true_iff in Hd as [Hd _]. rewrite Hd.
    destruct (x + k - 1 <? 0); reflexivity.
  - cbn [forallb] in Hd. apply andb_true_iff in Hd as [Hd1 Hd].
    cbn [forallb]. rewrite forallb_app. cbn [forallb]. rewrite Hd1, He.
    cbn [forallb] in Hd. rewrite Hd.
    destruct (x + k - 1 <? 0); reflexivity.
Qed.

Lemma number_toString_no_control (neg : bool) (m e : Z) :
  number_canonical (NFinite neg m e) ->
  forallb no_control (number_toString neg m e) = true.
Proof.
  intros Hc. unfold number_toString. destruct (m =? 0) eqn:E; [reflexivity|].
  apply Z.eqb_neq in E.
  assert (Hm : 0 < m) by (destruct Hc; lia).
  destruct (shortest_decimal_correct m e Hc Hm) as [Hs _].
  destruct (shortest_decimal m e) as [s x]. simpl in Hs.
  rewrite forallb_app, format_decimal_no_control by lia.
  destruct neg; reflexivity.
Qed.

Lemma unicode_escape_no_control (c : Z) :
  unit_valid c -> forallb no_control (unicode_escape c) = true.
Proof.
  intros H. unfold unit_valid in H.
  assert (Hh : forall n, 0 <= n -> no_control (hex_digit n) = true).
  { intros n Hn. unfold hex_digit, no_control.
    destruct (n <? 10); apply Z.leb_le; lia. }
  unfold unicode_escape. cbn [forallb].
  rewrite !Hh by (Z.div_mod_to_equations; lia). reflexivity.
Qed.

Lemma quote_body_no_control (n : nat) :
  forall s, (length s <= n)%nat -> string_valid s ->
  forallb no_control (quote_body s) = true.
Proof.
  induction n as [|n IH]; intros s Hl Hv.
  - destruct s; [reflexivity | simpl in Hl; lia].
  - destruct s as [|c t]; [reflexivity|].
    inversion Hv as [|? ? Hc Ht]; subst.
    assert (IHt : forallb no_control (quote_body t) = true).
    { apply IH; auto. simpl in Hl. lia. }
    cbn [quote_body].
    repeat match goal with
           | |- context [if ?c =? ?k then _ else _] =>
               destruct (c =? k); [cbn [forallb]; rewrite IHt; reflexivity|]
           end.
    destruct (c <? 32) eqn:E32.
    { rewrite forallb_app, unicode_escape_no_control, IHt by exact Hc. reflexivity. }
    assert (Hcc : no_control c = true).
    { unfold no_control. apply Z.leb_le. apply Z.ltb_ge in E32. exact E32. }
    destruct (is_high_surrogate c).
    { destruct t as [|d t'].
      - apply unicode_escape_no_control. exact Hc.
      - destruct (is_low_surrogate d) eqn:El.
        + cbn [forallb]. rewrite Hcc.
          assert (Hd : no_control d = true).
          { unfold no_control. apply Z.leb_le.
            unfold is_low_surrogate in El. apply andb_true_iff in El as [El _].
            apply Z.leb_le in El. lia. }
          rewrite Hd. cbn [andb]. inversion Ht; subst.
          apply IH; auto. simpl in Hl. lia.
        + rewrite forallb_app, unicode_escape_no_control, IHt by exact Hc.
          reflexivity. }
    destruct (is_low_surrogate c).
    { rewrite forallb_app, unicode_escape_no_control, IHt by exact Hc. reflexivity. }
    cbn [forallb]. rewrite Hcc, IHt. reflexivity.
Qed.

Lemma JSON_quote_no_control (s : jsstring) :
  string_valid s -> forallb no_control (JSON_quote s) = true.
Proof.
  intros H. unfold JSON_quote. cbn [forallb]. rewrite forallb_app.
  rewrite (quote_body_no_control (length s)) by auto. reflexivity.
Qed.

Lemma join_comma_no_control (l : list jsstring) :
  Forall (fun s => forallb no_control s = true) l ->
  forallb no_control (join_comma l) = true.
Proof.
  induction l as [|a l IH]; intros H; [reflexivity|].
  inversion H as [|? ? Ha Hl]; subst.
  destruct l as [|b l]; [exact Ha|].
  change (join_comma (a :: b :: l)) with (a ++ 44 :: join_comma (b :: l)).
  rewrite forallb_app, Ha. cbn [forallb andb]. rewrite IH by exact Hl. reflexivity.
Qed.

Lemma JSON_stringify_no_control (v : json) :
  json_valid v -> forallb no_control (JSON_stringify v) = true.
Proof.
  induction v as [ |b|n|s|xs IH|ps IH] using json_induction; intros Hv.
  - reflexivity.
  - destruct b; reflexivity.
  - destruct n as [neg m e|neg]; [|reflexivity].
    apply number_toString_no_control. exact Hv.
  - apply JSON_quote_no_control. exact Hv.
  - cbn [JSON_stringify forallb]. rewrite forallb_app.
    rewrite join_comma_no_control; [reflexivity|].
    apply json_valid_arr in Hv. apply Forall_map.
    rewrite Forall_forall in *. auto.
  - cbn [JSON_stringify forallb]. rewrite forallb_app.
    rewrite join_comma_no_control; [reflexivity|].
    apply json_valid_obj in Hv as [_ Hm]. apply Forall_map.
    rewrite Forall_forall in *. intros [k x] Hkx. cbn [fst snd].
    destruct (Hm _ Hkx) as [Hk Hx]. cbn [fst snd] in *.
    rewrite forallb_app, JSON_quote_no_control by exact Hk.
    cbn [forallb andb]. apply (IH (k, x) Hkx). exact Hx.
Qed.

(** *** What is logged *)

Lemma str_valid (s : String.string) : string_valid (str s).
Proof.
  unfold str. apply Forall_map. apply Forall_forall. intros a _.
  pose proof (Ascii.N_ascii_bounded a). unfold unit_valid. lia.
Qed.

Section logged_messages.

Variable v : variant.
Variable dir : direction.
Variable forward : buffer -> list effect.
Variable transform : option (json -> json).
Variable intercept : option (json -> list effect * option bool).

Hypothesis forward_logs : forall data, Forall logs_valid (forward data).
Hypothesis transform_valid :
  forall f x, transform = Some f -> json_valid x -> json_valid (f x).
Hypothesis intercept_logs :
  forall icpt msg, intercept = Some icpt -> json_valid msg ->
                   Forall logs_valid (fst (icpt msg)).

Lemma log_logs_valid (d : direction) (m : json) :
  json_valid m -> Forall logs_valid (log v d m).
Proof. intros H. unfold log. destruct (logStream v); repeat constructor. exact H. Qed.

Lemma handle_frame_logs_valid (raw body : buffer) :
  Forall logs_valid (handle_frame v dir forward transform intercept raw body).
Proof.
  assert (Hraw : Forall logs_valid (raw_fallback v dir forward raw body)).
  { unfold raw_fallback. apply Forall_app. split; [|apply forward_logs].
    apply log_logs_valid. apply json_valid_obj. split.
    - cbn [map fst keys_ordered]. repeat split; try constructor. intros [].
    - constructor; [|constructor].
      split; [apply str_valid | apply toString_utf8_valid]. }
  unfold handle_frame, reencode.
  destruct (JSON_parse _) as [parsed|] eqn:Ep; [|exact Hraw].
  apply JSON_parse_valid in Ep.
  assert (Hv : json_valid (match transform with Some f => f parsed | None => parsed end)).
  { destruct transform as [f|] eqn:Et; [|exact Ep].
    apply (transform_valid f parsed eq_refl Ep). }
  apply Forall_app. split; [apply log_logs_valid; exact Hv|].
  destruct intercept as [icpt|] eqn:Ei; [|apply forward_logs].
  pose proof (intercept_logs icpt _ eq_refl Hv) as Hi.
  destruct (icpt _) as [eff [[|]|]]; cbn [fst] in Hi; auto;
    apply Forall_app; split; auto.
Qed.

Lemma drain_logs_valid (n : nat) (buf : buffer) :
  Forall logs_valid (fst (drain v dir forward transform intercept n buf)).
Proof.
  revert buf; induction n as [|n IH]; intros buf; cbn [drain]; [constructor|].
  unfold step.
  destruct (locate buf) as [|raw rest|raw body rest]; cbn [fst]; [constructor| |].
  - specialize (IH rest). destruct (drain _ _ _ _ _ n rest). cbn [fst] in *.
    apply Forall_app. split; auto.
  - specialize (IH rest). destruct (drain _ _ _ _ _ n rest). cbn [fst] in *.
    apply Forall_app. split; auto using handle_frame_logs_valid.
Qed.

End logged_messages.

Lemma get_member_valid (msg : json) (k : jsstring) (x : json) :
  json_valid msg -> get_member msg k = Some (Some x) -> json_valid x.
Proof.
  intros Hv. destruct msg as [ | | | | |ps]; try discriminate.
  cbn [get_member]. intros [= H]. apply json_valid_obj in Hv as [_ Hm].
  eapply lookup_member_valid; eauto.
Qed.

Lemma intercept_logs_valid (v : variant) (msg : json) :
  json_valid msg -> Forall logs_valid (fst (intercept v msg)).
Proof.
  intros Hv. unfold intercept.
  destruct (get_member msg (str "id")) as [[id|]|] eqn:Eid; cbn [fst]; try constructor.
  destruct (get_member msg (str "method")) as [method|] eqn:Em; cbn [fst];
    try constructor.
  destruct (set_has _ _) eqn:Es; cbn [fst]; try constructor.
  apply Forall_app. split; [|repeat constructor].
  unfold log. destruct (logStream v); [|constructor].
  constructor; [|constructor]. cbn [logs_valid].
  destruct method as [[ | | |s| | ]|]; try discriminate.
  apply json_valid_obj. split.
  - cbn [map fst keys_ordered]. repeat split; try (repeat constructor; fail).
    + intros [H|[]]; discriminate H.
    + intros [].
  - constructor; [|constructor; [|constructor]].
    + split; [apply str_valid | eapply get_member_valid; eauto].
    + split; [apply str_valid|].
      apply (get_member_valid msg (str "method") (JStr s) Hv Em).
Qed.

Lemma handle_logs_valid (v : variant) (p : proxy) (ev : event) :
  Forall logs_valid (fst (handle v p ev)).
Proof.
  destruct ev; cbn [handle]; try (repeat constructor; fail).
  - assert (H : Forall logs_valid (fst (parseFromClient v (from_client p) chunk))).
    { unfold parseFromClient, parser. apply drain_logs_valid.
      - intros data. repeat constructor.
      - intros f x [= <-]. apply normalizeUris_valid.
      - discriminate. }
    destruct (parseFromClient _ _ _) as [eff b]. exact H.
  - assert (H : Forall logs_valid (fst (parseFromServer v (from_server p) chunk))).
    { unfold parseFromServer, parser. apply drain_logs_valid.
      - intros data. repeat constructor.
      - discriminate.
      - intros icpt msg Hi Hv. destruct v; [|discriminate].
        injection Hi as <-. apply intercept_logs_valid. exact Hv. }
    destruct (parseFromServer _ _ _) as [eff b]. exact H.
  - cbn [fst]. apply Forall_app. split.
    + destruct (logStream v); repeat constructor.
    + unfold done. destruct signal; repeat constructor.
Qed.

Lemma direction_text_valid (d : direction) : string_valid (direction_text d).
Proof.
  destruct d; unfold direction_text;
    (apply Forall_app; split; [apply str_valid|]);
    (constructor; [unfold unit_valid; lia | apply str_valid]).
Qed.

Lemma log_record_valid (timestamp : jsstring) (d : direction) (m : json) :
  string_valid timestamp -> json_valid m ->
  json_valid (JObj [(str "timestamp", JStr timestamp);
                    (str "direction", JStr (direction_text d));
                    (str "message", m)]).
Proof.
  intros Ht Hm. apply json_valid_obj. split.
  - cbn [map fst keys_ordered]. repeat split; try (repeat constructor; fail).
    + intros [H|[H|[]]]; discriminate H.
    + intros [H|[]]; discriminate H.
    + intros [].
  - constructor; [|constructor; [|constructor; [|constructor]]].
    + split; [apply str_valid | exact Ht].
    + split; [apply str_valid | apply direction_text_valid].
    + split; [apply str_valid | exact Hm].
Qed.

Lemma log_entry_well_formed (timestamp : jsstring) (d : direction) (m : json) :
  string_valid timestamp -> json_valid m ->
  well_formed_utf16 (log_entry timestamp d m) = true.
Proof.
  intros Ht Hm. unfold log_entry. apply well_formed_app; [|reflexivity].
  apply JSON_stringify_well_formed. apply log_record_valid; assumption.
Qed.

(** X14: the log is a file of lines.  For every log write of any handler, in
    either script and any state, and every reading of the clock, the
    string passed to the stream is the text of one record followed by a
    line feed; that text holds no line feed, carriage return or other
    control character (inside strings they are escaped), and the bytes
    written, UTF-8, decode to the same string again. *)
Theorem X14_log_entries_are_lines (v : variant) (p : proxy) (ev : event)
  (timestamp : jsstring) (d : direction) (m : json) :
  string_valid timestamp ->
  In (LogWrite d m) (fst (handle v p ev)) ->
  exists line,
    log_entry timestamp d m = line ++ [10] /\
    forallb no_control line = true /\
    toString_utf8 (log_bytes timestamp d m) = log_entry timestamp d m.
Proof.
  intros Ht Hin.
  pose proof (handle_logs_valid v p ev) as Hv. rewrite Forall_forall in Hv.
  specialize (Hv _ Hin). cbn [logs_valid] in Hv.
  eexists. split; [reflexivity|]. split.
  - apply JSON_stringify_no_control. apply log_record_valid; assumption.
  - unfold log_bytes. apply utf8_roundtrip. apply log_entry_well_formed; assumption.
Qed.

Lemma X14_log_entries_are_lines_witness :
  exists line,
    log_entry (str "2025-01-01T00:00:00.000Z") ServerToClient
              (JObj [(str "_raw", JStr [97; 10; 98])])
    = line ++ [10] /\
    forallb no_control line = true.
Proof.
  assert (Ht : string_valid (str "2025-01-01T00:00:00.000Z")) by apply str_valid.
  assert (Hin : In (LogWrite ServerToClient (JObj [(str "_raw", JStr [97; 10; 98])]))
                   (fst (handle Typescript (mk_proxy [] [])
                           (ChildStdoutData
                              (bytes "Content-Length: 3" ++ CRLFCRLF
                               ++ [x61; x0a; x62]))))).
  { vm_compute. left. reflexivity. }
  destruct (X14_log_entries_are_lines _ _ _ _ _ _ Ht Hin) as (line & H1 & H2 & _).
  exists line. split; assumption.
Defined.

(** X15: every line of the log reads back.  Decoded as UTF-8 and given to
    [JSON.parse], the bytes of a log write are the record of its three
    members in the order [timestamp], [direction], [message], the
    message being the logged value up to the sign of zero, provided no
    number in it is infinite. *)
Theorem X15_log_entries_decode (v : variant) (p : proxy) (ev : event)
  (timestamp : jsstring) (d : direction) (m : json) :
  string_valid timestamp ->
  In (LogWrite d m) (fst (handle v p ev)) ->
  json_finite m = true ->
  JSON_parse (toString_utf8 (log_bytes timestamp d m))
  = Some (log_record timestamp d m).
Proof.
  intros Ht Hin Hf.
  pose proof (handle_logs_valid v p ev) as Hv. rewrite Forall_forall in Hv.
  specialize (Hv _ Hin). cbn [logs_valid] in Hv.
  unfold log_bytes. rewrite utf8_roundtrip by (apply log_entry_well_formed; assumption).
  pose proof (log_record_valid timestamp d m Ht Hv) as Hr.
  assert (Hrf : json_finite (JObj [(str "timestamp", JStr timestamp);
                                   (str "direction", JStr (direction_text d));
                                   (str "message", m)]) = true).
  { cbn [json_finite forallb snd]. rewrite Hf. reflexivity. }
  pose proof (JSON_stringify_size _ Hr) as Hs.
  unfold JSON_parse, log_entry.
  rewrite (parse_stringify _ Hr Hrf); [reflexivity| |reflexivity].
  rewrite length_app. lia.
Qed.

Lemma X15_log_entries_decode_witness :
  JSON_parse
    (toString_utf8
       (log_bytes (str "2025-01-01T00:00:00.000Z") ServerToClient
                  (JArr [JBool true; JNull])))
  = Some (JObj [(str "timestamp", JStr (str "2025-01-01T00:00:00.000Z"));
                (str "direction", JStr (str "server" ++ [8594] ++ str "client"));
                (str "message", JArr [JBool true; JNull])]).
Proof.
  assert (Ht : string_valid (str "2025-01-01T00:00:00.000Z")) by apply str_valid.
  assert (Hin : In (LogWrite ServerToClient (JArr [JBool true; JNull]))
                   (fst (handle Typescript (mk_proxy [] [])
                           (ChildStdoutData spaced_frame)))).
  { vm_compute. left. reflexivity. }
  exact (X15_log_entries_decode _ _ _ _ _ _ Ht Hin eq_refl).
Defined.

(** ** The header block *)

Lemma strip_prefix_ci_fold (p name r : jsstring) :
  map fold_case name = map fold_case p ->
  strip_prefix_ci p (name ++ r) = Some r.
Proof.
  revert name; induction p as [|c p IH]; intros [|d name] H; try discriminate.
  - reflexivity.
  - cbn [map] in H. injection H as Hd Hn.
    cbn [app strip_prefix_ci]. rewrite Hd, Z.eqb_refl. apply IH. exact Hn.
Qed.

Lemma digit_not_space (c : Z) : is_digit c = true -> is_space c = false.
Proof.
  intros H. apply is_digit_bounds in H. unfold is_space.
  apply orb_false_iff. split.
  - apply andb_false_iff. right. apply Z.leb_gt. lia.
  - apply Z.eqb_neq. lia.
Qed.

(** The pattern at the start of a header text: the name in any letter
    case, any white space, the digits. *)
Lemma content_length_here_spelled (name blanks digits post : jsstring) :
  map fold_case name = map fold_case (str "Content-Length:") ->
  forallb is_space blanks = true ->
  forallb is_digit digits = true -> digits <> [] ->
  stops is_digit post ->
  content_length_here (name ++ blanks ++ digits ++ post) = Some digits.
Proof.
  intros Hn Hb Hd Hne Hp. unfold content_length_here.
  rewrite strip_prefix_ci_fold by exact Hn.
  rewrite span_app; [|exact Hb|].
  - rewrite span_app by assumption.
    destruct digits; [congruence | reflexivity].
  - destruct digits as [|c ds]; [congruence|].
    cbn [app stops]. cbn [forallb] in Hd. apply andb_true_iff in Hd as [Hc _].
    apply digit_not_space. exact Hc.
Qed.

(** A buffer that starts with a header block, the separator and as many
    bytes as the block announces. *)
Lemma locate_header_block (hb body rest : buffer) (ds : jsstring) :
  indexOf (hb ++ CRLFCRLF) CRLFCRLF = Some (length hb) ->
  content_length_match (toString_ascii hb) = Some ds ->
  parseInt ds = Z.of_nat (length body) ->
  locate (hb ++ CRLFCRLF ++ body ++ rest) = Framed (hb ++ CRLFCRLF ++ body) body rest.
Proof.
  intros Hi Hm Hn.
  assert (Hi' : indexOf (hb ++ CRLFCRLF ++ body ++ rest) CRLFCRLF = Some (length hb)).
  { rewrite app_assoc. apply indexOf_app. exact Hi. }
  unfold locate. rewrite Hi'.
  assert (Hh : subarray (hb ++ CRLFCRLF ++ body ++ rest) 0 (length hb) = hb).
  { unfold subarray. cbn [skipn]. rewrite Nat.sub_0_r.
    rewrite firstn_app, firstn_all, Nat.sub_diag. cbn [firstn]. apply app_nil_r. }
  rewrite Hh, Hm, Hn.
  assert (Hlen : length (hb ++ CRLFCRLF ++ body) = (length hb + 4 + length body)%nat).
  { rewrite !length_app. cbn [length CRLFCRLF]. lia. }
  assert (El : (Z.of_nat (length (hb ++ CRLFCRLF ++ body ++ rest))
                <? Z.of_nat (length hb + 4) + Z.of_nat (length body)) = false).
  { apply Z.ltb_ge. rewrite !length_app. cbn [length CRLFCRLF]. lia. }
  rewrite El.
  replace (Z.to_nat (Z.of_nat (length hb + 4) + Z.of_nat (length body)))
    with (length (hb ++ CRLFCRLF ++ body)) by (rewrite Hlen; lia).
  replace (hb ++ CRLFCRLF ++ body ++ rest) with ((hb ++ CRLFCRLF ++ body) ++ rest)
    by (rewrite <- !app_assoc; reflexivity).
  f_equal.
  - unfold subarray. cbn [skipn]. rewrite Nat.sub_0_r.
    rewrite firstn_app, firstn_all, Nat.sub_diag. cbn [firstn]. apply app_nil_r.
  - unfold subarray. rewrite Hlen.
    replace (length hb + 4 + length body - (length hb + 4))%nat with (length body) by lia.
    rewrite <- !app_assoc.
    replace (hb ++ CRLFCRLF ++ body ++ rest) with ((hb ++ CRLFCRLF) ++ body ++ rest)
      by (rewrite <- app_assoc; reflexivity).
    rewrite skipn_app.
    replace (length hb + 4)%nat with (length (hb ++ CRLFCRLF))
      by (rewrite length_app; reflexivity).
    rewrite skipn_all, Nat.sub_diag. cbn [skipn app].
    rewrite firstn_app, firstn_all, Nat.sub_diag. cbn [firstn]. apply app_nil_r.
  - unfold subarray_from. rewrite skipn_app, skipn_all, Nat.sub_diag. reflexivity.
Qed.

(** X16: the spellings of the length header the parser accepts.  Let the
    header block [hb] (the bytes before the first separator), read as
    ASCII, begin with the name [Content-Length:] in any letter case,
    then any run of white space (also none), then digits (leading zeros
    allowed) whose value is the number of bytes of [body], and go on with
    anything that does not begin with a digit, such as further header
    lines.  Then the block, the separator and [body] are one complete
    frame with that body, whatever follows. *)
Theorem X16_accepted_length_headers (hb body rest : buffer)
  (name blanks digits post : jsstring) :
  toString_ascii hb = name ++ blanks ++ digits ++ post ->
  map fold_case name = map fold_case (str "Content-Length:") ->
  forallb is_space blanks = true ->
  forallb is_digit digits = true -> digits <> [] ->
  stops is_digit post ->
  digits_value digits = Z.of_nat (length body) ->
  indexOf (hb ++ CRLFCRLF) CRLFCRLF = Some (length hb) ->
  locate (hb ++ CRLFCRLF ++ body ++ rest) = Framed (hb ++ CRLFCRLF ++ body) body rest.
Proof.
  intros Ht Hn Hb Hd Hne Hp Hv Hi.
  apply (locate_header_block hb body rest digits).
  - exact Hi.
  - rewrite Ht. apply content_length_match_here.
    apply content_length_here_spelled; assumption.
  - exact Hv.
Qed.

Lemma X16_accepted_length_headers_witness :
  locate (bytes "CONTENT-length:007" ++ [x0d; x0a] ++ bytes "Content-Type: x"
          ++ CRLFCRLF ++ bytes "[1,2,3]" ++ bytes "Conte")
  = Framed (bytes "CONTENT-length:007" ++ [x0d; x0a] ++ bytes "Content-Type: x"
            ++ CRLFCRLF ++ bytes "[1,2,3]")
           (bytes "[1,2,3]") (bytes "Conte").
Proof.
  apply (X16_accepted_length_headers
           (bytes "CONTENT-length:007" ++ [x0d; x0a] ++ bytes "Content-Type: x")
           (bytes "[1,2,3]") (bytes "Conte")
           (str "CONTENT-length:") [] (str "007")
           ([13; 10] ++ str "Content-Type: x"));
    try (vm_compute; reflexivity).
  discriminate.
Defined.

(** ** Sessions *)

Section one_parser.

Variable v : variant.
Variable dir : direction.
Variable forward : buffer -> list effect.
Variable transform : option (json -> json).
Variable intercept : option (json -> list effect * option bool).

Abbreviation sparser := (parser v dir forward transform intercept).

Lemma parser_leaves_drained (buf chunk : buffer) :
  locate (snd (sparser buf chunk)) = NeedMore.
Proof.
  pose proof (parser_drained v dir forward transform intercept buf chunk) as H.
  unfold step in H. destruct (locate _); [reflexivity | discriminate | discriminate].
Qed.

Lemma parser_nothing_new (buf : buffer) :
  locate buf = NeedMore -> sparser buf [] = ([], buf).
Proof.
  intros H. apply parser_nil. unfold step. rewrite H. reflexivity.
Qed.

End one_parser.

Lemma quiet_event_writes (v : variant) (p : proxy) (ev : event) :
  match ev with StdinData _ | ChildStdoutData _ => False | _ => True end ->
  to_client (fst (handle v p ev)) = [] /\
  to_server (fst (handle v p ev)) = [] /\
  snd (handle v p ev) = p.
Proof.
  destruct ev; try contradiction; intros _; cbn [handle fst snd];
    try (repeat split; reflexivity).
  unfold done. destruct (logStream v), signal; repeat split; reflexivity.
Qed.

Ltac quiet_event v p ev IH Hc Hs :=
  let W1 := fresh "W" in let W2 := fresh "W" in let W3 := fresh "W" in
  let I1 := fresh "I" in let I2 := fresh "I" in let I3 := fresh "I" in
  destruct (quiet_event_writes v p ev I) as (W1 & W2 & W3);
  destruct (handle v p ev) as [? ?]; cbn [fst snd] in W1, W2, W3; subst;
  destruct (IH p (conj Hc Hs)) as (I1 & I2 & I3);
  destruct (run v p _) as [? ?]; cbn [fst snd app] in *;
  rewrite ?to_client_app, ?to_server_app, ?W1, ?W2, I1, I2, I3;
  repeat split; reflexivity.

Lemma run_client_side (v : variant) (evs : list event) :
  forall p, drained p ->
  to_client (fst (run v p evs))
  = to_client (fst (parseFromServer v (from_server p) (child_stdout_bytes evs))) /\
  from_server (snd (run v p evs))
  = snd (parseFromServer v (from_server p) (child_stdout_bytes evs)) /\
  from_client (snd (run v p evs))
  = snd (parseFromClient v (from_client p) (stdin_bytes evs)).
Proof.
  induction evs as [|ev evs IH]; intros p [Hc Hs].
  - cbn [run child_stdout_bytes stdin_bytes flat_map fst snd].
    unfold parseFromServer, parseFromClient.
    rewrite !parser_nothing_new by assumption. repeat split; reflexivity.
  - cbn [run child_stdout_bytes stdin_bytes flat_map].
    fold (child_stdout_bytes evs). fold (stdin_bytes evs).
    destruct ev as [chunk| |chunk|code signal|message|sig| | ].
    + cbn [handle].
      pose proof (client_parser_to_client v (from_client p) chunk) as Hw.
      unfold parseFromClient, parseFromServer in *.
      pose proof (parser_leaves_drained v ClientToServer
                    (fun data => [WriteChildStdin data]) (Some normalizeUris) None
                    (from_client p) chunk) as Hd.
      rewrite (parser_app v ClientToServer (fun data => [WriteChildStdin data])
                 (Some normalizeUris) None (from_client p) chunk (stdin_bytes evs)).
      destruct (parser v ClientToServer _ _ _ (from_client p) chunk) as [eff b].
      cbn [fst snd] in *.
      destruct (IH (mk_proxy b (from_server p))) as (I1 & I2 & I3);
        [split; assumption|].
      destruct (run v (mk_proxy b (from_server p)) evs) as [effs p''].
      cbn [fst snd from_client from_server app] in *.
      rewrite to_client_app, Hw, I1, I2, I3. repeat split; reflexivity.
    + quiet_event v p StdinEnd IH Hc Hs.
    + cbn [handle].
      unfold parseFromClient, parseFromServer in *.
      pose proof (parser_leaves_drained v ServerToClient
                    (fun data => [WriteStdout data]) None
                    (match v with Csharp _ => Some (intercept v) | Typescript => None end)
                    (from_server p) chunk) as Hd.
      rewrite (parser_app v ServerToClient (fun data => [WriteStdout data]) None
                 (match v with Csharp _ => Some (intercept v) | Typescript => None end)
                 (from_server p) chunk (child_stdout_bytes evs)).
      destruct (parser v ServerToClient _ _ _ (from_server p) chunk) as [eff b].
      cbn [fst snd] in *.
      destruct (IH (mk_proxy (from_client p) b)) as (I1 & I2 & I3);
        [split; assumption|].
      destruct (run v (mk_proxy (from_client p) b) evs) as [effs p''].
      cbn [fst snd from_client from_server app] in *.
      rewrite !to_client_app, I1, I2, I3. repeat split; reflexivity.
    + quiet_event v p (ChildExit code signal) IH Hc Hs.
    + quiet_event v p (ChildError message) IH Hc Hs.
    + quiet_event v p (Signal sig) IH Hc Hs.
    + quiet_event v p StdinError IH Hc Hs.
    + quiet_event v p StdoutError IH Hc Hs.
Qed.

Lemma run_server_side (evs : list event) :
  forall p, drained p ->
  to_server (fst (run Typescript p evs))
  = to_server (fst (parseFromClient Typescript (from_client p) (stdin_bytes evs))).
Proof.
  induction evs as [|ev evs IH]; intros p [Hc Hs].
  - cbn [run stdin_bytes flat_map fst]. unfold parseFromClient.
    rewrite parser_nothing_new by assumption. reflexivity.
  - cbn [run stdin_bytes flat_map]. fold (stdin_bytes evs).
    destruct ev as [chunk| |chunk|code signal|message|sig| | ];
      try (match goal with
           | |- context [handle Typescript p ?ev] =>
               destruct (quiet_event_writes Typescript p ev I) as (_ & W2 & W3);
               destruct (handle Typescript p ev) as [eff p'];
               cbn [fst snd] in W2, W3; subst p';
               specialize (IH p (conj Hc Hs));
               destruct (run Typescript p evs) as [effs p''];
               cbn [fst snd app] in *;
               rewrite to_server_app, W2, IH; reflexivity
           end).
    + cbn [handle]. unfold parseFromClient in *.
      pose proof (parser_leaves_drained Typescript ClientToServer
                    (fun data => [WriteChildStdin data]) (Some normalizeUris) None
                    (from_client p) chunk) as Hd.
      rewrite (parser_app Typescript ClientToServer (fun data => [WriteChildStdin data])
                 (Some normalizeUris) None (from_client p) chunk (stdin_bytes evs)).
      destruct (parser Typescript ClientToServer _ _ _ (from_client p) chunk) as [eff b].
      cbn [fst snd] in *.
      specialize (IH (mk_proxy b (from_server p)) (conj Hd Hs)).
      destruct (run Typescript (mk_proxy b (from_server p)) evs) as [effs p''].
      cbn [fst snd from_client app] in *.
      rewrite !to_server_app, IH. reflexivity.
    + cbn [handle].
      pose proof (typescript_server_parser_to_server (from_server p) chunk) as Hw.
      pose proof (parser_leaves_drained Typescript ServerToClient
                    (fun data => [WriteStdout data]) None None
                    (from_server p) chunk) as Hd.
      change (parser Typescript ServerToClient (fun data => [WriteStdout data]) None None)
        with (parseFromServer Typescript) in Hd.
      destruct (parseFromServer Typescript (from_server p) chunk) as [eff b].
      cbn [fst snd] in *.
      specialize (IH (mk_proxy (from_client p) b) (conj Hc Hd)).
      destruct (run Typescript (mk_proxy (from_client p) b) evs) as [effs p''].
      cbn [fst snd from_client app] in *.
      rewrite to_server_app, Hw, IH. reflexivity.
Qed.

(** X17: a session, stream by stream.  Start the proxy with empty
    buffers and let any events happen in any order.  What is written to
    the client is what the server-to-client parser writes for the bytes
    the child's output has delivered, taken as one chunk: it does not
    depend on how these bytes were split into chunks, nor on anything the
    client sent, nor on signals and stream ends in between.  In the
    typescript script the same holds for what is written to the child and
    the client's bytes.  The two buffers at the end are those of the two
    parsers after these bytes. *)
Theorem X17_session_by_stream (v : variant) (evs : list event) :
  to_client (fst (run v (mk_proxy [] []) evs))
  = to_client (fst (parseFromServer v [] (child_stdout_bytes evs))) /\
  to_server (fst (run Typescript (mk_proxy [] []) evs))
  = to_server (fst (parseFromClient Typescript [] (stdin_bytes evs))) /\
  snd (run v (mk_proxy [] []) evs)
  = mk_proxy (snd (parseFromClient v [] (stdin_bytes evs)))
             (snd (parseFromServer v [] (child_stdout_bytes evs))).
Proof.
  assert (Hd : drained (mk_proxy [] [])) by (split; reflexivity).
  destruct (run_client_side v evs _ Hd) as (H1 & H2 & H3).
  split; [exact H1|]. split; [exact (run_server_side evs _ Hd)|].
  destruct (snd (run v (mk_proxy [] []) evs)) as [c s].
  cbn [from_client from_server] in *. rewrite H2, H3. reflexivity.
Qed.

(** ** The [DEBUG] switch *)

Lemma unlogged_app (a b : list effect) : unlogged (a ++ b) = unlogged a ++ unlogged b.
Proof. apply filter_app. Qed.

Lemma unlogged_log (v : variant) (d : direction) (m : json) : unlogged (log v d m) = [].
Proof. unfold log. destruct (logStream v); reflexivity. Qed.

Section same_traffic.

Variable v1 v2 : variant.
Variable dir : direction.
Variable forward : buffer -> list effect.
Variable transform : option (json -> json).
Variable intercept1 intercept2 : option (json -> list effect * option bool).

Hypothesis intercepts_agree :
  match intercept1, intercept2 with
  | None, None => True
  | Some i1, Some i2 =>
      forall msg, unlogged (fst (i1 msg)) = unlogged (fst (i2 msg)) /\
                  snd (i1 msg) = snd (i2 msg)
  | _, _ => False
  end.

Lemma handle_frame_same_traffic (raw body : buffer) :
  unlogged (handle_frame v1 dir forward transform intercept1 raw body)
  = unlogged (handle_frame v2 dir forward transform intercept2 raw body).
Proof.
  unfold handle_frame, raw_fallback, reencode.
  destruct (JSON_parse _) as [parsed|];
    [|rewrite !unlogged_app, !unlogged_log; reflexivity].
  rewrite !unlogged_app, !unlogged_log. cbn [app].
  destruct intercept1 as [i1|], intercept2 as [i2|]; try contradiction;
    [|reflexivity].
  destruct (intercepts_agree
              (match transform with Some f => f parsed | None => parsed end))
    as [He Hr].
  destruct (i1 _) as [e1 r1], (i2 _) as [e2 r2]. cbn [fst snd] in *. subst r2.
  destruct r1 as [[|]|]; rewrite ?unlogged_app, ?unlogged_log, He; reflexivity.
Qed.

Lemma drain_same_traffic (n : nat) (buf : buffer) :
  unlogged (fst (drain v1 dir forward transform intercept1 n buf))
  = unlogged (fst (drain v2 dir forward transform intercept2 n buf)) /\
  snd (drain v1 dir forward transform intercept1 n buf)
  = snd (drain v2 dir forward transform intercept2 n buf).
Proof.
  revert buf; induction n as [|n IH]; intros buf; cbn [drain];
    [split; reflexivity|].
  unfold step.
  destruct (locate buf) as [|raw rest|raw body rest]; [split; reflexivity| |].
  - destruct (IH rest) as [I1 I2].
    destruct (drain v1 _ _ _ _ n rest), (drain v2 _ _ _ _ n rest).
    cbn [fst snd] in *. rewrite !unlogged_app, I1, I2. split; reflexivity.
  - destruct (IH rest) as [I1 I2].
    destruct (drain v1 _ _ _ _ n rest), (drain v2 _ _ _ _ n rest).
    cbn [fst snd] in *.
    rewrite !unlogged_app, I1, I2, handle_frame_same_traffic. split; reflexivity.
Qed.

End same_traffic.

Lemma intercept_same_traffic (v1 v2 : variant) (msg : json) :
  unlogged (fst (intercept v1 msg)) = unlogged (fst (intercept v2 msg)) /\
  snd (intercept v1 msg) = snd (intercept v2 msg).
Proof.
  unfold intercept.
  destruct (get_member msg (str "id")) as [[id|]|]; try (split; reflexivity).
  destruct (get_member msg (str "method")) as [method|]; try (split; reflexivity).
  destruct (set_has _ _); try (split; reflexivity).
  cbn [fst snd]. rewrite !unlogged_app, !unlogged_log. split; reflexivity.
Qed.

(** X18: [DEBUG] changes nothing but the log.  On every event and in
    every state, what the handlers of the csharp script do without
    [DEBUG] is what they do with it once the writes to the log stream and
    its end are left out: the same frames to the child and to the client,
    the same replies, the same signals and exit status, in the same
    order; and the same bytes stay in the two buffers. *)
Theorem X18_debug_only_logs (p : proxy) (ev : event) :
  unlogged (fst (handle (Csharp true) p ev)) = fst (handle (Csharp false) p ev) /\
  snd (handle (Csharp true) p ev) = snd (handle (Csharp false) p ev).
Proof.
  assert (Hq : forall l, unlogged l = l <-> Forall (fun e => is_log e = false) l).
  { induction l as [|e l IH]; [split; [constructor | reflexivity]|].
    unfold unlogged in *. cbn [filter]. destruct (is_log e) eqn:E; cbn [negb].
    - split.
      + intros H. pose proof (filter_length_le (fun e => negb (is_log e)) l) as Hl.
        rewrite H in Hl. cbn [length] in Hl. lia.
      + intros H. inversion H; congruence.
    - split.
      + intros [= H]. constructor; [exact E | apply IH; exact H].
      + intros H. inversion H; subst. f_equal. apply IH. assumption. }
  destruct ev as [chunk| |chunk|code signal|message|sig| | ];
    try (repeat split; reflexivity).
  - cbn [handle]. unfold parseFromClient, parser.
    destruct (drain_same_traffic (Csharp true) (Csharp false) ClientToServer
                (fun data => [WriteChildStdin data]) (Some normalizeUris) None None I
                (length (from_client p ++ chunk)) (from_client p ++ chunk)) as [H1 H2].
    assert (H3 : Forall (fun e => is_log e = false)
                   (fst (drain (Csharp false) ClientToServer
                           (fun data => [WriteChildStdin data]) (Some normalizeUris)
                           None (length (from_client p ++ chunk))
                           (from_client p ++ chunk)))).
    { apply drain_all.
      - intros d m. constructor.
      - intros data. repeat constructor.
      - discriminate. }
    apply Hq in H3.
    destruct (drain (Csharp true) _ _ _ _ _ _), (drain (Csharp false) _ _ _ _ _ _).
    cbn [fst snd] in *. subst. split; [congruence | reflexivity].
  - cbn [handle]. unfold parseFromServer, parser.
    destruct (drain_same_traffic (Csharp true) (Csharp false) ServerToClient
                (fun data => [WriteStdout data]) None
                (Some (intercept (Csharp true))) (Some (intercept (Csharp false)))
                (intercept_same_traffic (Csharp true) (Csharp false))
                (length (from_server p ++ chunk)) (from_server p ++ chunk)) as [H1 H2].
    assert (H3 : Forall (fun e => is_log e = false)
                   (fst (drain (Csharp false) ServerToClient
                           (fun data => [WriteStdout data]) None
                           (Some (intercept (Csharp false)))
                           (length (from_server p ++ chunk))
                           (from_server p ++ chunk)))).
    { apply drain_all.
      - intros d m. constructor.
      - intros data. repeat constructor.
      - intros icpt msg [= <-]. unfold intercept.
        destruct (get_member msg (str "id")) as [[id|]|]; cbn [fst]; try constructor.
        destruct (get_member msg (str "method")) as [method|]; cbn [fst];
          try constructor.
        destruct (set_has _ _); cbn [fst]; repeat constructor. }
    apply Hq in H3.
    destruct (drain (Csharp true) _ _ _ _ _ _), (drain (Csharp false) _ _ _ _ _ _).
    cbn [fst snd] in *. subst. split; [congruence | reflexivity].
  - cbn [handle fst snd logStream app]. unfold done.
    destruct signal; repeat split; reflexivity.
Qed.
